(** * Schema / object / plan subsystem of terraform-provider-testing

    A shallow embedding of the schema model ([tfschema], formerly the
    [Schema...] types of package [tfsdk]), of validation and default
    application, of the object reader and builder ([tfobj]), of the plan
    builder and of the apply driver, and of the data resource types of
    the provider with the TAP reports they read, together with the
    properties the specification states about them.

    Go maps are finite maps ([gmap]); a Go [panic] is the result [None];
    values of the go-cty library are an inductive type. *)

From Stdlib Require Import ZArith DecimalString.
From stdpp Require Import base option list strings gmap fin_maps sorting.

#[local] Set Warnings "-register-all".


(** ** go-cty: types and values

    The repository imports [github.com/zclconf/go-cty/cty]; the library is
    not part of the sources, so the operations the program calls are
    written here after the library's documented behaviour.  Numbers are
    restricted to integers, and capsule types and marks are left out. *)
Module cty.

(** [cty.Type].  [NilType] is the zero [Type] (the type of [NilVal]). *)
Inductive Ty : Type :=
| NilType
| TString
| TNumber
| TBool
| DynamicPseudoType
| TList (ety : Ty)
| TSet (ety : Ty)
| TMap (ety : Ty)
| TObject (atys : gmap string Ty)
| TTuple (etys : list Ty).

(** [cty.Value]: a type together with a raw value.  A known collection
    records its element type; the type of an object or a tuple is read off
    its members.  Set elements are kept in insertion order (the library
    iterates them in an order of its own, which nothing below relies on). *)
Inductive Value : Type :=
| NilVal
| NullVal (ty : Ty)
| UnknownVal (ty : Ty)
| StringVal (s : string)
| NumberIntVal (z : Z)
| BoolVal (b : bool)
| RawList (ety : Ty) (elems : list Value)
| RawSet (ety : Ty) (elems : list Value)
| RawMap (ety : Ty) (elems : gmap string Value)
| ObjectVal (attrs : gmap string Value)
| TupleVal (elems : list Value).

Definition DynamicVal : Value := UnknownVal DynamicPseudoType.
Definition EmptyObjectVal : Value := ObjectVal ∅.
Definition EmptyTupleVal : Value := TupleVal [].

(** [Value.Type]. *)
Fixpoint type_of (val : Value) : Ty :=
  match val with
  | NilVal => NilType
  | NullVal ty => ty
  | UnknownVal ty => ty
  | StringVal _ => TString
  | NumberIntVal _ => TNumber
  | BoolVal _ => TBool
  | RawList ety _ => TList ety
  | RawSet ety _ => TSet ety
  | RawMap ety _ => TMap ety
  | ObjectVal attrs => TObject (type_of <$> attrs)
  | TupleVal elems => TTuple (type_of <$> elems)
  end.

(** [Value.IsNull]: the raw value is nil. *)
Definition IsNull (val : Value) : bool :=
  match val with
  | NilVal | NullVal _ => true
  | _ => false
  end.

(** [Value.IsKnown]: the raw value is not the unknown marker. *)
Definition IsKnown (val : Value) : bool :=
  match val with
  | UnknownVal _ => false
  | _ => true
  end.

Definition IsObjectType (ty : Ty) : bool :=
  match ty with TObject _ => true | _ => false end.
Definition IsTupleType (ty : Ty) : bool :=
  match ty with TTuple _ => true | _ => false end.
Definition IsListType (ty : Ty) : bool :=
  match ty with TList _ => true | _ => false end.
Definition IsSetType (ty : Ty) : bool :=
  match ty with TSet _ => true | _ => false end.
Definition IsMapType (ty : Ty) : bool :=
  match ty with TMap _ => true | _ => false end.
Definition IsDynamic (ty : Ty) : bool :=
  match ty with DynamicPseudoType => true | _ => false end.

(** [Type.ElementType]: panics unless the type is a collection type. *)
Definition ElementType (ty : Ty) : option Ty :=
  match ty with
  | TList ety | TSet ety | TMap ety => Some ety
  | _ => None
  end.

(** Conjunction and disjunction of the booleans stored in a map. *)
Definition map_forallb (m : gmap string bool) : bool :=
  map_fold (λ _ b acc, b && acc) true m.
Definition map_existsb (m : gmap string bool) : bool :=
  map_fold (λ _ b acc, b || acc) false m.

(** [Type.HasDynamicTypes]: the type is [DynamicPseudoType] or has it
    among its descendants.  (The library panics on the zero [Type], which
    no type built with its constructors contains; here it has none.) *)
Fixpoint HasDynamicTypes (ty : Ty) : bool :=
  match ty with
  | DynamicPseudoType => true
  | TList ety | TSet ety | TMap ety => HasDynamicTypes ety
  | TObject atys => map_existsb (HasDynamicTypes <$> atys)
  | TTuple etys => existsb HasDynamicTypes etys
  | _ => false
  end.

(** [Type.Equals]: structural equality of types. *)
Fixpoint Ty_eqb (t1 t2 : Ty) {struct t1} : bool :=
  match t1, t2 with
  | NilType, NilType => true
  | TString, TString => true
  | TNumber, TNumber => true
  | TBool, TBool => true
  | DynamicPseudoType, DynamicPseudoType => true
  | TList e1, TList e2 => Ty_eqb e1 e2
  | TSet e1, TSet e2 => Ty_eqb e1 e2
  | TMap e1, TMap e2 => Ty_eqb e1 e2
  | TObject a1, TObject a2 =>
      Nat.eqb (size a1) (size a2)
      && map_forallb
           (map_imap (λ k f, Some (from_option f false (a2 !! k)))
                     (Ty_eqb <$> a1))
  | TTuple l1, TTuple l2 =>
      Nat.eqb (length l1) (length l2)
      && forallb id (zip_with (λ f t, f t) (Ty_eqb <$> l1) l2)
  | _, _ => false
  end.

(** [Value.GetAttr]: a value of dynamic type yields [DynamicVal]; an
    unknown object yields an unknown of the attribute's type; it panics on
    a non-object, on a missing attribute and on a null object. *)
Definition GetAttr (val : Value) (name : string) : option Value :=
  if IsDynamic (type_of val) then Some DynamicVal
  else match val with
       | UnknownVal (TObject atys) => UnknownVal <$> atys !! name
       | ObjectVal attrs => attrs !! name
       | _ => None
       end.

(** [Value.LengthInt]: tuples and objects have the length of their type,
    known or not; otherwise the value must be a known, non-null
    collection. *)
Definition LengthInt (val : Value) : option nat :=
  match type_of val with
  | TTuple etys => Some (length etys)
  | TObject atys => Some (size atys)
  | _ =>
      match val with
      | RawList _ elems | RawSet _ elems => Some (length elems)
      | RawMap _ elems => Some (size elems)
      | _ => None
      end
  end.

(** [Value.ElementIterator], as the list of (key, element) pairs it
    yields: positions for lists and tuples, names for maps and objects, the
    element itself for sets.  It panics on unknown and null values and on
    values that cannot be iterated. *)
Definition ElementIterator (val : Value) : option (list (Value * Value)) :=
  match val with
  | RawList _ elems | TupleVal elems =>
      Some (imap (λ i ev, (NumberIntVal (Z.of_nat i), ev)) elems)
  | RawSet _ elems => Some ((λ ev, (ev, ev)) <$> elems)
  | RawMap _ elems | ObjectVal elems =>
      Some ((λ kv, (StringVal kv.1, kv.2)) <$> map_to_list elems)
  | _ => None
  end.

(** [Value.AsString]: panics unless the value is a known string. *)
Definition AsString (val : Value) : option string :=
  match val with StringVal s => Some s | _ => None end.

(** [Value.True]: panics unless the value is a known boolean. *)
Definition True_ (val : Value) : option bool :=
  match val with BoolVal b => Some b | _ => None end.

(** An element is stored in a collection as its raw value and read back
    at the collection's element type. *)
Definition retype (ety : Ty) (val : Value) : Value :=
  match val with
  | NullVal DynamicPseudoType => NullVal ety
  | UnknownVal DynamicPseudoType => UnknownVal ety
  | _ => val
  end.

(** The element type a collection constructor settles on: the first type
    that is not dynamic; a later type that is neither dynamic nor equal to
    it is a panic. *)
Definition unify_step (acc : option Ty) (ty : Ty) : option Ty :=
  ety ← acc;
  if IsDynamic ety then Some ty
  else if IsDynamic ty || Ty_eqb ety ty then Some ety
  else None.
Definition unify_types (tys : list Ty) : option Ty :=
  foldl unify_step (Some DynamicPseudoType) tys.

Definition ListValEmpty (ety : Ty) : Value := RawList ety [].
Definition SetValEmpty (ety : Ty) : Value := RawSet ety [].
Definition MapValEmpty (ety : Ty) : Value := RawMap ety ∅.

(** [cty.ListVal]: panics on the empty slice and on inconsistent element
    types. *)
Definition ListVal (vals : list Value) : option Value :=
  match vals with
  | [] => None
  | _ => ety ← unify_types (type_of <$> vals);
         Some (RawList ety (retype ety <$> vals))
  end.

(** [cty.MapVal]: as [ListVal], for a map of elements. *)
Definition MapVal (vals : gmap string Value) : option Value :=
  if decide (vals = ∅) then None
  else ety ← unify_types (type_of <$> (map_to_list vals).*2);
       Some (RawMap ety (retype ety <$> vals)).

(** The scan that [Value.Equals] makes over the comparisons of the
    members of two structures: the first unknown comparison makes the
    whole result unknown, the first false one makes it false. *)
Fixpoint eq_scan (rs : list Value) : Value :=
  match rs with
  | [] => BoolVal true
  | r :: rs' =>
      if negb (IsKnown r) then UnknownVal TBool
      else match r with
           | BoolVal false => BoolVal false
           | _ => eq_scan rs'
           end
  end.

Definition is_true_val (val : Value) : bool :=
  match val with BoolVal true => true | _ => false end.

(** [Value.Equals]: a boolean value, unknown when the comparison cannot
    be decided.  Members of objects and maps are scanned in the order of
    [map_to_list] (Go leaves the order of objects unspecified).  Set
    membership goes through [Equals] being exactly true. *)
Fixpoint Equals (val other : Value) {struct val} : Value :=
  if IsDynamic (type_of val) || IsDynamic (type_of other) then UnknownVal TBool
  else if negb (Ty_eqb (type_of val) (type_of other)) then BoolVal false
  else if negb (IsKnown val && IsKnown other) then UnknownVal TBool
  else if IsNull val || IsNull other then BoolVal (IsNull val && IsNull other)
  else
    match val, other with
    | StringVal a, StringVal b => BoolVal (bool_decide (a = b))
    | NumberIntVal a, NumberIntVal b => BoolVal (bool_decide (a = b))
    | BoolVal a, BoolVal b => BoolVal (bool_decide (a = b))
    | ObjectVal m1, ObjectVal m2 =>
        eq_scan (map_to_list
                   (map_imap (λ k f, f <$> m2 !! k) (Equals <$> m1))).*2
    | TupleVal l1, TupleVal l2 =>
        eq_scan (zip_with (λ f v, f v) (Equals <$> l1) l2)
    | RawList _ l1, RawList _ l2 =>
        if Nat.eqb (length l1) (length l2)
        then eq_scan (zip_with (λ f v, f v) (Equals <$> l1) l2)
        else BoolVal false
    | RawSet _ l1, RawSet _ l2 =>
        let has1 := Equals <$> l1 in
        BoolVal (forallb (λ f, existsb (λ w, is_true_val (f w)) l2) has1
                 && forallb (λ w, existsb (λ f, is_true_val (f w)) has1) l2)
    | RawMap _ m1, RawMap _ m2 =>
        if Nat.eqb (size m1) (size m2)
        then eq_scan (map_to_list
                        (map_imap
                           (λ k f, Some (from_option f (BoolVal false) (m2 !! k)))
                           (Equals <$> m1))).*2
        else BoolVal false
    | _, _ => BoolVal false
    end.

(** The equivalence of the library's set rules: [Equals] is exactly
    true, so that two unknown values are never equivalent. *)
Definition Equivalent (v1 v2 : Value) : bool := is_true_val (Equals v1 v2).

(** Adding to a set: nothing happens when an equivalent element is
    already there. *)
Definition set_add (s : list Value) (val : Value) : list Value :=
  if existsb (λ ev, Equivalent ev val) s then s else s ++ [val].
Definition set_from_slice (vals : list Value) : list Value :=
  foldl set_add [] vals.

(** The invariant of a set's element list: no element is equivalent to
    an earlier one. *)
Definition set_ok (s : list Value) : Prop :=
  ∀ i x, s !! i = Some x → existsb (λ ev, Equivalent ev x) (take i s) = false.

Definition is_ObjectVal (val : Value) : Prop := ∃ attrs, val = ObjectVal attrs.

(** [cty.SetVal]: as [ListVal]; equivalent elements are merged. *)
Definition SetVal (vals : list Value) : option Value :=
  match vals with
  | [] => None
  | _ => ety ← unify_types (type_of <$> vals);
         Some (RawSet ety (set_from_slice (retype ety <$> vals)))
  end.

(** All the results of a map of computations, or a panic if one of them
    panics. *)
Definition map_sequence {A} (m : gmap string (option A)) : option (gmap string A) :=
  if decide (map_Forall (λ _ o, is_Some o) m) then Some (omap id m) else None.

(** The Go loop [for k, a := range m { out[k] = body(k, a) }] into a
    fresh map [out], where the body may panic. *)
Definition map_range {A B} (m : gmap string A) (body : string → A → option B)
  : option (gmap string B) :=
  map_sequence (map_imap (λ k a, Some (body k a)) m).

(** [Value.IsWhollyKnown]: no unknown value anywhere inside. *)
Fixpoint IsWhollyKnown (val : Value) : bool :=
  match val with
  | UnknownVal _ => false
  | RawList _ elems | RawSet _ elems | TupleVal elems =>
      forallb IsWhollyKnown elems
  | RawMap _ elems | ObjectVal elems => map_forallb (IsWhollyKnown <$> elems)
  | _ => true
  end.

(** [cty.UnknownAsNull]: every unknown value, at any depth, becomes a
    null of the same type; empty collections are returned as they are. *)
Fixpoint UnknownAsNull (val : Value) : option Value :=
  match val with
  | UnknownVal ty => Some (NullVal ty)
  | RawList _ elems =>
      if decide (length elems = 0) then Some val
      else mapM UnknownAsNull elems ≫= ListVal
  | TupleVal elems =>
      if decide (length elems = 0) then Some val
      else TupleVal <$> mapM UnknownAsNull elems
  | RawSet _ elems =>
      if decide (length elems = 0) then Some val
      else mapM UnknownAsNull elems ≫= SetVal
  | RawMap _ elems =>
      if decide (size elems = 0) then Some val
      else map_sequence (UnknownAsNull <$> elems) ≫= MapVal
  | ObjectVal attrs =>
      if decide (size attrs = 0) then Some val
      else ObjectVal <$> map_sequence (UnknownAsNull <$> attrs)
  | _ => Some val
  end.

(** The value with every unknown value inside it, at any depth, replaced
    in place by the null value of the same type; a set keeps the first of
    the elements that have become equivalent.  This is written from the
    description of the apply phase, to be compared with [UnknownAsNull]. *)
Fixpoint unknowns_nulled (val : Value) : Value :=
  match val with
  | UnknownVal ty => NullVal ty
  | RawList ety elems => RawList ety (unknowns_nulled <$> elems)
  | TupleVal elems => TupleVal (unknowns_nulled <$> elems)
  | RawSet ety elems => RawSet ety (set_from_slice (unknowns_nulled <$> elems))
  | RawMap ety elems => RawMap ety (unknowns_nulled <$> elems)
  | ObjectVal attrs => ObjectVal (unknowns_nulled <$> attrs)
  | _ => val
  end.

(** The invariant of the values the library builds: the elements of a
    list, a set or a map have the element type of the collection, and no
    element of a set is equivalent to an earlier one. *)
Inductive well_formed : Value → Prop :=
| well_formed_nil : well_formed NilVal
| well_formed_null ty : well_formed (NullVal ty)
| well_formed_unknown ty : well_formed (UnknownVal ty)
| well_formed_string s : well_formed (StringVal s)
| well_formed_number z : well_formed (NumberIntVal z)
| well_formed_bool b : well_formed (BoolVal b)
| well_formed_list ety elems :
    Forall well_formed elems → Forall (λ v, type_of v = ety) elems →
    well_formed (RawList ety elems)
| well_formed_set ety elems :
    Forall well_formed elems → Forall (λ v, type_of v = ety) elems →
    set_ok elems →
    well_formed (RawSet ety elems)
| well_formed_map ety elems :
    map_Forall (λ _, well_formed) elems →
    map_Forall (λ _ v, type_of v = ety) elems →
    well_formed (RawMap ety elems)
| well_formed_object attrs :
    map_Forall (λ _, well_formed) attrs → well_formed (ObjectVal attrs)
| well_formed_tuple elems :
    Forall well_formed elems → well_formed (TupleVal elems).

(** The number of constructors of a value, a measure for inductions on
    values nested in maps. *)
Definition map_sum (m : gmap string nat) : nat :=
  map_fold (λ _ n acc, n + acc) 0 m.
Fixpoint Value_size (val : Value) : nat :=
  match val with
  | RawList _ elems | RawSet _ elems | TupleVal elems =>
      S (sum_list (Value_size <$> elems))
  | RawMap _ elems | ObjectVal elems => S (map_sum (Value_size <$> elems))
  | _ => 1
  end.
Fixpoint Ty_size (ty : Ty) : nat :=
  match ty with
  | TList ety | TSet ety | TMap ety => S (Ty_size ety)
  | TObject atys => S (map_sum (Ty_size <$> atys))
  | TTuple etys => S (sum_list (Ty_size <$> etys))
  | _ => 1
  end.

(** A type is static when no part of it is left to be decided by the
    value. *)
Definition static (ty : Ty) : Prop := HasDynamicTypes ty = false.

(** [Value.Index]: the element of a list, a map or a tuple at a key.  A
    value of dynamic type yields [DynamicVal]; an unknown key or an
    unknown collection yields an unknown of the element type; a key
    missing from a map yields a null of the element type.  It panics on
    other types, on a key of the wrong type, on a negative position, on a
    position past the end, on a null key and on a null collection. *)
Definition Index (val key : Value) : option Value :=
  if IsDynamic (type_of val) then Some DynamicVal
  else
    match type_of val with
    | TList elty =>
        if IsDynamic (type_of key) then Some (UnknownVal elty)
        else if negb (Ty_eqb (type_of key) TNumber) then None
        else if negb (IsKnown key) then Some (UnknownVal elty)
        else if negb (IsKnown val) then Some (UnknownVal elty)
        else match key, val with
             | NumberIntVal index, RawList _ elems =>
                 if decide (index < 0)%Z then None else elems !! Z.to_nat index
             | _, _ => None
             end
    | TMap elty =>
        if IsDynamic (type_of key) then Some (UnknownVal elty)
        else if negb (Ty_eqb (type_of key) TString) then None
        else if negb (IsKnown key) then Some (UnknownVal elty)
        else if negb (IsKnown val) then Some (UnknownVal elty)
        else match key, val with
             | StringVal keyStr, RawMap _ elems =>
                 Some (default (NullVal elty) (elems !! keyStr))
             | _, _ => None
             end
    | TTuple eltys =>
        if IsDynamic (type_of key) then Some DynamicVal
        else if negb (Ty_eqb (type_of key) TNumber) then None
        else if negb (IsKnown key) then Some DynamicVal
        else match key with
             | NumberIntVal index =>
                 if decide (index < 0)%Z then None
                 else
                   ety ← eltys !! Z.to_nat index;
                   if negb (IsKnown val) then Some (UnknownVal ety)
                   else match val with
                        | TupleVal elems => elems !! Z.to_nat index
                        | _ => None
                        end
             | _ => None
             end
    | _ => None
    end.

(** [cty.Path]: attribute and index steps. *)
Inductive PathStep : Type :=
| GetAttrStep (Name : string)
| IndexStep (Key : Value).

Definition Path : Type := list PathStep.

(** [Path.GetAttr] and [Path.Index] return an extended copy. *)
Definition Path_GetAttr (p : Path) (name : string) : Path := p ++ [GetAttrStep name].
Definition Path_Index (p : Path) (key : Value) : Path := p ++ [IndexStep key].

End cty.

(** ** sdkdiags: diagnostics *)
Module sdkdiags.

Inductive DiagSeverity : Type :=
| diagSeverityInvalid
| Error
| Warning.

#[global] Instance DiagSeverity_eq_dec : EqDecision DiagSeverity.
Proof. solve_decision. Defined.

Record Diagnostic : Type := mkDiagnostic {
  Severity : DiagSeverity;
  Summary : string;
  Detail : string;
  Path : cty.Path
}.

Definition Diagnostics : Type := list Diagnostic.

(** [Diagnostics.HasErrors]. *)
Definition HasErrors (diags : Diagnostics) : bool :=
  existsb (λ diag, bool_decide (Severity diag = Error)) diags.

(** [Diagnostics.UnderPath]: the path of every diagnostic is replaced by
    [base] followed by that path. *)
Definition under (base : cty.Path) (diag : Diagnostic) : Diagnostic :=
  mkDiagnostic (Severity diag) (Summary diag) (Detail diag) (base ++ Path diag).
Definition UnderPath (diags : Diagnostics) (base : cty.Path) : Diagnostics :=
  under base <$> diags.

(** An argument of [Diagnostics.Append], by its dynamic type: a
    collection of diagnostics, one diagnostic, an error (given by the text
    [FormatError] renders it as), or a value of another type. *)
Inductive AppendArg : Type :=
| ArgDiagnostics (val : Diagnostics)
| ArgDiagnostic (val : Diagnostic)
| ArgError (formatted : string)
| ArgOther.

(** [Diagnostics.Append]: an error becomes a generic error diagnostic; a
    value of another type is a panic. *)
Definition Append_step (acc : option Diagnostics) (rawVal : AppendArg)
  : option Diagnostics :=
  diags ← acc;
  match rawVal with
  | ArgDiagnostics val => Some (diags ++ val)
  | ArgDiagnostic val => Some (diags ++ [val])
  | ArgError formatted =>
      Some (diags ++ [mkDiagnostic Error "Error from provider"
                        ("Provider error: " +:+ formatted) []])
  | ArgOther => None
  end.
Definition Append (diags : Diagnostics) (vals : list AppendArg) : option Diagnostics :=
  foldl Append_step (Some diags) vals.

End sdkdiags.

(** ** dynfunc: dynamically bound callbacks

    The provider's callbacks are Go values of type [interface{}] that are
    inspected and called through reflection.  Such a value is represented
    by what the wrappers can observe of it: it is nil, or it is rejected
    with an error text (not a function, wrong arity, wrong result types),
    or it is a function, given by the result of calling it on the cty
    arguments (decoding of the arguments through gocty included). *)
Module dynfunc.
Import cty sdkdiags.

Inductive DynFn (R : Type) : Type :=
| FnNil
| FnInvalid (err : string)
| FnCall (call : list Value → R).
Arguments FnNil {R}.
Arguments FnInvalid {R} err.
Arguments FnCall {R} call.

(** [WrapSimpleFunction]: a nil function is a no-op. *)
Definition WrapSimpleFunction (f : DynFn Diagnostics) (args : list Value)
  : Diagnostics + string :=
  match f with
  | FnNil => inl []
  | FnInvalid err => inr err
  | FnCall call => inl (call args)
  end.

(** [WrapFunctionWithReturnValueCty]: a nil function returns a null of the
    wanted type. *)
Definition WrapFunctionWithReturnValueCty (f : DynFn (Value * Diagnostics))
    (wantTy : Ty) (args : list Value) : (Value * Diagnostics) + string :=
  match f with
  | FnNil => inl (NullVal wantTy, [])
  | FnInvalid err => inr err
  | FnCall call => inl (call args)
  end.

(** Two callbacks cannot be told apart by calls whose arguments satisfy
    [P]. *)
Definition agree_on {R} (P : list Value → Prop) (f g : DynFn R) : Prop :=
  match f, g with
  | FnNil, FnNil => True
  | FnInvalid err1, FnInvalid err2 => err1 = err2
  | FnCall call1, FnCall call2 => ∀ args, P args → call1 args = call2 args
  | _, _ => False
  end.

End dynfunc.

(** ** tfschema: the schema model

    [BlockType], [Attribute] and [NestedBlockType] of package [tfschema];
    the [SchemaBlockType], [SchemaAttribute] and [SchemaNestedBlockType] of
    package [tfsdk] are the same declarations under their former names. *)
Module tfschema.
Import cty sdkdiags dynfunc.

Inductive NestingMode : Type :=
| nestingInvalid
| NestingSingle
| NestingList
| NestingMap
| NestingSet.

#[global] Instance NestingMode_eq_dec : EqDecision NestingMode.
Proof. solve_decision. Defined.

(** [Default] is a Go value of type [interface{}] that is only ever
    passed to [gocty.ToCtyValue]; it is represented by that conversion, as
    a function of the target type ([None] when the conversion fails). *)
Record Attribute : Type := mkAttribute {
  Type_ : Ty;
  Required : bool;
  Optional : bool;
  Computed : bool;
  Sensitive : bool;
  Description : string;
  ValidateFn : DynFn Diagnostics;
  Default : option (Ty → option Value)
}.

Inductive BlockType : Type :=
| mkBlockType (Attributes : gmap string Attribute)
              (NestedBlockTypes : gmap string NestedBlockType)
with NestedBlockType : Type :=
| mkNestedBlockType (Nesting : NestingMode) (Content : BlockType)
                    (MaxItems MinItems : Z).

Definition Attributes (b : BlockType) : gmap string Attribute :=
  match b with mkBlockType attrs _ => attrs end.
Definition NestedBlockTypes (b : BlockType) : gmap string NestedBlockType :=
  match b with mkBlockType _ blocks => blocks end.
Definition Nesting (nb : NestedBlockType) : NestingMode :=
  match nb with mkNestedBlockType n _ _ _ => n end.
Definition Content (nb : NestedBlockType) : BlockType :=
  match nb with mkNestedBlockType _ c _ _ => c end.

(** The nesting depth of a schema, a measure for inductions on schemas. *)
Fixpoint BlockType_size (b : BlockType) : nat :=
  match b with
  | mkBlockType _ blocks => S (map_sum (NestedBlockType_size <$> blocks))
  end
with NestedBlockType_size (nb : NestedBlockType) : nat :=
  match nb with
  | mkNestedBlockType _ content _ _ => S (BlockType_size content)
  end.

(** [Attribute.DefaultValue]: a null of the attribute's type when no
    default is declared; a panic when the default cannot be converted. *)
Definition DefaultValue (a : Attribute) : option Value :=
  match Default a with
  | None => Some (NullVal (Type_ a))
  | Some toCtyValue => toCtyValue (Type_ a)
  end.

(** [BlockType.ImpliedCtyType] and [NestedBlockType.impliedCtyType].
    A nested block type overwrites an attribute of the same name. *)
Fixpoint ImpliedCtyType (b : BlockType) : Ty :=
  match b with
  | mkBlockType attrs blocks =>
      TObject ((impliedCtyType <$> blocks) ∪ (Type_ <$> attrs))
  end
with impliedCtyType (nb : NestedBlockType) : Ty :=
  match nb with
  | mkNestedBlockType nesting content _ _ =>
      let nested := ImpliedCtyType content in
      if decide (nesting = NestingSingle) then nested
      else if HasDynamicTypes nested then DynamicPseudoType
      else match nesting with
           | NestingList => TList nested
           | NestingSet => TSet nested
           | NestingMap => TMap nested
           | _ => DynamicPseudoType
           end
  end.

(** [BlockType.Null] and [BlockType.Unknown]. *)
Definition Null (b : BlockType) : Value := NullVal (ImpliedCtyType b).
Definition Unknown (b : BlockType) : Value := UnknownVal (ImpliedCtyType b).

(** The body of the attribute loop of [BlockType.ApplyDefaults]: what
    the given value [gv] of an attribute becomes. *)
Definition attr_default (attrS : Attribute) (gv : Value) : option Value :=
  if IsNull gv then
    if Computed attrS then Some (UnknownVal (Type_ attrS))
    else DefaultValue attrS
  else Some gv.

(** The loop [vals[k.AsString()] = f(gv)] over the elements of a value. *)
Definition collect_step {A} (f : Value → option A)
    (acc : option (gmap string A)) (kv : Value * Value)
  : option (gmap string A) :=
  vals ← acc; k ← AsString kv.1; v ← f kv.2; Some (<[k:=v]> vals).
Definition collect_map {A} (f : Value → option A) (elems : list (Value * Value))
  : option (gmap string A) :=
  foldl (collect_step f) (Some ∅) elems.

(** The three ways a multi-nesting block value is rebuilt from the
    defaulted elements. *)
Definition rebuild_list (wantTy : Ty) (vals : list Value) : option Value :=
  if negb (IsListType wantTy) then Some (TupleVal vals)
  else if decide (length vals = 0) then ListValEmpty <$> ElementType wantTy
  else ListVal vals.
Definition rebuild_map (wantTy : Ty) (vals : gmap string Value) : option Value :=
  if negb (IsMapType wantTy) then Some (ObjectVal vals)
  else if decide (size vals = 0) then MapValEmpty <$> ElementType wantTy
  else MapVal vals.
Definition rebuild_set (wantTy : Ty) (vals : list Value) : option Value :=
  if decide (length vals = 0) then SetValEmpty <$> ElementType wantTy
  else SetVal vals.

(** [BlockType.ApplyDefaults] and [NestedBlockType.ApplyDefaults]. *)
Fixpoint ApplyDefaults (b : BlockType) (given : Value) {struct b} : option Value :=
  match b with
  | mkBlockType attrs blocks =>
      attr_vals ← map_range attrs
        (λ name attrS, GetAttr given name ≫= attr_default attrS);
      block_vals ← map_range (NestedBlockType_ApplyDefaults <$> blocks)
        (λ name blockS_ApplyDefaults, GetAttr given name ≫= blockS_ApplyDefaults);
      Some (ObjectVal (block_vals ∪ attr_vals))
  end
with NestedBlockType_ApplyDefaults (nb : NestedBlockType) (given : Value)
    {struct nb} : option Value :=
  match nb with
  | mkNestedBlockType nesting content _ _ =>
      let wantTy := impliedCtyType nb in
      match nesting with
      | NestingSingle =>
          if IsNull given then Some given else ApplyDefaults content given
      | NestingList =>
          _ ← LengthInt given;
          elems ← ElementIterator given;
          vals ← mapM (ApplyDefaults content) elems.*2;
          rebuild_list wantTy vals
      | NestingMap =>
          _ ← LengthInt given;
          elems ← ElementIterator given;
          vals ← collect_map (ApplyDefaults content) elems;
          rebuild_map wantTy vals
      | NestingSet =>
          _ ← LengthInt given;
          elems ← ElementIterator given;
          vals ← mapM (ApplyDefaults content) elems.*2;
          rebuild_set wantTy vals
      | nestingInvalid => None
      end
  end.

(** *** Conformance

    [ApplyDefaults] takes an object that must conform to the schema, and
    may panic if the schema is incorrectly specified.  A schema is
    correctly specified when every declared default converts to the
    attribute's type, no attribute shares its name with a nested block
    type, and the content of a set of blocks is static. *)
Definition default_ok (attrS : Attribute) : Prop :=
  match Default attrS with
  | None => True
  | Some toCtyValue =>
      ∃ d, toCtyValue (Type_ attrS) = Some d ∧
           (static (Type_ attrS) → type_of d = Type_ attrS)
  end.

Inductive schema_ok : BlockType → Prop :=
| schema_ok_intro attrs blocks :
    map_Forall (λ name attrS, default_ok attrS ∧ blocks !! name = None) attrs →
    map_Forall (λ _ nb,
      (Nesting nb = NestingSet → static (ImpliedCtyType (Content nb))) ∧
      schema_ok (Content nb)) blocks →
    schema_ok (mkBlockType attrs blocks).

(** An object conforms to a schema when it is known and not null, holds a
    value of the declared type for every attribute (any value, where the
    declared type is not static) and a conforming value for every nested
    block type: the object or null for a single block; for the other modes
    a known collection, never null, of conforming objects (a tuple or an
    object where the content is not static). *)
Inductive conforms : BlockType → Value → Prop :=
| conforms_object attrs blocks m :
    (∀ name attrS, attrs !! name = Some attrS →
       ∃ gv, m !! name = Some gv ∧
             (static (Type_ attrS) → type_of gv = Type_ attrS)) →
    (∀ name nb, blocks !! name = Some nb →
       ∃ bv, m !! name = Some bv ∧ conforms_nested nb bv) →
    conforms (mkBlockType attrs blocks) (ObjectVal m)
with conforms_nested : NestedBlockType → Value → Prop :=
| conforms_single_null content mx mn :
    conforms_nested (mkNestedBlockType NestingSingle content mx mn)
                    (NullVal (ImpliedCtyType content))
| conforms_single content mx mn v :
    conforms content v →
    conforms_nested (mkNestedBlockType NestingSingle content mx mn) v
| conforms_list content mx mn l :
    static (ImpliedCtyType content) →
    Forall (conforms content) l →
    conforms_nested (mkNestedBlockType NestingList content mx mn)
                    (RawList (ImpliedCtyType content) l)
| conforms_list_dynamic content mx mn l :
    ¬ static (ImpliedCtyType content) →
    Forall (conforms content) l →
    conforms_nested (mkNestedBlockType NestingList content mx mn) (TupleVal l)
| conforms_set content mx mn l :
    Forall (conforms content) l →
    conforms_nested (mkNestedBlockType NestingSet content mx mn)
                    (RawSet (ImpliedCtyType content) l)
| conforms_map content mx mn m :
    static (ImpliedCtyType content) →
    map_Forall (λ _, conforms content) m →
    conforms_nested (mkNestedBlockType NestingMap content mx mn)
                    (RawMap (ImpliedCtyType content) m)
| conforms_map_dynamic content mx mn m :
    ¬ static (ImpliedCtyType content) →
    map_Forall (λ _, conforms content) m →
    conforms_nested (mkNestedBlockType NestingMap content mx mn) (ObjectVal m).

(** A conforming object that has the schema's type whenever that type is
    static. *)
Definition conforms_typed (b : BlockType) (w : Value) : Prop :=
  conforms b w ∧ (static (ImpliedCtyType b) → type_of w = ImpliedCtyType b).

End tfschema.

(** ** tfsdk: validation and the apply driver *)
Module tfsdk.
Import cty sdkdiags dynfunc tfschema.

Definition nl : string := String (Ascii.ascii_of_nat 10) EmptyString.
Definition dq : string := String (Ascii.ascii_of_nat 34) EmptyString.

(** Go's [%q] for a name without characters that need escaping. *)
Definition fmt_q (s : string) : string := dq +:+ s +:+ dq.

(** Go's [%#v] for a nesting mode, an integer type. *)
Definition fmt_mode (m : NestingMode) : string :=
  match m with
  | nestingInvalid => "0"
  | NestingSingle => "1"
  | NestingList => "2"
  | NestingMap => "3"
  | NestingSet => "4"
  end.

Section Validation.

(** [convert.Convert] of go-cty: the converted value, or the text of the
    error as [FormatError] renders it. *)
Variable Convert : Value → Ty → Value + string.

(** [SchemaAttribute.Validate] ([ValidateAttrValue]). *)
Definition Attribute_Validate (a : Attribute) (val : Value) : Diagnostics :=
  let diags0 :=
    if Required a && IsNull val
    then [mkDiagnostic Error "Missing required argument"
                       "This argument is required." []]
    else [] in
  let conv := Convert val (Type_ a) in
  let diags1 :=
    match conv with
    | inr err =>
        diags0 ++ [mkDiagnostic Error "Invalid argument value"
                     ("Incorrect value type: " +:+ err +:+ ".") []]
    | inl _ => diags0
    end in
  if HasErrors diags1 then diags1
  else
    let convVal := match conv with inl v => v | inr _ => NilVal end in
    if IsNull convVal then diags1
    else if negb (IsKnown convVal) then diags1
    else match WrapSimpleFunction (ValidateFn a) [convVal] with
         | inr err =>
             diags1 ++ [mkDiagnostic Error "Invalid provider schema"
                          ("Invalid ValidateFn: " +:+ err +:+ "." +:+ nl +:+
                           "This is a bug in the provider that should be reported in its own issue tracker.")
                          []]
         | inl moreDiags => diags1 ++ moreDiags
         end.

(** The diagnostics of the elements of a multi-nesting block: each
    element's diagnostics are put under the path [elemPath] gives it. *)
Definition validate_elems (validate : Value → option Diagnostics)
    (elemPath : Value → cty.Path) (elems : list (Value * Value))
  : option Diagnostics :=
  mjoin <$> mapM (λ kv, blockDiags ← validate kv.2;
                         Some (UnderPath blockDiags (elemPath kv.1))) elems.

(** [SchemaBlockType.Validate] ([ValidateBlockObject]); [validate_block]
    is the body of its loop over the nested block types.  The diagnostics
    of the attributes and of the block types come in the order of
    [map_to_list] (Go leaves the order unspecified). *)
Fixpoint Validate (b : BlockType) (val : Value) {struct b} : option Diagnostics :=
  if negb (IsObjectType (type_of val)) then
    Some [mkDiagnostic Error "Invalid block object"
                       "An object value is required to represent this block." []]
  else
    match b with
    | mkBlockType attrs blocks =>
        attr_diags ← map_range attrs
          (λ name attrS,
             av ← GetAttr val name;
             Some (UnderPath (Attribute_Validate attrS av) (Path_GetAttr [] name)));
        block_diags ← map_range (validate_block <$> blocks)
          (λ name blockS_validate, GetAttr val name ≫= blockS_validate name);
        Some (mjoin (map_to_list attr_diags).*2
              ++ mjoin (map_to_list block_diags).*2)
    end
with validate_block (nb : NestedBlockType) (name : string) (av : Value)
    {struct nb} : option Diagnostics :=
  match nb with
  | mkNestedBlockType nesting content _ _ =>
      let path := Path_GetAttr [] name in
      match nesting with
      | NestingSingle =>
          if negb (IsNull av)
          then blockDiags ← Validate content av; Some (UnderPath blockDiags path)
          else Some []
      | NestingList | NestingMap =>
          ElementIterator av
            ≫= validate_elems (Validate content) (λ ek, Path_Index path ek)
      | NestingSet =>
          ElementIterator av
            ≫= validate_elems (Validate content) (λ _, path)
      | nestingInvalid =>
          Some [mkDiagnostic Error "Unsupported nested block mode"
                  ("Block type " +:+ fmt_q name +:+
                   " has an unsupported nested block mode " +:+
                   fmt_mode nesting +:+
                   ". This is a bug in the provider; please report it in the provider's own issue tracker.")
                  path]
      end
  end.

End Validation.

(** The schema with the item limits of every nested block type, at every
    depth, set to zero. *)
Fixpoint erase_limits (b : BlockType) : BlockType :=
  match b with
  | mkBlockType attrs blocks => mkBlockType attrs (erase_limits_nested <$> blocks)
  end
with erase_limits_nested (nb : NestedBlockType) : NestedBlockType :=
  match nb with
  | mkNestedBlockType nesting content _ _ =>
      mkNestedBlockType nesting (erase_limits content) 0 0
  end.

(** [managedResourceType].  The callbacks also receive the context and
    the client handle, which are not cty values; a callback is taken as a
    function of its cty arguments. *)
Record managedResourceType : Type := mkManagedResourceType {
  configSchema : BlockType;
  schemaVersion : Z;
  createFn : DynFn (Value * Diagnostics);
  readFn : DynFn (Value * Diagnostics);
  updateFn : DynFn (Value * Diagnostics);
  deleteFn : DynFn (Value * Diagnostics)
}.

(** Null and unknown results are given the wanted type. *)
Definition normalize_result (wantTy : Ty) (newVal : Value) : Value :=
  if IsNull newVal then NullVal wantTy
  else if negb (IsKnown newVal) then UnknownVal wantTy
  else newVal.

Definition invalid_fn_detail (fn err : string) : string :=
  "Invalid " +:+ fn +:+ ": " +:+ err +:+ "." +:+ nl +:+
  "This is a bug in the provider that should be reported in its own issue tracker.".

(** [managedResourceType.planChange]. *)
Definition planChange (rt : managedResourceType) (prior config proposed : Value)
  : option (Value * Diagnostics) :=
  planned ← ApplyDefaults (configSchema rt) proposed;
  Some (planned, []).

(** [managedResourceType.applyChange]. *)
Definition applyChange (rt : managedResourceType) (prior planned : Value)
  : option (Value * Diagnostics) :=
  let wantTy := ImpliedCtyType (configSchema rt) in
  planned ← UnknownAsNull planned;
  let '(wrapped, fnName) :=
    if IsNull prior then
      (WrapFunctionWithReturnValueCty (createFn rt) wantTy [planned], "CreateFn")
    else if IsNull planned then
      (WrapFunctionWithReturnValueCty (deleteFn rt) wantTy [prior], "DeleteFn")
    else
      (WrapFunctionWithReturnValueCty (updateFn rt) wantTy [prior; planned],
       "UpdateFn") in
  match wrapped with
  | inr err =>
      Some (Null (configSchema rt),
            [mkDiagnostic Error "Invalid provider implementation"
                          (invalid_fn_detail fnName err) []])
  | inl (newVal, moreDiags) => Some (normalize_result wantTy newVal, moreDiags)
  end.

(** *** Resource type definitions *)

(** [ResourceType]: what a provider hands to [NewManagedResourceType] and
    [NewDataResourceType].  A nil schema pointer is [None]. *)
Record ResourceType : Type := mkResourceType {
  ConfigSchema : option BlockType;
  SchemaVersion : Z;
  CreateFn : DynFn (Value * Diagnostics);
  ReadFn : DynFn (Value * Diagnostics);
  UpdateFn : DynFn (Value * Diagnostics);
  DeleteFn : DynFn (Value * Diagnostics)
}.

(** The read callback of a resource type: the provider's, or
    [defaultReadFn] of the SDK where the provider gave none. *)
Inductive readCallback : Type :=
| defaultReadFn
| providerReadFn (f : DynFn (Value * Diagnostics)).

Definition readFn_of (def : ResourceType) : readCallback :=
  match ReadFn def with
  | FnNil => defaultReadFn
  | f => providerReadFn f
  end.

(** The schema without attributes and nested block types. *)
Definition empty_schema : BlockType := mkBlockType ∅ ∅.

(** [NewManagedResourceType]: panics on a nil definition.  The result is
    the resource type together with its read callback; the schema version
    of the definition is not copied. *)
Definition NewManagedResourceType (def : option ResourceType)
  : option (managedResourceType * readCallback) :=
  def ← def;
  let schema := default empty_schema (ConfigSchema def) in
  Some (mkManagedResourceType schema 0 (CreateFn def) (ReadFn def)
          (UpdateFn def) (DeleteFn def),
        readFn_of def).

(** [managedResourceType.getSchema]. *)
Definition getSchema (rt : managedResourceType) : BlockType * Z :=
  (configSchema rt, schemaVersion rt).

Record dataResourceType : Type := mkDataResourceType {
  data_configSchema : BlockType;
  data_readFn : readCallback
}.

(** [NewDataResourceType]: panics on a nil definition and on a schema
    version other than zero. *)
Definition NewDataResourceType (def : option ResourceType) : option dataResourceType :=
  def ← def;
  let schema := default empty_schema (ConfigSchema def) in
  if decide (SchemaVersion def ≠ 0%Z) then None
  else Some (mkDataResourceType schema (readFn_of def)).

(** Binding the read callback to its argument and calling it:
    [defaultReadFn] returns [cty.UnknownAsNull] of the argument and no
    diagnostics. *)
Definition call_readFn (readFn : readCallback) (wantTy : Ty) (arg : Value)
  : option ((Value * Diagnostics) + string) :=
  match readFn with
  | defaultReadFn => v ← UnknownAsNull arg; Some (inl (v, []))
  | providerReadFn f => Some (WrapFunctionWithReturnValueCty f wantTy [arg])
  end.

(** The body that [managedResourceType.refresh] and
    [dataResourceType.read] share. *)
Definition read_with (schema : BlockType) (readFn : readCallback) (arg : Value)
  : option (Value * Diagnostics) :=
  let wantTy := ImpliedCtyType schema in
  wrapped ← call_readFn readFn wantTy arg;
  match wrapped with
  | inr err =>
      Some (Null schema,
            [mkDiagnostic Error "Invalid provider implementation"
                          (invalid_fn_detail "ReadFn" err) []])
  | inl (newVal, moreDiags) => Some (normalize_result wantTy newVal, moreDiags)
  end.

(** [managedResourceType.refresh]. *)
Definition refresh (rt : managedResourceType) (readFn : readCallback) (current : Value)
  : option (Value * Diagnostics) :=
  read_with (configSchema rt) readFn current.

(** [dataResourceType.read]. *)
Definition read (rt : dataResourceType) (config : Value) : option (Value * Diagnostics) :=
  read_with (data_configSchema rt) (data_readFn rt) config.

End tfsdk.

(** ** tfobj: object reader, object builder and plan builder *)
Module tfobj.
Import cty tfschema.

(** *** Object reader *)

Record objectReaderVal : Type := mkObjectReaderVal {
  reader_schema : BlockType;
  reader_v : Value
}.

(** [NewObjectReader]: panics unless the object is known, non-null and of
    an object type. *)
Definition NewObjectReader (schema : BlockType) (obj : Value) : option objectReaderVal :=
  if IsNull obj || negb (IsKnown obj) then None
  else if negb (IsObjectType (type_of obj)) then None
  else Some (mkObjectReaderVal schema obj).

(** [objectReaderVal.Attr]. *)
Definition reader_Attr (r : objectReaderVal) (name : string) : option Value :=
  match Attributes (reader_schema r) !! name with
  | None => None
  | Some _ => GetAttr (reader_v r) name
  end.

(** [objectReaderVal.blockVal]. *)
Definition blockVal (r : objectReaderVal) (blockType : string)
  : option (NestedBlockType * Value) :=
  blockS ← NestedBlockTypes (reader_schema r) !! blockType;
  obj ← GetAttr (reader_v r) blockType;
  Some (blockS, obj).

(** [objectReaderVal.BlockCount]. *)
Definition reader_BlockCount (r : objectReaderVal) (blockType : string) : option nat :=
  '(blockS, obj) ← blockVal r blockType;
  match Nesting blockS with
  | NestingSingle => if IsNull obj then Some 0 else Some 1
  | _ => if IsNull obj || negb (IsKnown obj) then Some 0 else LengthInt obj
  end.

(** [objectReaderVal.BlockSingle]. *)
Definition reader_BlockSingle (r : objectReaderVal) (blockType : string)
  : option objectReaderVal :=
  '(blockS, obj) ← blockVal r blockType;
  if decide (Nesting blockS = NestingSingle)
  then Some (mkObjectReaderVal (Content blockS) obj)
  else None.

(** *** Object builder

    A builder is a mutable structure reached through pointers; it is
    represented by its current content, and a mutating method returns the
    content after the call.  A nil child pointer is [None]. *)

Inductive objectBuilder : Type :=
| mkObjectBuilder (schema : BlockType) (attrs : gmap string Value)
    (singleBlocks : gmap string (option objectBuilder))
    (listBlocks : gmap string (list objectBuilder))
    (mapBlocks : gmap string (gmap string objectBuilder)).

Definition builder_schema (b : objectBuilder) : BlockType :=
  match b with mkObjectBuilder s _ _ _ _ => s end.
Definition attrs (b : objectBuilder) : gmap string Value :=
  match b with mkObjectBuilder _ a _ _ _ => a end.
Definition singleBlocks (b : objectBuilder) : gmap string (option objectBuilder) :=
  match b with mkObjectBuilder _ _ s _ _ => s end.
Definition listBlocks (b : objectBuilder) : gmap string (list objectBuilder) :=
  match b with mkObjectBuilder _ _ _ l _ => l end.
Definition mapBlocks (b : objectBuilder) : gmap string (gmap string objectBuilder) :=
  match b with mkObjectBuilder _ _ _ _ m => m end.

Definition is_NilVal (val : Value) : bool :=
  match val with NilVal => true | _ => false end.

(** What the loop of [newObjectBuilder] over the nested block types
    stores for one block type: an entry of [singleBlocks], of [listBlocks]
    or of [mapBlocks], or nothing. *)
Inductive blockEntry (B : Type) : Type :=
| EntrySingle (nb : option B)
| EntryList (nbs : list B)
| EntryMap (nbs : gmap string B)
| EntryNone.
Arguments EntrySingle {B} nb.
Arguments EntryList {B} nbs.
Arguments EntryMap {B} nbs.
Arguments EntryNone {B}.

Definition entry_single {B} (e : blockEntry B) : option (option B) :=
  match e with EntrySingle nb => Some nb | _ => None end.
Definition entry_list {B} (e : blockEntry B) : option (list B) :=
  match e with EntryList nbs => Some nbs | _ => None end.
Definition entry_map {B} (e : blockEntry B) : option (gmap string B) :=
  match e with EntryMap nbs => Some nbs | _ => None end.

(** [newObjectBuilder]. *)
Fixpoint newObjectBuilder (schema : BlockType) (initial : Value) {struct schema}
  : option objectBuilder :=
  match schema with
  | mkBlockType attrsS blocksS =>
      attrs ← map_range attrsS
        (λ name attrS,
           if is_NilVal initial then Some (NullVal (Type_ attrS))
           else GetAttr initial name);
      entries ← map_range (newBlockEntry <$> blocksS)
        (λ name blockS_entry, blockS_entry initial name);
      Some (mkObjectBuilder schema attrs
              (omap entry_single entries)
              (omap entry_list entries)
              (omap entry_map entries))
  end
with newBlockEntry (blockS : NestedBlockType) (initial : Value) (name : string)
    {struct blockS} : option (blockEntry objectBuilder) :=
  match blockS with
  | mkNestedBlockType nesting content _ _ =>
      match nesting with
      | NestingSingle =>
          if is_NilVal initial then Some (EntrySingle None)
          else
            nv ← GetAttr initial name;
            if IsNull nv then Some (EntrySingle None)
            else nb ← newObjectBuilder content nv; Some (EntrySingle (Some nb))
      | NestingList | NestingSet =>
          if is_NilVal initial then Some (EntryList [])
          else
            nv ← GetAttr initial name;
            if IsKnown nv && negb (IsNull nv) then
              _ ← LengthInt nv;
              elems ← ElementIterator nv;
              EntryList <$> mapM (newObjectBuilder content) elems.*2
            else Some EntryNone
      | NestingMap =>
          if is_NilVal initial then Some (EntryMap ∅)
          else
            nv ← GetAttr initial name;
            if IsKnown nv && negb (IsNull nv) then
              _ ← LengthInt nv;
              elems ← ElementIterator nv;
              EntryMap <$> collect_map (newObjectBuilder content) elems
            else Some EntryNone
      | nestingInvalid => None
      end
  end.

(** [NewObjectBuilder]. *)
Definition NewObjectBuilder (schema : BlockType) (initial : Value) : option objectBuilder :=
  newObjectBuilder schema initial.

(** The value [objectBuilder.ObjectVal] stores for one entry of
    [listBlocks], given the number of child builders and their frozen
    values: a panic ([None]), nothing ([Some None]) or a value. *)
Definition list_block_val (schema : BlockType) (name : string)
    (subs : nat * option (list Value)) : option (option Value) :=
  blockS ← NestedBlockTypes schema !! name;
  let wantEty := ImpliedCtyType (Content blockS) in
  if decide (subs.1 = 0) then
    match Nesting blockS with
    | NestingList =>
        Some (Some (if HasDynamicTypes wantEty then EmptyTupleVal
                    else ListValEmpty wantEty))
    | NestingSet => Some (Some (SetValEmpty wantEty))
    | _ => Some None
    end
  else
    subVals ← subs.2;
    match Nesting blockS with
    | NestingList =>
        if HasDynamicTypes wantEty then Some (Some (TupleVal subVals))
        else Some <$> ListVal subVals
    | NestingSet => Some <$> SetVal subVals
    | _ => Some None
    end.

(** The same for one entry of [mapBlocks]. *)
Definition map_block_val (schema : BlockType) (name : string)
    (subs : nat * option (gmap string Value)) : option Value :=
  blockS ← NestedBlockTypes schema !! name;
  let wantEty := ImpliedCtyType (Content blockS) in
  if decide (subs.1 = 0) then
    Some (if HasDynamicTypes wantEty then EmptyObjectVal else MapValEmpty wantEty)
  else
    subVals ← subs.2;
    if HasDynamicTypes wantEty then Some (ObjectVal subVals) else MapVal subVals.

(** [objectBuilder.ObjectVal].  The four loops write into one map, so a
    later loop overwrites an earlier one; calling it on a nil child
    builder is a nil dereference. *)
Fixpoint ObjectVal_ (b : objectBuilder) : option Value :=
  match b with
  | mkObjectBuilder schema attrs singles lists maps =>
      single_vals ← map_sequence
        ((λ nb : option objectBuilder,
            match nb with None => None | Some nb' => ObjectVal_ nb' end)
           <$> singles);
      list_vals ← map_range
        ((λ nbs, (length nbs, mapM ObjectVal_ nbs)) <$> lists)
        (list_block_val schema);
      map_vals ← map_range
        ((λ nbs : gmap string objectBuilder,
            (size nbs, map_sequence (ObjectVal_ <$> nbs))) <$> maps)
        (map_block_val schema);
      Some (ObjectVal (map_vals ∪ omap id list_vals ∪ single_vals ∪ attrs))
  end.

(** [objectBuilder.Attr]: a missing map entry reads as the zero value. *)
Definition builder_Attr (b : objectBuilder) (name : string) : option Value :=
  match Attributes (builder_schema b) !! name with
  | None => None
  | Some _ => Some (default NilVal (attrs b !! name))
  end.

(** [objectBuilder.BlockCount]. *)
Definition builder_BlockCount (b : objectBuilder) (typeName : string) : option nat :=
  blockS ← NestedBlockTypes (builder_schema b) !! typeName;
  match Nesting blockS with
  | NestingSingle =>
      match singleBlocks b !! typeName with
      | Some (Some _) => Some 1
      | _ => Some 0
      end
  | NestingList | NestingSet => Some (length (default [] (listBlocks b !! typeName)))
  | NestingMap => Some (size (default ∅ (mapBlocks b !! typeName)))
  | nestingInvalid => None
  end.

(** [objectBuilder.BlockBuilderSingle]: the child builder, or nil. *)
Definition BlockBuilderSingle (b : objectBuilder) (typeName : string)
  : option (option objectBuilder) :=
  blockS ← NestedBlockTypes (builder_schema b) !! typeName;
  if decide (Nesting blockS = NestingSingle)
  then Some (default None (singleBlocks b !! typeName))
  else None.

(** [objectBuilderFull.NewBlockBuilder]. *)
Definition NewBlockBuilder (b : objectBuilder) (typeName : string) : option objectBuilder :=
  blockS ← NestedBlockTypes (builder_schema b) !! typeName;
  newObjectBuilder (Content blockS) NilVal.

(** [objectBuilderFull.ReplaceBlockSingle]. *)
Definition ReplaceBlockSingle (b : objectBuilder) (typeName : string)
    (nb : option objectBuilder) : option objectBuilder :=
  blockS ← NestedBlockTypes (builder_schema b) !! typeName;
  if decide (Nesting blockS = NestingSingle) then
    Some (mkObjectBuilder (builder_schema b) (attrs b)
            (<[typeName := nb]> (singleBlocks b)) (listBlocks b) (mapBlocks b))
  else None.

(** [objectBuilderFull.ReplaceBlocksList]. *)
Definition ReplaceBlocksList (b : objectBuilder) (typeName : string)
    (nbs : list objectBuilder) : option objectBuilder :=
  blockS ← NestedBlockTypes (builder_schema b) !! typeName;
  if decide (Nesting blockS = NestingList ∨ Nesting blockS = NestingSet) then
    Some (mkObjectBuilder (builder_schema b) (attrs b) (singleBlocks b)
            (<[typeName := nbs]> (listBlocks b)) (mapBlocks b))
  else None.

(** [objectBuilderFull.ReplaceBlocksMap]: with an empty collection the
    source assigns to [listBlocks]. *)
Definition ReplaceBlocksMap (b : objectBuilder) (typeName : string)
    (nbs : gmap string objectBuilder) : option objectBuilder :=
  blockS ← NestedBlockTypes (builder_schema b) !! typeName;
  if decide (Nesting blockS = NestingMap) then
    if decide (size nbs = 0) then
      Some (mkObjectBuilder (builder_schema b) (attrs b) (singleBlocks b)
              (<[typeName := []]> (listBlocks b)) (mapBlocks b))
    else
      Some (mkObjectBuilder (builder_schema b) (attrs b) (singleBlocks b)
              (listBlocks b) (<[typeName := nbs]> (mapBlocks b)))
  else None.

(** *** Plan builder *)

Inductive Action : Type :=
| actionInvalid
| Read
| Create
| Update
| Delete.

#[global] Instance Action_eq_dec : EqDecision Action.
Proof. solve_decision. Defined.

(** [planBuilder].  The readers and the builder are interface values
    that may be nil; [subBuilder] leaves the schema pointer nil. *)
Record planBuilder : Type := mkPlanBuilder {
  action : Action;
  plan_schema : option BlockType;
  prior : option objectReaderVal;
  config : option objectReaderVal;
  planned : option objectBuilder
}.

(** [newPlanBuilder]. *)
Definition newPlanBuilder (schema : BlockType) (prior config proposed : Value)
  : option planBuilder :=
  priorReader ←
    (if negb (is_NilVal prior) && negb (IsNull prior)
     then Some <$> NewObjectReader schema prior else Some None);
  configReader ←
    (if negb (is_NilVal config) && negb (IsNull config)
     then Some <$> NewObjectReader schema config else Some None);
  plannedBuilder ←
    (if negb (is_NilVal proposed) && negb (IsNull proposed)
     then Some <$> NewObjectBuilder schema proposed else Some None);
  let action :=
    if IsNull proposed then Delete
    else if IsNull prior then Create
    else Update in
  Some (mkPlanBuilder action (Some schema) priorReader configReader plannedBuilder).

(** [NewPlanReader] and [NewPlanBuilder]. *)
Definition NewPlanReader (schema : BlockType) (prior planned : Value) : option planBuilder :=
  newPlanBuilder schema prior NilVal planned.
Definition NewPlanBuilder (schema : BlockType) (prior config planned : Value)
  : option planBuilder :=
  newPlanBuilder schema prior config planned.

(** [planBuilder.subBuilder]. *)
Definition subBuilder (schema : NestedBlockType)
    (prior config : option objectReaderVal) (planned : option objectBuilder)
  : planBuilder :=
  let action :=
    match planned, prior with
    | None, _ => Delete
    | _, None => Create
    | _, _ => Update
    end in
  mkPlanBuilder action None prior config planned.

(** [planBuilder.requireWritable]. *)
Definition requireWritable (b : planBuilder) : option objectBuilder := planned b.

(** [planBuilder.Attr]. *)
Definition plan_Attr (b : planBuilder) (name : string) : option Value :=
  pb ← requireWritable b; builder_Attr pb name.

(** [planBuilder.ConfigReader]. *)
Definition ConfigReader (b : planBuilder) : option objectReaderVal := config b.

(** [planBuilder.AttrChange]. *)
Definition AttrChange (b : planBuilder) (name : string) : option (Value * Value) :=
  schema ← plan_schema b;
  attrS ← Attributes schema !! name;
  priorV ← match prior b with
           | Some r => reader_Attr r name
           | None => Some (NullVal (Type_ attrS))
           end;
  plannedV ← match planned b with
             | Some _ => plan_Attr b name
             | None => Some (NullVal (Type_ attrS))
             end;
  Some (priorV, plannedV).

(** [planBuilder.AttrHasChange]. *)
Definition AttrHasChange (b : planBuilder) (name : string) : option bool :=
  '(priorV, plannedV) ← AttrChange b name;
  let eqV := Equals plannedV priorV in
  if negb (IsKnown eqV) then Some true
  else True_ eqV.

(** [planBuilder.CanProvideAttrDefault]. *)
Definition CanProvideAttrDefault (b : planBuilder) (name : string) : option bool :=
  schema ← plan_schema b;
  attrS ← Attributes schema !! name;
  match planned b with
  | None => Some false
  | Some _ =>
      if negb (Computed attrS) then Some false
      else v ← plan_Attr b name; Some (IsNull v)
  end.

(** [planBuilder.BlockPlanBuilderSingle]. *)
Definition BlockPlanBuilderSingle (b : planBuilder) (typeName : string)
  : option planBuilder :=
  schema ← plan_schema b;
  blockS ← NestedBlockTypes schema !! typeName;
  if decide (Nesting blockS = NestingSingle) then
    priorReader ← match prior b with
                  | Some r => Some <$> reader_BlockSingle r typeName
                  | None => Some None
                  end;
    configReader ← match config b with
                   | Some r => Some <$> reader_BlockSingle r typeName
                   | None => Some None
                   end;
    plannedBuilder ← match planned b with
                     | Some pb => BlockBuilderSingle pb typeName
                     | None => Some None
                     end;
    Some (subBuilder blockS priorReader configReader plannedBuilder)
  else None.

(** *** The other methods of the reader

    A nil slice or map is the empty one: callers only take its length and
    range over it. *)

(** [objectReaderVal.BlockList]. *)
Definition reader_BlockList (r : objectReaderVal) (blockType : string)
  : option (list objectReaderVal) :=
  '(blockS, lst) ← blockVal r blockType;
  if decide (Nesting blockS = NestingList ∨ Nesting blockS = NestingSet) then
    if IsNull lst || negb (IsKnown lst) then Some []
    else
      _ ← LengthInt lst;
      elems ← ElementIterator lst;
      Some (mkObjectReaderVal (Content blockS) <$> elems.*2)
  else None.

(** [objectReaderVal.BlockMap]. *)
Definition reader_BlockMap (r : objectReaderVal) (blockType : string)
  : option (gmap string objectReaderVal) :=
  '(blockS, m) ← blockVal r blockType;
  if decide (Nesting blockS = NestingMap) then
    if IsNull m || negb (IsKnown m) then Some ∅
    else
      _ ← LengthInt m;
      elems ← ElementIterator m;
      collect_map (λ v, Some (mkObjectReaderVal (Content blockS) v)) elems
  else None.

(** [objectReaderVal.BlockFromList]; [idx] is a Go [int]. *)
Definition reader_BlockFromList (r : objectReaderVal) (blockType : string) (idx : Z)
  : option objectReaderVal :=
  '(blockS, lst) ← blockVal r blockType;
  if decide (Nesting blockS = NestingList) then
    v ← Index lst (NumberIntVal idx);
    Some (mkObjectReaderVal (Content blockS) v)
  else None.

(** [objectReaderVal.BlockFromMap]. *)
Definition reader_BlockFromMap (r : objectReaderVal) (blockType key : string)
  : option objectReaderVal :=
  '(blockS, lst) ← blockVal r blockType;
  if decide (Nesting blockS = NestingMap) then
    v ← Index lst (StringVal key);
    Some (mkObjectReaderVal (Content blockS) v)
  else None.

(** *** The other methods of the builder

    [BlockSingle], [BlockList], [BlockFromList], [BlockMap] and
    [BlockFromMap] of the builder return what the [BlockBuilder...] method
    of the same name returns, as a reader. *)

(** [DeriveNewObject] and [NewObjectBuilderFull]. *)
Definition DeriveNewObject (r : objectReaderVal) : option objectBuilder :=
  newObjectBuilder (reader_schema r) (reader_v r).
Definition NewObjectBuilderFull (schema : BlockType) (initial : Value)
  : option objectBuilder :=
  newObjectBuilder schema initial.

(** [objectBuilder.BlockBuilderList]. *)
Definition BlockBuilderList (b : objectBuilder) (typeName : string)
  : option (list objectBuilder) :=
  blockS ← NestedBlockTypes (builder_schema b) !! typeName;
  if decide (Nesting blockS = NestingList ∨ Nesting blockS = NestingSet)
  then Some (default [] (listBlocks b !! typeName))
  else None.

(** [objectBuilder.BlockBuilderFromList]: indexing the slice panics out
    of its bounds. *)
Definition BlockBuilderFromList (b : objectBuilder) (typeName : string) (idx : Z)
  : option (option objectBuilder) :=
  blockS ← NestedBlockTypes (builder_schema b) !! typeName;
  if decide (Nesting blockS = NestingList) then
    if decide (idx < 0)%Z then None
    else Some <$> default [] (listBlocks b !! typeName) !! Z.to_nat idx
  else None.

(** [objectBuilder.BlockBuilderMap]. *)
Definition BlockBuilderMap (b : objectBuilder) (typeName : string)
  : option (gmap string objectBuilder) :=
  blockS ← NestedBlockTypes (builder_schema b) !! typeName;
  if decide (Nesting blockS = NestingMap)
  then Some (default ∅ (mapBlocks b !! typeName))
  else None.

(** [objectBuilder.BlockBuilderFromMap]: a missing key reads as nil. *)
Definition BlockBuilderFromMap (b : objectBuilder) (typeName key : string)
  : option (option objectBuilder) :=
  blockS ← NestedBlockTypes (builder_schema b) !! typeName;
  if decide (Nesting blockS = NestingMap)
  then Some (default ∅ (mapBlocks b !! typeName) !! key)
  else None.

(** *** The other methods of the plan builder

    A method that mutates the planned object returns the plan builder
    after the call. *)

(** [planBuilder.PriorReader]: nil ([None]) when there is no prior
    object. *)
Definition PriorReader (b : planBuilder) : option objectReaderVal := prior b.

(** [planBuilder.ObjectVal] and [planBuilder.BlockCount] call the method
    of the planned builder, a nil interface value in a plan to delete. *)
Definition plan_ObjectVal (b : planBuilder) : option Value :=
  pb ← planned b; ObjectVal_ pb.
Definition plan_BlockCount (b : planBuilder) (typeName : string) : option nat :=
  pb ← planned b; builder_BlockCount pb typeName.

Section Conversion.

(** [convert.Convert] of go-cty: the converted value, or an error. *)
Variable Convert : Value → Ty → Value + string.

(** [objectBuilder.SetAttr]. *)
Definition SetAttr (b : objectBuilder) (name : string) (val : Value)
  : option objectBuilder :=
  attrS ← Attributes (builder_schema b) !! name;
  match Convert val (Type_ attrS) with
  | inr _ => None
  | inl val' =>
      Some (mkObjectBuilder (builder_schema b) (<[name := val']> (attrs b))
              (singleBlocks b) (listBlocks b) (mapBlocks b))
  end.

(** [planBuilder.SetAttr]. *)
Definition plan_SetAttr (b : planBuilder) (name : string) (val : Value)
  : option planBuilder :=
  pb ← requireWritable b;
  pb' ← SetAttr pb name val;
  Some (mkPlanBuilder (action b) (plan_schema b) (prior b) (config b) (Some pb')).

(** [planBuilder.SetAttrUnknown] and [planBuilder.SetAttrNull]. *)
Definition SetAttrUnknown (b : planBuilder) (name : string) : option planBuilder :=
  schema ← plan_schema b;
  attrS ← Attributes schema !! name;
  plan_SetAttr b name (UnknownVal (Type_ attrS)).
Definition SetAttrNull (b : planBuilder) (name : string) : option planBuilder :=
  schema ← plan_schema b;
  attrS ← Attributes schema !! name;
  plan_SetAttr b name (NullVal (Type_ attrS)).

End Conversion.

(** [planBuilder.BlockPlanBuilderFromList]. *)
Definition BlockPlanBuilderFromList (b : planBuilder) (typeName : string) (idx : Z)
  : option planBuilder :=
  schema ← plan_schema b;
  blockS ← NestedBlockTypes schema !! typeName;
  if decide (Nesting blockS = NestingList) then
    priorReader ← match prior b with
                  | Some r =>
                      count ← reader_BlockCount r typeName;
                      if decide (Z.of_nat count > idx)%Z
                      then Some <$> reader_BlockFromList r typeName idx
                      else Some None
                  | None => Some None
                  end;
    configReader ← match config b with
                   | Some r =>
                       count ← reader_BlockCount r typeName;
                       if decide (Z.of_nat count > idx)%Z
                       then Some <$> reader_BlockFromList r typeName idx
                       else Some None
                   | None => Some None
                   end;
    plannedBuilder ← match planned b with
                     | Some pb =>
                         count ← builder_BlockCount pb typeName;
                         if decide (Z.of_nat count > idx)%Z
                         then BlockBuilderFromList pb typeName idx
                         else Some None
                     | None => Some None
                     end;
    Some (subBuilder blockS priorReader configReader plannedBuilder)
  else None.

(** [planBuilder.BlockPlanBuilderList]: one plan builder for every
    position below the largest of the three block counts. *)
Definition BlockPlanBuilderList (b : planBuilder) (typeName : string)
  : option (list planBuilder) :=
  count ← match planned b with
          | Some pb => builder_BlockCount pb typeName
          | None => Some 0
          end;
  count ← match prior b with
          | Some r => priorCount ← reader_BlockCount r typeName;
                      Some (if decide (count < priorCount) then priorCount else count)
          | None => Some count
          end;
  count ← match config b with
          | Some r => configCount ← reader_BlockCount r typeName;
                      Some (if decide (count < configCount) then configCount else count)
          | None => Some count
          end;
  if decide (count = 0) then Some []
  else mapM (λ i, BlockPlanBuilderFromList b typeName (Z.of_nat i)) (seq 0 count).

(** [planBuilder.BlockPlanBuilderMap]: one plan builder for every key of
    the prior, the configured or the planned blocks. *)
Definition BlockPlanBuilderMap (b : planBuilder) (typeName : string)
  : option (gmap string planBuilder) :=
  schema ← plan_schema b;
  blockS ← NestedBlockTypes schema !! typeName;
  if decide (Nesting blockS = NestingMap) then
    priorReaders ← match prior b with
                   | Some r => reader_BlockMap r typeName
                   | None => Some ∅
                   end;
    configReaders ← match config b with
                    | Some r => reader_BlockMap r typeName
                    | None => Some ∅
                    end;
    plannedBuilders ← match planned b with
                      | Some pb => BlockBuilderMap pb typeName
                      | None => Some ∅
                      end;
    let names : gset string :=
      dom priorReaders ∪ dom configReaders ∪ dom plannedBuilders in
    Some (map_imap
            (λ k _, Some (subBuilder blockS (priorReaders !! k)
                            (configReaders !! k) (plannedBuilders !! k)))
            (gset_to_gmap () names))
  else None.

(** [planBuilder.BlockPlanBuilderFromMap]. *)
Definition BlockPlanBuilderFromMap (b : planBuilder) (typeName key : string)
  : option planBuilder :=
  schema ← plan_schema b;
  blockS ← NestedBlockTypes schema !! typeName;
  if decide (Nesting blockS = NestingMap) then
    priorReader ← match prior b with
                  | Some r => Some <$> reader_BlockFromMap r typeName key
                  | None => Some None
                  end;
    configReader ← match config b with
                   | Some r => Some <$> reader_BlockFromMap r typeName key
                   | None => Some None
                   end;
    plannedBuilder ← match planned b with
                     | Some pb => BlockBuilderFromMap pb typeName key
                     | None => Some None
                     end;
    Some (subBuilder blockS priorReader configReader plannedBuilder)
  else None.

(** *** Objects a builder can reproduce

    [whole schema obj]: [obj] is a known object with exactly the attributes
    the schema implies, every attribute of a static type having that type,
    every single block present, and every list, set or map of blocks being
    what [ListVal], [SetVal], [MapVal] (or, for content of a dynamic type,
    [TupleVal] and [ObjectVal]) build from its elements. *)
Inductive whole : BlockType → Value → Prop :=
| whole_object attrsS blocksS m :
    dom m = dom attrsS ∪ dom blocksS →
    (∀ name attrS, attrsS !! name = Some attrS →
       ∃ gv, m !! name = Some gv ∧
             (static (Type_ attrS) → type_of gv = Type_ attrS)) →
    (∀ name nb, blocksS !! name = Some nb →
       ∃ bv, m !! name = Some bv ∧ whole_nested nb bv) →
    whole (mkBlockType attrsS blocksS) (ObjectVal m)
with whole_nested : NestedBlockType → Value → Prop :=
| whole_single content mx mn v :
    whole content v →
    whole_nested (mkNestedBlockType NestingSingle content mx mn) v
| whole_list content mx mn l :
    static (ImpliedCtyType content) →
    Forall (whole content) l →
    whole_nested (mkNestedBlockType NestingList content mx mn)
                 (RawList (ImpliedCtyType content) l)
| whole_list_dynamic content mx mn l :
    ¬ static (ImpliedCtyType content) →
    Forall (whole content) l →
    whole_nested (mkNestedBlockType NestingList content mx mn) (TupleVal l)
| whole_set content mx mn l :
    static (ImpliedCtyType content) →
    Forall (whole content) l →
    set_ok l →
    whole_nested (mkNestedBlockType NestingSet content mx mn)
                 (RawSet (ImpliedCtyType content) l)
| whole_map content mx mn m :
    static (ImpliedCtyType content) →
    map_Forall (λ _, whole content) m →
    whole_nested (mkNestedBlockType NestingMap content mx mn)
                 (RawMap (ImpliedCtyType content) m)
| whole_map_dynamic content mx mn m :
    ¬ static (ImpliedCtyType content) →
    map_Forall (λ _, whole content) m →
    whole_nested (mkNestedBlockType NestingMap content mx mn) (ObjectVal m).

End tfobj.

(** ** tap: reports of a Test Anything Protocol run

    Go's [int] is taken as an integer between [min_int] and [max_int];
    where a loop counts past [max_int] and so never ends, the function
    has no result. *)
Module tap.

Definition max_int : Z := 9223372036854775807.

Inductive Result : Type :=
| resultInvalid
| Pass
| Fail
| Skip.

#[global] Instance Result_eq_dec : EqDecision Result.
Proof. solve_decision. Defined.

Record Report : Type := mkReport {
  Num : Z;
  Result_ : Result;
  Name : string;
  Todo : bool;
  SkipReason : string;
  TodoReason : string;
  Diagnostics : list string
}.

Record Plan : Type := mkPlan {
  Min : Z;
  Max : Z
}.

(** [RunReport]: a nil plan is [None], and so is a nil entry of
    [Tests]. *)
Record RunReport : Type := mkRunReport {
  RunReport_Plan : option Plan;
  Tests : list (option Report)
}.

Record Inconsistent : Type := mkInconsistent {
  Missing : list Z;
  Extra : list Z
}.

(** [Plan.Valid]. *)
Definition Valid (p : option Plan) : bool :=
  match p with
  | None => false
  | Some p => bool_decide (Min p > 0)%Z && bool_decide (Max p >= Min p)%Z
  end.

(** [sort.Ints]. *)
Definition sort_Ints (l : list Z) : list Z := merge_sort Z.le l.

(** [Plan.check]: the reports are visited in the order of [map_to_list]
    (Go leaves the order unspecified) and the numbers are sorted
    afterwards. *)
Definition check (p : Plan) (results : gmap Z Report) : option (option Inconsistent) :=
  let extra :=
    omap (λ kv : Z * Report,
            if decide (Num kv.2 < Min p ∨ Num kv.2 > Max p)%Z
            then Some (Num kv.2) else None)
         (map_to_list results) in
  missing ←
    (if decide (Max p >= Min p)%Z then
       if decide (Max p = max_int) then None
       else Some (filter (λ num, results !! num = None)
                         (seqZ (Min p) (Max p - Min p + 1)))
     else Some []);
  let ret := mkInconsistent (sort_Ints missing) (sort_Ints extra) in
  if decide (0 < length (Missing ret) ∨ 0 < length (Extra ret))
  then Some (Some ret) else Some None.

(** The errors a reader reports. *)
Inductive error : Type :=
| BailOut (reason : string)
| NoTests
| ScanError (text : string)
| InconsistentError (inconsistent : Inconsistent).

(** The state of a [Reader] after reading: the plan line seen last, the
    reports by number, the reader's own error and the scanner's. *)
Record Reader : Type := mkReader {
  plan : option Plan;
  results : gmap Z Report;
  err : option error;
  sc_Err : option string
}.

Section Report.

(** The largest length [make] allocates for a slice of pointers. *)
Variable max_len : Z.

(** [Reader.Report]: without a plan line the plan is taken to run from 1
    to the largest number reported.  [make] panics on a length above
    [max_len]. *)
Definition Reader_Report (r : Reader) : option RunReport :=
  let plan' :=
    match plan r with
    | Some p => p
    | None =>
        mkPlan 1 (map_fold (λ num _ mx, if decide (num > mx)%Z then num else mx)
                           0%Z (results r))
    end in
  if Valid (Some plan') then
    let count := (Max plan' - Min plan' + 1)%Z in
    if decide (count > max_len)%Z then None
    else if decide (Max plan' = max_int) then None
    else Some (mkRunReport (plan r)
                 ((λ num, results r !! num) <$> seqZ (Min plan') count))
  else Some (mkRunReport (plan r) []).

(** [Reader.Err]. *)
Definition Reader_Err (r : Reader) : option (option error) :=
  match err r with
  | Some e => Some (Some e)
  | None =>
      match sc_Err r with
      | Some text => Some (Some (ScanError text))
      | None =>
          match plan r with
          | Some p =>
              match check p (results r) with
              | Some (Some inconsistent) =>
                  Some (Some (InconsistentError inconsistent))
              | Some None => Some None
              | None => None
              end
          | None => Some None
          end
      end
  end.

(** What [Reader.ReadAll] returns once reading has stopped. *)
Definition ReadAll_result (r : Reader) : option (RunReport * option error) :=
  report ← Reader_Report r; e ← Reader_Err r; Some (report, e).

End Report.

(** Go's [%d], and addition on [int]. *)
Definition fmt_d (n : Z) : string := NilZero.string_of_int (Z.to_int n).
Definition wrap (z : Z) : Z := ((z + 2 ^ 63) `mod` 2 ^ 64 - 2 ^ 63)%Z.

(** [rangeStr] and [ranges]; the state of the loop of [ranges] is the
    buffer with [start], [end] and [seen]. *)
Definition rangeStr (start end_ : Z) : string :=
  if decide (start = end_) then fmt_d start
  else fmt_d start +:+ "-" +:+ fmt_d end_.

Definition ranges_step (st : string * Z * Z * bool) (num : Z)
  : string * Z * Z * bool :=
  let '(buf, start, end_, seen) := st in
  if decide (start = 0)%Z then (buf, num, num, seen)
  else if decide (num = wrap (end_ + 1)) then (buf, start, num, seen)
  else ((if seen then buf +:+ ", " else buf) +:+ rangeStr start end_,
        num, num, true).

Definition ranges (nums : list Z) : string :=
  let '(buf, start, end_, seen) :=
    foldl ranges_step (EmptyString, 0%Z, 0%Z, false) nums in
  if decide (start ≠ 0)%Z
  then (if seen then buf +:+ ", " else buf) +:+ rangeStr start end_
  else buf.

(** The [Error] methods. *)
Definition Inconsistent_Error (e : Inconsistent) : string :=
  (if decide (length (Missing e) ≠ 0)
   then "no result for " +:+ ranges (Missing e) else EmptyString)
  +:+ (if decide (length (Missing e) ≠ 0 ∧ length (Extra e) ≠ 0)
       then " and " else EmptyString)
  +:+ (if decide (length (Extra e) ≠ 0)
       then "unexpected extra result for " +:+ ranges (Extra e) else EmptyString).

Definition Error (e : error) : string :=
  match e with
  | BailOut reason => "testing aborted: " +:+ reason
  | NoTests => "no tests"
  | ScanError text => text
  | InconsistentError inconsistent => Inconsistent_Error inconsistent
  end.

End tap.

(** ** testing: the data resource types of the provider

    A read callback receives the configuration decoded into its Go
    struct; the decoding is done by the SDK through gocty. *)
Module testing.
Import cty sdkdiags dynfunc tfschema tfsdk.

Record assertionsDRTEqual : Type := mkAssertionsDRTEqual {
  Equal_Statement : option string;
  Got : Value;
  Want : Value
}.

Record assertionsDRTCheck : Type := mkAssertionsDRTCheck {
  Check_Statement : option string;
  Pass : bool
}.

Record assertionsDRT : Type := mkAssertionsDRT {
  Subject : option string;
  Checks : Value;
  Equals : Value
}.

(** The schema of [testing_assertions]. *)
Definition assertions_schema : BlockType :=
  mkBlockType
    {[ "subject" := mkAttribute TString false true false false EmptyString FnNil None ]}
    {[ "check" := mkNestedBlockType NestingMap
         (mkBlockType
            {[ "statement" := mkAttribute TString false true false false
                                EmptyString FnNil None;
               "expect" := mkAttribute TBool true false false false
                             EmptyString FnNil None ]} ∅) 0 0;
       "equal" := mkNestedBlockType NestingMap
         (mkBlockType
            {[ "statement" := mkAttribute TString false true false false
                                EmptyString FnNil None;
               "want" := mkAttribute DynamicPseudoType true false false false
                           EmptyString FnNil None;
               "got" := mkAttribute DynamicPseudoType true false false false
                          EmptyString FnNil None ]} ∅) 0 0 ]}.

Section Assertions.

(** [gocty.FromCtyValue] into the struct of a block (the text of the
    error where it fails), [Value.RawEquals], [formatValue], and the
    verbs [%s] on a value and [%q] on a string. *)
Variable FromCtyValue_check : Value → assertionsDRTCheck + string.
Variable FromCtyValue_equal : Value → assertionsDRTEqual + string.
Variable RawEquals : Value → Value → bool.
Variable formatValue : Value → Z → string.
Variable fmt_s : Value → string.
Variable fmt_q : string → string.

(** The statement of an assertion, with the subject before it. *)
Definition statement_of (subject : string) (statement : option string) : string :=
  match statement with
  | Some s =>
      if bool_decide (subject ≠ EmptyString) then subject +:+ " " +:+ s else s
  | None => EmptyString
  end.

Definition decode_bug (kind : string) (k : Value) (err : string)
  : option Diagnostics :=
  ks ← AsString k;
  Some [mkDiagnostic Error "Bug in 'testing' provider"
          ("The provider encountered a problem while decoding the " +:+ kind
           +:+ " " +:+ fmt_q ks +:+ " block: " +:+ err +:+ "." +:+ nl +:+ nl +:+
           "This is a bug in the provider; please report it in the provider's issue tracker.")
          []].

(** The body of the loop over the [check] blocks. *)
Definition check_diags (subject : string) (kv : Value * Value) : option Diagnostics :=
  match FromCtyValue_check kv.2 with
  | inr err => decode_bug "check" kv.1 err
  | inl chk =>
      if Pass chk then Some []
      else
        let statement := statement_of subject (Check_Statement chk) in
        let msg :=
          if bool_decide (statement ≠ EmptyString)
          then "Assertion failed" +:+ ": " +:+ statement +:+ "."
          else "Assertion failed" +:+ "." in
        Some [mkDiagnostic Error "Test failure" msg
                (Path_GetAttr (Path_Index (Path_GetAttr [] "check") kv.1) "expect")]
  end.

(** The body of the loop over the [equal] blocks. *)
Definition equal_diags (subject : string) (kv : Value * Value) : option Diagnostics :=
  match FromCtyValue_equal kv.2 with
  | inr err => decode_bug "equal" kv.1 err
  | inl eq =>
      if RawEquals (Got eq) (Want eq) then Some []
      else
        let statement := statement_of subject (Equal_Statement eq) in
        let msg :=
          if bool_decide (statement ≠ EmptyString)
          then "Assertion failed: " +:+ statement +:+ "." +:+ nl +:+
               "  Want: " +:+ formatValue (Want eq) 2 +:+ nl +:+
               "  Got:  " +:+ formatValue (Got eq) 2
          else "Assertion failed." +:+ nl +:+
               "  Want: " +:+ fmt_s (Want eq) +:+ nl +:+
               "  Got:  " +:+ fmt_s (Got eq) in
        Some [mkDiagnostic Error "Test failure" msg
                (Path_GetAttr (Path_Index (Path_GetAttr [] "equal") kv.1) "got")]
  end.

(** The [ReadFn] of [testing_assertions]. *)
Definition assertions_ReadFn (obj : assertionsDRT)
  : option (assertionsDRT * Diagnostics) :=
  let subject := default EmptyString (Subject obj) in
  checks ← ElementIterator (Checks obj);
  checkDiags ← mapM (check_diags subject) checks;
  equals ← ElementIterator (Equals obj);
  equalDiags ← mapM (equal_diags subject) equals;
  Some (obj, mjoin checkDiags ++ mjoin equalDiags).

End Assertions.

Record tapDRT : Type := mkTapDRT {
  Program : list string
}.

(** [strings.Replace(s, "\n", "\n  ", -1)]. *)
Fixpoint indent_lines (s : string) : string :=
  match s with
  | EmptyString => EmptyString
  | String c rest =>
      if Ascii.eqb c (Ascii.ascii_of_nat 10)
      then String c ("  " +:+ indent_lines rest)
      else String c (indent_lines rest)
  end.

(** The body of the loop over the tests of a report; a nil entry is
    dereferenced. *)
Definition test_diags (test : option tap.Report) : option Diagnostics :=
  test ← test;
  let testName :=
    if bool_decide (tap.Name test = EmptyString)
    then "anonymous test #" +:+ tap.fmt_d (tap.Num test)
    else tap.Name test in
  if bool_decide (tap.Result_ test = tap.Fail) || negb (tap.Todo test) then
    Some [mkDiagnostic Error "Test failure"
                       ("Test failed: " +:+ testName +:+ ".") []]
  else if bool_decide (tap.Result_ test = tap.Pass) && tap.Todo test then
    Some [mkDiagnostic Warning "Test passed unexpectedly"
            ("Bonus test pass: " +:+ testName +:+ "." +:+ nl +:+ nl +:+
             "This test is marked as a TODO test, but yet it passed. Consider removing the TODO directive from this test.")
            []]
  else Some [].

(** The [ReadFn] of [testing_tap].  Running the program is given by its
    outcome: the text of the error of [cmd.Run], if any, what the program
    wrote to its standard error, and the reader after it has read the
    program's standard output to the end. *)
Definition tap_ReadFn (max_len : Z) (obj : tapDRT) (runErr : option string)
    (errBuf : string) (reader : tap.Reader) : option (tapDRT * Diagnostics) :=
  match Program obj with
  | [] => None
  | _ :: _ =>
      let stderrForOutput :=
        let replaced := indent_lines errBuf in
        if bool_decide (replaced ≠ EmptyString)
        then "The test program produced the following error messages:" +:+ nl
             +:+ replaced
        else replaced in
      let failed (what err : string) :=
        let stderrForOutput :=
          if bool_decide (stderrForOutput ≠ EmptyString)
          then nl +:+ nl +:+ stderrForOutput else stderrForOutput in
        Some (obj, [mkDiagnostic Error "Test program failed"
                      (what +:+ err +:+ "." +:+ stderrForOutput) []]) in
      match runErr with
      | Some err => failed "Error running test program: " err
      | None =>
          '(report, err) ← tap.ReadAll_result max_len reader;
          match err with
          | Some err => failed "Error during test program: " (tap.Error err)
          | None =>
              testDiags ← mapM test_diags (tap.Tests report);
              Some (obj,
                    mjoin testDiags ++
                    (if bool_decide (stderrForOutput ≠ EmptyString)
                     then [mkDiagnostic Error "Error messages from test program"
                                        stderrForOutput []]
                     else []))
          end
      end
  end.

End testing.

(** ** Concrete schemas and objects

    A resource with a computed [id], an optional [name] with a static
    default, a list-typed attribute [tags], and nested [rule] (map), [port]
    (set) and [step] (list) blocks whose content has a required [v] and a
    computed [c]. *)
Module examples.
Import cty sdkdiags dynfunc tfschema tfsdk tfobj.

Definition attribute (ty : Ty) (required optional computed : bool)
    (default : option (Ty → option Value)) : Attribute :=
  mkAttribute ty required optional computed false EmptyString FnNil default.

Definition inner : BlockType :=
  mkBlockType {[ "v" := attribute TString true false false None;
                 "c" := attribute TString false false true None ]} ∅.

Definition resource : BlockType :=
  mkBlockType
    {[ "id" := attribute TString false false true None;
       "name" := attribute TString false true false
                   (Some (λ _, Some (StringVal "anonymous")));
       "tags" := attribute (TList TString) false true false None ]}
    {[ "rule" := mkNestedBlockType NestingMap inner 0 0;
       "port" := mkNestedBlockType NestingSet inner 0 0;
       "step" := mkNestedBlockType NestingList inner 0 0 ]}.

Definition inner_ty : Ty := ImpliedCtyType inner.

(** An element of a nested block with the given [v]. *)
Definition element (v : Value) : Value :=
  ObjectVal {[ "v" := v; "c" := NullVal TString ]}.

(** An object of the resource with the given [id], [name] and [tags],
    one [rule] block, two [port] blocks and no [step] block. *)
Definition object (id name tags : Value) : Value :=
  ObjectVal {[ "id" := id; "name" := name; "tags" := tags;
               "rule" := RawMap inner_ty {[ "http" := element (StringVal "a") ]};
               "port" := RawSet inner_ty [element (StringVal "a");
                                          element (NullVal TString)];
               "step" := RawList inner_ty [] ]}.

Definition strings (l : list Value) : Value := RawList TString l.

(** The configuration leaves [id] unset; the planned object is what
    [planChange] makes of it. *)
Definition config_obj : Value :=
  object (NullVal TString) (StringVal "a") (strings [StringVal "a"]).
Definition planned_obj : Value :=
  default NilVal (ApplyDefaults resource config_obj).

(** A prior object, and proposed objects that rename it or change its
    tags to a list with one element not yet known. *)
Definition prior_obj : Value :=
  object (StringVal "i-1") (StringVal "a") (strings [StringVal "a"]).
Definition renamed_obj : Value :=
  object (StringVal "i-1") (StringVal "b") (strings [StringVal "a"]).
Definition retagged_obj : Value :=
  object (StringVal "i-1") (StringVal "a")
         (strings [UnknownVal TString; StringVal "b"]).

(** A conversion that accepts exactly the values of the wanted type. *)
Definition exact_convert (val : Value) (ty : Ty) : Value + string :=
  if IsDynamic ty || Ty_eqb (type_of val) ty then inl val
  else inr "unsuitable type"%string.

(** Two create callbacks that differ only on arguments that contain an
    unknown value. *)
Definition echo (args : list Value) : Value * Diagnostics :=
  (default NilVal (head args), []).
Definition echo_known (args : list Value) : Value * Diagnostics :=
  if forallb IsWhollyKnown args then echo args
  else (StringVal "observed an unknown value", []).
Definition managed (create : list Value → Value * Diagnostics) : managedResourceType :=
  mkManagedResourceType resource 0 (FnCall create) FnNil (FnCall echo) FnNil.

(** The object with the given [step] blocks in place of its own. *)
Definition with_steps (obj : Value) (steps : list Value) : Value :=
  match obj with
  | ObjectVal m => ObjectVal (<["step" := RawList inner_ty steps]> m)
  | _ => obj
  end.

(** A schema with one block type of single nesting, and an object of it
    whose block is absent. *)
Definition single_schema : BlockType :=
  mkBlockType {[ "id" := attribute TString false false true None ]}
              {[ "meta" := mkNestedBlockType NestingSingle inner 0 0 ]}.
Definition single_obj : Value :=
  ObjectVal {[ "id" := StringVal "i-1"; "meta" := NullVal inner_ty ]}.


(** The null object of the resource. *)
Definition null_obj : Value := NullVal (ImpliedCtyType resource).

(** The builder of an object and the plan builder of a change to the
    resource (an empty one where the constructor panics). *)
Definition built (schema : BlockType) (obj : Value) : objectBuilder :=
  default (mkObjectBuilder schema ∅ ∅ ∅ ∅) (NewObjectBuilder schema obj).
Definition planning (prior config proposed : Value) : planBuilder :=
  default (mkPlanBuilder Delete None None None None)
          (NewPlanBuilder resource prior config proposed).

(** Three versions of the resource that differ in their [step] blocks. *)
Definition stepped_prior : Value :=
  with_steps prior_obj (element <$> [StringVal "a"]).
Definition stepped_config : Value :=
  with_steps config_obj (element <$> [StringVal "a"; StringVal "b"; StringVal "c"]).
Definition stepped_proposed : Value :=
  with_steps renamed_obj (element <$> [StringVal "a"; StringVal "b"]).

(** Decoders of the blocks of [testing_assertions], a comparison of
    primitive values, and renderings of values and strings. *)
Definition decode_check (v : Value) : testing.assertionsDRTCheck + string :=
  match GetAttr v "statement", GetAttr v "expect" with
  | Some statement, Some (BoolVal expect) =>
      inl (testing.mkAssertionsDRTCheck (AsString statement) expect)
  | _, _ => inr "a bool is required"%string
  end.
Definition decode_equal (v : Value) : testing.assertionsDRTEqual + string :=
  match GetAttr v "statement", GetAttr v "got", GetAttr v "want" with
  | Some statement, Some got, Some want =>
      inl (testing.mkAssertionsDRTEqual (AsString statement) got want)
  | _, _, _ => inr "an object is required"%string
  end.
Definition raw_equals (a b : Value) : bool :=
  match a, b with
  | StringVal x, StringVal y => bool_decide (x = y)
  | NumberIntVal x, NumberIntVal y => bool_decide (x = y)
  | BoolVal x, BoolVal y => bool_decide (x = y)
  | _, _ => false
  end.
Definition show_value (v : Value) : string :=
  match v with
  | StringVal s => s
  | NumberIntVal z => tap.fmt_d z
  | BoolVal b => if b then "true" else "false"
  | _ => "(value)"
  end.
Definition quoted (s : string) : string :=
  String (Ascii.ascii_of_nat 34) (s +:+ String (Ascii.ascii_of_nat 34) EmptyString).

(** A configuration of [testing_assertions] with a check that holds, a
    check that fails and a comparison that fails. *)
Definition check_block (expect : bool) : Value :=
  ObjectVal {[ "statement" := StringVal "is ready"; "expect" := BoolVal expect ]}.
Definition equal_block (got want : Value) : Value :=
  ObjectVal {[ "statement" := NullVal TString; "got" := got; "want" := want ]}.
Definition assertions_obj : testing.assertionsDRT :=
  testing.mkAssertionsDRT (Some "widget"%string)
    (RawMap (type_of (check_block true))
            {[ "up" := check_block true; "down" := check_block false ]})
    (ObjectVal {[ "size" := equal_block (NumberIntVal 1) (NumberIntVal 2) ]}).
Definition assertions_read : option (testing.assertionsDRT * Diagnostics) :=
  testing.assertions_ReadFn decode_check decode_equal raw_equals
    (λ v _, show_value v) show_value quoted assertions_obj.

(** Reports of a TAP run, the reader after a run with the plan [1..2],
    and the reader after a run without a plan line in which only test 2
    reported. *)
Definition tap_report (num : Z) (result : tap.Result) (todo : bool) : tap.Report :=
  tap.mkReport num result "starts" todo EmptyString EmptyString [].
Definition tap_reader : tap.Reader :=
  tap.mkReader (Some (tap.mkPlan 1 2))
    {[ 1%Z := tap_report 1 tap.Pass false; 2%Z := tap_report 2 tap.Pass true ]}
    None None.
Definition tap_reader_gap : tap.Reader :=
  tap.mkReader None {[ 2%Z := tap_report 2 tap.Pass true ]} None None.
Definition tap_obj : testing.tapDRT := testing.mkTapDRT ["prove"%string].

End examples.

(** * Properties *)

Import cty sdkdiags dynfunc tfschema tfsdk tfobj examples.

(** ** Loops over Go maps *)

Section map_range_facts.
Context {A B : Type}.
Implicit Types (m : gmap string A) (body : string → A → option B).

Lemma map_sequence_Some (mo : gmap string (option B)) (r : gmap string B) :
  map_sequence mo = Some r ↔ mo = Some <$> r.
Proof.
  unfold map_sequence. case_decide as Hall; split.
  - intros [= <-]. apply map_eq. intros k.
    rewrite lookup_fmap, lookup_omap.
    destruct (mo !! k) as [o|] eqn:Hk; [|done]. simpl.
    destruct (Hall k o Hk) as [b ->]. done.
  - intros ->. f_equal. apply map_eq. intros k.
    rewrite lookup_omap, lookup_fmap. by destruct (r !! k).
  - done.
  - intros ->. destruct Hall. intros k o.
    rewrite lookup_fmap. destruct (r !! k) as [b|]; simpl; [|done].
    intros [= <-]. by exists b.
Qed.

(** The loop succeeds with [r] exactly when [r] has the keys of [m] and
    holds the results of the body. *)
Lemma map_range_Some m body (r : gmap string B) :
  map_range m body = Some r ↔
  ∀ k, match m !! k with
       | Some a => ∃ b, body k a = Some b ∧ r !! k = Some b
       | None => r !! k = None
       end.
Proof.
  unfold map_range. rewrite map_sequence_Some. split.
  - intros Heq k. apply (f_equal (.!! k)) in Heq.
    rewrite map_lookup_imap, lookup_fmap in Heq.
    destruct (m !! k) as [a|]; simpl in *.
    + destruct (r !! k); simplify_eq/=; eauto.
    + by destruct (r !! k).
  - intros H. apply map_eq. intros k. specialize (H k).
    rewrite map_lookup_imap, lookup_fmap.
    destruct (m !! k) as [a|]; simpl.
    + destruct H as (b & -> & ->). done.
    + by rewrite H.
Qed.

Lemma map_range_lookup m body r k a :
  map_range m body = Some r → m !! k = Some a →
  ∃ b, body k a = Some b ∧ r !! k = Some b.
Proof.
  intros Hr Hk. pose proof (proj1 (map_range_Some _ _ _) Hr k) as Hr'.
  by rewrite Hk in Hr'.
Qed.

Lemma map_range_lookup_None m body r k :
  map_range m body = Some r → m !! k = None → r !! k = None.
Proof.
  intros Hr Hk. pose proof (proj1 (map_range_Some _ _ _) Hr k) as Hr'.
  by rewrite Hk in Hr'.
Qed.

Lemma map_range_lookup_inv m body r k b :
  map_range m body = Some r → r !! k = Some b →
  ∃ a, m !! k = Some a ∧ body k a = Some b.
Proof.
  intros Hr Hk. pose proof (proj1 (map_range_Some _ _ _) Hr k) as Hr'.
  destruct (m !! k) as [a|]; [|congruence].
  destruct Hr' as (b' & Hb & Hr'). exists a. split; [done|congruence].
Qed.

(** The loop does not panic when its body does not. *)
Lemma map_range_is_Some m body :
  (∀ k a, m !! k = Some a → is_Some (body k a)) → is_Some (map_range m body).
Proof.
  intros H. exists (map_imap body m). apply map_range_Some. intros k.
  rewrite map_lookup_imap. destruct (m !! k) as [a|] eqn:Hk; simpl; [|done].
  destruct (H k a Hk) as [b Hb]. rewrite Hb. eauto.
Qed.

End map_range_facts.

Lemma map_forallb_true (m : gmap string bool) :
  map_forallb m = true ↔ map_Forall (λ _ b, b = true) m.
Proof.
  unfold map_forallb.
  apply (map_fold_weak_ind (λ acc m, acc = true ↔ map_Forall (λ _ b, b = true) m)).
  - split; [intros _; apply map_Forall_empty|done].
  - intros k b m' acc Hk IH. rewrite map_Forall_insert by done.
    rewrite andb_true_iff, IH. done.
Qed.

Lemma forallb_Forall {A} (f : A → bool) l :
  forallb f l = true ↔ Forall (λ x, f x = true) l.
Proof. rewrite forallb_forall, Forall_forall. by setoid_rewrite list_elem_of_In. Qed.

Lemma mapM_fixed {A} (f : A → option A) l :
  Forall (λ x, f x = Some x) l → mapM f l = Some l.
Proof. intros H. apply mapM_Some_2. by apply Forall_Forall2_diag. Qed.

Lemma mapM_outputs {A B} (f : A → option B) (Q : B → Prop) l k :
  (∀ x y, f x = Some y → Q y) → mapM f l = Some k → Forall Q k.
Proof.
  intros HQ H. apply mapM_Some_1 in H. induction H; constructor; eauto.
Qed.

(** ** Induction on schemas and on values

    Schemas and values are nested in finite maps, so their induction
    principles are derived from a size measure. *)

Lemma map_sum_lookup (m : gmap string nat) k n :
  m !! k = Some n → n ≤ map_sum m.
Proof.
  intros Hk. unfold map_sum.
  rewrite (map_fold_delete_L _ _ k n m); [lia| |done].
  intros. lia.
Qed.

Lemma sum_list_elem_of (l : list nat) n : n ∈ l → n ≤ sum_list l.
Proof. induction 1; simpl; lia. Qed.

Lemma BlockType_size_lookup attrs blocks k nb :
  blocks !! k = Some nb →
  BlockType_size (Content nb) < BlockType_size (mkBlockType attrs blocks).
Proof.
  intros Hk. simpl.
  assert (NestedBlockType_size nb ≤ map_sum (NestedBlockType_size <$> blocks)).
  { apply (map_sum_lookup _ k). by rewrite lookup_fmap, Hk. }
  destruct nb; simpl in *. lia.
Qed.

Lemma BlockType_nested_ind (P : BlockType → Prop) :
  (∀ attrs blocks,
     map_Forall (λ _ nb, P (Content nb)) blocks → P (mkBlockType attrs blocks)) →
  ∀ b, P b.
Proof.
  intros IH b. remember (BlockType_size b) as n eqn:Hn. revert b Hn.
  induction n as [n IHn] using lt_wf_ind. intros [attrs blocks] ->.
  apply IH. intros k nb Hk.
  eapply IHn; [|reflexivity]. by eapply BlockType_size_lookup.
Qed.

Lemma Value_nested_ind (P : Value → Prop) :
  P NilVal → (∀ ty, P (NullVal ty)) → (∀ ty, P (UnknownVal ty)) →
  (∀ s, P (StringVal s)) → (∀ z, P (NumberIntVal z)) → (∀ b, P (BoolVal b)) →
  (∀ ety elems, Forall P elems → P (RawList ety elems)) →
  (∀ ety elems, Forall P elems → P (RawSet ety elems)) →
  (∀ ety elems, map_Forall (λ _, P) elems → P (RawMap ety elems)) →
  (∀ attrs, map_Forall (λ _, P) attrs → P (ObjectVal attrs)) →
  (∀ elems, Forall P elems → P (TupleVal elems)) →
  ∀ val, P val.
Proof.
  intros Hnil Hnull Hunk Hs Hn Hb Hlist Hset Hmap Hobj Htup val.
  remember (Value_size val) as n eqn:Hsz. revert val Hsz.
  induction n as [n IHn] using lt_wf_ind. intros val ->.
  assert (Hl : ∀ elems, S (sum_list (Value_size <$> elems)) ≤ Value_size val →
                        Forall P elems).
  { intros elems Hle. apply Forall_forall. intros ev Hev.
    eapply IHn; [|reflexivity].
    assert (Value_size ev ≤ sum_list (Value_size <$> elems)); [|lia].
    apply sum_list_elem_of, list_elem_of_fmap. eauto. }
  assert (Hm : ∀ elems : gmap string Value,
             S (map_sum (Value_size <$> elems)) ≤ Value_size val →
             map_Forall (λ _, P) elems).
  { intros elems Hle k ev Hev. eapply IHn; [|reflexivity].
    assert (Value_size ev ≤ map_sum (Value_size <$> elems)); [|lia].
    apply (map_sum_lookup _ k). by rewrite lookup_fmap, Hev. }
  destruct val; auto.
Qed.

(** ** The loop that collects a map from the elements of a value *)

Section collect.
Context {A : Type} (f : Value → option A).

Lemma collect_None elems : foldl (collect_step f) None elems = None.
Proof. induction elems; simpl; auto. Qed.

(** Every value collected is a result of [f]. *)
Lemma collect_map_Forall (Q : A → Prop) elems :
  ∀ acc vals,
    map_Forall (λ _, Q) acc →
    (∀ v w, f v = Some w → Q w) →
    foldl (collect_step f) (Some acc) elems = Some vals →
    map_Forall (λ _, Q) vals.
Proof.
  induction elems as [|[k v] elems IH]; simpl; intros acc vals Hacc HQ Hfold.
  - by simplify_eq.
  - destruct (AsString k) as [s|] eqn:Hk; simpl in Hfold;
      [|by rewrite collect_None in Hfold].
    destruct (f v) as [w|] eqn:Hv; simpl in Hfold;
      [|by rewrite collect_None in Hfold].
    eapply IH; [|done|done]. apply map_Forall_insert_2; eauto.
Qed.

Lemma foldl_insert_list_to_map (l : list (string * A)) (acc : gmap string A) :
  foldl (λ a kv, <[kv.1 := kv.2]> a) acc l = list_to_map (reverse l) ∪ acc.
Proof.
  revert acc. induction l as [|[k v] l IH]; intros acc; simpl.
  - by rewrite (left_id_L ∅ (∪)).
  - rewrite IH, reverse_cons, list_to_map_app. simpl.
    rewrite <-(assoc_L (∪)). f_equal.
    rewrite insert_empty. by rewrite <-insert_union_singleton_l.
Qed.

End collect.

(** Collecting the elements of a map whose values [f] leaves as they are
    gives the map back. *)
Lemma collect_map_fixed (f : Value → option Value) (m : gmap string Value) :
  map_Forall (λ _ v, f v = Some v) m →
  collect_map f ((λ kv, (StringVal kv.1, kv.2)) <$> map_to_list m) = Some m.
Proof.
  intros Hm. unfold collect_map.
  assert (Hgen : ∀ (l : list (string * Value)) acc,
             Forall (λ kv, f kv.2 = Some kv.2) l →
             foldl (collect_step f) (Some acc) ((λ kv, (StringVal kv.1, kv.2)) <$> l)
             = Some (foldl (λ a kv, <[kv.1 := kv.2]> a) acc l)).
  { induction l as [|[k v] l IH]; intros acc Hl; simpl; [done|].
    inversion Hl as [|?? Hv Hl']; subst. simpl in Hv. rewrite Hv. simpl.
    by apply IH. }
  rewrite Hgen.
  - f_equal. rewrite foldl_insert_list_to_map, (right_id_L ∅ (∪)).
    rewrite <-(list_to_map_to_list m) at 2.
    apply list_to_map_proper; [|by rewrite reverse_Permutation].
    rewrite fmap_reverse, reverse_Permutation. apply NoDup_fst_map_to_list.
  - apply Forall_forall. intros [k v] Hkv. apply elem_of_map_to_list in Hkv.
    by apply (Hm k v).
Qed.

(** ** Sets of values *)

Lemma set_add_cases s x :
  (existsb (λ ev, Equivalent ev x) s = true ∧ set_add s x = s) ∨
  (existsb (λ ev, Equivalent ev x) s = false ∧ set_add s x = s ++ [x]).
Proof. unfold set_add. destruct (existsb _ s); auto. Qed.

Lemma set_add_ok s x : set_ok s → set_ok (set_add s x).
Proof.
  intros Hs. destruct (set_add_cases s x) as [[_ ->]|[Hex ->]]; [done|].
  intros i y Hi. destruct (decide (i < length s)) as [Hlt|Hge].
  - rewrite lookup_app_l in Hi by done. rewrite take_app_le by lia. by apply Hs.
  - apply lookup_lt_Some in Hi as Hlt. rewrite length_app in Hlt. simpl in Hlt.
    assert (i = length s) as -> by lia.
    rewrite list_lookup_middle in Hi by done. simplify_eq.
    by rewrite take_app_length.
Qed.

Lemma set_fold_ok l : ∀ acc, set_ok acc → set_ok (foldl set_add acc l).
Proof. induction l; simpl; auto using set_add_ok. Qed.

(** Adding elements keeps what is there and adds only given elements. *)
Lemma set_fold_prefix l : ∀ acc, ∃ l', foldl set_add acc l = acc ++ l' ∧ l' ⊆ l.
Proof.
  induction l as [|x l IH]; intros acc; simpl.
  - exists []. by rewrite app_nil_r.
  - destruct (IH (set_add acc x)) as (l' & -> & Hl').
    destruct (set_add_cases acc x) as [[_ ->]|[_ ->]].
    + exists l'. split; [done|]. intros y Hy. apply elem_of_cons. right. by apply Hl'.
    + exists (x :: l'). rewrite <-app_assoc. split; [done|].
      intros y Hy. apply elem_of_cons in Hy as [->|Hy]; apply elem_of_cons;
        [by left|right; by apply Hl'].
Qed.

Lemma set_fold_fixed s : ∀ acc, set_ok (acc ++ s) → foldl set_add acc s = acc ++ s.
Proof.
  induction s as [|x s IH]; intros acc Hok; simpl.
  - by rewrite app_nil_r.
  - assert (set_add acc x = acc ++ [x]) as ->.
    { destruct (set_add_cases acc x) as [[Hex _]|[_ ->]]; [|done].
      specialize (Hok (length acc) x). rewrite list_lookup_middle in Hok by done.
      rewrite take_app_length in Hok. rewrite Hok in Hex; done. }
    rewrite IH; rewrite <-app_assoc; done.
Qed.

(** Building a set from the elements of a set changes nothing. *)
Lemma set_from_slice_idem l : set_from_slice (set_from_slice l) = set_from_slice l.
Proof.
  unfold set_from_slice at 1. apply (set_fold_fixed _ []). simpl.
  apply set_fold_ok. intros i x Hi. done.
Qed.

Lemma set_from_slice_cons x l :
  ∃ l', set_from_slice (x :: l) = x :: l' ∧ l' ⊆ l.
Proof.
  unfold set_from_slice. simpl. unfold set_add at 2. simpl.
  apply (set_fold_prefix l [x]).
Qed.

Lemma set_from_slice_subset l x : x ∈ set_from_slice l → x ∈ l.
Proof.
  unfold set_from_slice. destruct (set_fold_prefix l []) as (l' & -> & Hsub).
  simpl. apply Hsub.
Qed.

(** ** Element types of collections *)

Lemma unify_fold_nondyn t tys :
  IsDynamic t = false →
  foldl unify_step (Some t) tys
  = if forallb (λ u, IsDynamic u || Ty_eqb t u) tys then Some t else None.
Proof.
  intros Ht. induction tys as [|u tys IH]; simpl; [done|].
  rewrite Ht. destruct (IsDynamic u || Ty_eqb t u); simpl; [done|].
  clear. induction tys; simpl; auto.
Qed.

Lemma unify_types_cons t tys :
  IsDynamic t = false →
  unify_types (t :: tys)
  = if forallb (λ u, IsDynamic u || Ty_eqb t u) tys then Some t else None.
Proof. intros Ht. unfold unify_types. simpl. by apply unify_fold_nondyn. Qed.

Lemma unify_types_subset t tys tys2 ety :
  IsDynamic t = false → tys2 ⊆ tys →
  unify_types (t :: tys) = Some ety → unify_types (t :: tys2) = Some ety.
Proof.
  intros Ht Hsub. rewrite !unify_types_cons by done.
  destruct (forallb _ tys) eqn:Hall; [|done]. intros [= <-].
  assert (forallb (λ u, IsDynamic u || Ty_eqb t u) tys2 = true) as ->; [|done].
  apply forallb_forall. intros u Hu. rewrite forallb_forall in Hall.
  apply Hall. apply list_elem_of_In. apply Hsub. by apply list_elem_of_In.
Qed.

Lemma retype_object ety v : is_ObjectVal v → retype ety v = v.
Proof. by intros [m ->]. Qed.

Lemma retype_objects ety (l : list Value) :
  Forall is_ObjectVal l → retype ety <$> l = l.
Proof.
  induction 1 as [|v l Hv _ IH]; csimpl; [done|]. by rewrite IH, retype_object.
Qed.

Lemma retype_objects_map ety (m : gmap string Value) :
  map_Forall (λ _, is_ObjectVal) m → retype ety <$> m = m.
Proof.
  intros Hm. apply map_eq. intros k. rewrite lookup_fmap.
  destruct (m !! k) as [v|] eqn:Hk; simpl; [|done].
  by rewrite retype_object by eauto.
Qed.

Lemma ListVal_Some vals w :
  ListVal vals = Some w →
  ∃ ety, unify_types (type_of <$> vals) = Some ety ∧ vals ≠ [] ∧
         w = RawList ety (retype ety <$> vals).
Proof.
  unfold ListVal. destruct vals as [|v vals]; [done|]. intros H.
  simplify_option_eq. eauto.
Qed.

Lemma SetVal_Some vals w :
  SetVal vals = Some w →
  ∃ ety, unify_types (type_of <$> vals) = Some ety ∧ vals ≠ [] ∧
         w = RawSet ety (set_from_slice (retype ety <$> vals)).
Proof.
  unfold SetVal. destruct vals as [|v vals]; [done|]. intros H.
  simplify_option_eq. eauto.
Qed.

Lemma MapVal_Some vals w :
  MapVal vals = Some w →
  ∃ ety, vals ≠ ∅ ∧ w = RawMap ety (retype ety <$> vals).
Proof.
  unfold MapVal. case_decide; [done|]. intros Heq. simplify_option_eq. eauto.
Qed.

(** A set of objects can be built again from its own elements. *)
Lemma SetVal_again vals ety :
  Forall is_ObjectVal vals → vals ≠ [] →
  unify_types (type_of <$> vals) = Some ety →
  set_from_slice vals ≠ [] ∧
  (∀ x, x ∈ set_from_slice vals → x ∈ vals) ∧
  SetVal (set_from_slice vals) = Some (RawSet ety (set_from_slice vals)).
Proof.
  intros Hobj Hne Hu. destruct vals as [|x rest]; [done|].
  destruct (set_from_slice_cons x rest) as (l' & Hs & Hsub).
  pose proof (set_from_slice_idem (x :: rest)) as Hidem.
  rewrite Hs in Hidem |- *.
  assert (Hobj' : Forall is_ObjectVal (x :: l')).
  { inversion Hobj; subst. constructor; [done|].
    rewrite Forall_forall in *. auto. }
  split; [done|]. split.
  { intros y Hy. apply elem_of_cons in Hy as [->|Hy]; apply elem_of_cons;
      [by left|right; by apply Hsub]. }
  unfold SetVal.
  assert (unify_types (type_of <$> x :: l') = Some ety) as ->.
  { inversion Hobj as [|?? [m ->] _]; subst.
    eapply unify_types_subset; [done| |done].
    intros t Ht. apply list_elem_of_fmap in Ht as (y & -> & Hy).
    apply list_elem_of_fmap. eauto. }
  unfold mbind, option_bind. rewrite retype_objects by done. by rewrite Hidem.
Qed.

(** ** Iteration *)

Lemma imap_key_snd {K} (key : nat → K) (l : list Value) :
  (imap (λ i ev, (key i, ev)) l).*2 = l.
Proof.
  revert key. induction l as [|x l IHl]; intros key; [done|].
  csimpl. f_equal. apply (IHl (key ∘ S)).
Qed.

Lemma imap_snd (l : list Value) :
  (imap (λ i ev, (NumberIntVal (Z.of_nat i), ev)) l).*2 = l.
Proof. apply (imap_key_snd (λ i, NumberIntVal (Z.of_nat i))). Qed.

Lemma pair_snd (l : list Value) : ((λ ev, (ev, ev)) <$> l).*2 = l.
Proof. rewrite <-list_fmap_compose. apply list_fmap_id. Qed.

Lemma ElementIterator_not_null v elems :
  ElementIterator v = Some elems → IsNull v = false.
Proof. by destruct v. Qed.

(** [LengthInt] is the number of elements that [ElementIterator] yields. *)
Lemma ElementIterator_length obj elems :
  ElementIterator obj = Some elems → LengthInt obj = Some (length elems).
Proof.
  destruct obj; simpl; try done; intros [= <-]; unfold LengthInt; simpl.
  - by rewrite length_imap.
  - by rewrite length_fmap.
  - by rewrite length_fmap, length_map_to_list.
  - by rewrite length_fmap, length_map_to_list, map_size_fmap.
  - by rewrite length_imap, length_fmap.
Qed.

(** ** [UnknownAsNull] leaves no unknown value *)

Lemma IsWhollyKnown_retype ety v : IsWhollyKnown (retype ety v) = IsWhollyKnown v.
Proof. destruct v as [|ty|ty| | | | | | | |]; try done; by destruct ty. Qed.

Lemma UnknownAsNull_wholly_known v :
  ∀ w, UnknownAsNull v = Some w → IsWhollyKnown w = true.
Proof.
  induction v as [| | | | | |ety elems IH|ety elems IH|ety elems IH|attrs IH|elems IH]
    using Value_nested_ind; intros w; simpl; try (by intros [= <-]).
  - case_decide as Hlen.
    { intros [= <-]. by destruct elems. }
    intros Hw. destruct (mapM UnknownAsNull elems) as [vals|] eqn:Hvals; [|done].
    simpl in Hw. apply ListVal_Some in Hw as (ety' & _ & _ & ->). simpl.
    apply forallb_Forall, Forall_fmap. apply mapM_Some_1 in Hvals.
    clear Hlen. induction Hvals as [|x y l k Hxy _ IHl]; [done|].
    inversion IH; subst. constructor; [|by apply IHl].
    simpl. rewrite IsWhollyKnown_retype. eauto.
  - case_decide as Hlen.
    { intros [= <-]. by destruct elems. }
    intros Hw. destruct (mapM UnknownAsNull elems) as [vals|] eqn:Hvals; [|done].
    simpl in Hw. apply SetVal_Some in Hw as (ety' & _ & _ & ->). simpl.
    apply forallb_Forall, Forall_forall. intros x Hx.
    apply set_from_slice_subset, list_elem_of_fmap in Hx as (y & -> & Hy).
    rewrite IsWhollyKnown_retype.
    apply mapM_Some_1 in Hvals. clear Hlen.
    induction Hvals as [|x0 y0 l k Hxy _ IHl]; [by apply elem_of_nil in Hy|].
    inversion IH; subst. apply elem_of_cons in Hy as [->|Hy]; eauto.
  - case_decide as Hlen.
    { intros [= <-]. apply map_size_empty_iff in Hlen as ->. done. }
    intros Hw.
    destruct (map_sequence (UnknownAsNull <$> elems)) as [vals|] eqn:Hvals; [|done].
    simpl in Hw. apply MapVal_Some in Hw as (ety' & _ & ->). simpl.
    apply map_forallb_true. intros k b. rewrite !lookup_fmap.
    apply map_sequence_Some in Hvals. apply (f_equal (.!! k)) in Hvals.
    rewrite !lookup_fmap in Hvals.
    destruct (vals !! k) as [y|], (elems !! k) as [x|] eqn:Hx; simplify_eq/=;
      [|done].
    intros [= <-]. rewrite IsWhollyKnown_retype. eapply IH; eauto.
  - case_decide as Hlen.
    { intros [= <-]. apply map_size_empty_iff in Hlen as ->. done. }
    intros Hw.
    destruct (map_sequence (UnknownAsNull <$> attrs)) as [vals|] eqn:Hvals; [|done].
    simpl in Hw. injection Hw as <-. simpl.
    apply map_forallb_true. intros k b. rewrite !lookup_fmap.
    apply map_sequence_Some in Hvals. apply (f_equal (.!! k)) in Hvals.
    rewrite !lookup_fmap in Hvals.
    destruct (vals !! k) as [y|], (attrs !! k) as [x|] eqn:Hx; simplify_eq/=;
      [|done].
    intros [= <-]. eapply IH; eauto.
  - case_decide as Hlen.
    { intros [= <-]. by destruct elems. }
    intros Hw. destruct (mapM UnknownAsNull elems) as [vals|] eqn:Hvals; [|done].
    simpl in Hw. injection Hw as <-. simpl.
    apply forallb_Forall. apply mapM_Some_1 in Hvals.
    clear Hlen. induction Hvals as [|x y l k Hxy _ IHl]; [done|].
    inversion IH; subst. constructor; [|by apply IHl]. eauto.
Qed.

(** ** Default application *)

Lemma ApplyDefaults_unfold attrs blocks given :
  ApplyDefaults (mkBlockType attrs blocks) given =
    attr_vals ← map_range attrs
      (λ name attrS, GetAttr given name ≫= attr_default attrS);
    block_vals ← map_range (NestedBlockType_ApplyDefaults <$> blocks)
      (λ name blockS_ApplyDefaults, GetAttr given name ≫= blockS_ApplyDefaults);
    Some (ObjectVal (block_vals ∪ attr_vals)).
Proof. reflexivity. Qed.

Lemma Nested_ApplyDefaults_unfold nesting content mx mn given :
  NestedBlockType_ApplyDefaults (mkNestedBlockType nesting content mx mn) given =
  let wantTy := impliedCtyType (mkNestedBlockType nesting content mx mn) in
  match nesting with
  | NestingSingle =>
      if IsNull given then Some given else ApplyDefaults content given
  | NestingList =>
      _ ← LengthInt given;
      elems ← ElementIterator given;
      vals ← mapM (ApplyDefaults content) elems.*2;
      rebuild_list wantTy vals
  | NestingMap =>
      _ ← LengthInt given;
      elems ← ElementIterator given;
      vals ← collect_map (ApplyDefaults content) elems;
      rebuild_map wantTy vals
  | NestingSet =>
      _ ← LengthInt given;
      elems ← ElementIterator given;
      vals ← mapM (ApplyDefaults content) elems.*2;
      rebuild_set wantTy vals
  | nestingInvalid => None
  end.
Proof. reflexivity. Qed.

Lemma ApplyDefaults_object b v w : ApplyDefaults b v = Some w → is_ObjectVal w.
Proof.
  destruct b as [attrs blocks]. rewrite ApplyDefaults_unfold. intros H.
  simplify_option_eq. by eexists.
Qed.

Lemma GetAttr_object attrs name : GetAttr (ObjectVal attrs) name = attrs !! name.
Proof. reflexivity. Qed.

(** Defaulting an attribute value a second time changes nothing. *)
Lemma attr_default_idem a gv v :
  attr_default a gv = Some v → attr_default a v = Some v.
Proof.
  unfold attr_default. destruct (IsNull gv) eqn:Hgv.
  - destruct (Computed a).
    + by intros [= <-].
    + intros Hd. by destruct (IsNull v).
  - intros [= <-]. by rewrite Hgv.
Qed.

Lemma attr_default_is_Some a gv v :
  IsNull v = IsNull gv → is_Some (attr_default a gv) → is_Some (attr_default a v).
Proof.
  unfold attr_default. intros ->. by destruct (IsNull gv).
Qed.

Lemma rebuild_list_not_null wantTy vals w :
  rebuild_list wantTy vals = Some w → IsNull w = false.
Proof.
  unfold rebuild_list. intros Heq. destruct (negb _); [by simplify_eq|].
  case_decide; [by simplify_option_eq|].
  apply ListVal_Some in Heq as (? & _ & _ & ->). done.
Qed.

Lemma rebuild_set_not_null wantTy vals w :
  rebuild_set wantTy vals = Some w → IsNull w = false.
Proof.
  unfold rebuild_set. intros Heq. case_decide; [by simplify_option_eq|].
  apply SetVal_Some in Heq as (? & _ & _ & ->). done.
Qed.

Lemma rebuild_map_not_null wantTy vals w :
  rebuild_map wantTy vals = Some w → IsNull w = false.
Proof.
  unfold rebuild_map. intros Heq. destruct (negb _); [by simplify_eq|].
  case_decide; [by simplify_option_eq|].
  apply MapVal_Some in Heq as (? & _ & ->). done.
Qed.

(** A nested block is null after defaulting exactly when it was null. *)
Lemma Nested_ApplyDefaults_null nb v w :
  NestedBlockType_ApplyDefaults nb v = Some w → IsNull w = IsNull v.
Proof.
  destruct nb as [nesting content mx mn]. simpl.
  destruct nesting; try done.
  - destruct (IsNull v) eqn:Hv.
    + by intros [= <-].
    + intros H. by apply ApplyDefaults_object in H as [m ->].
  - intros H. simplify_option_eq.
    erewrite rebuild_list_not_null, ElementIterator_not_null; eauto.
  - intros H. simplify_option_eq.
    erewrite rebuild_map_not_null, ElementIterator_not_null; eauto.
  - intros H. simplify_option_eq.
    erewrite rebuild_set_not_null, ElementIterator_not_null; eauto.
Qed.

(** The multi-nesting cases of idempotence, for a content schema whose
    defaulting is idempotent: the rebuilt collection holds outputs of the
    content's defaulting, which are objects that it leaves as they are. *)
Section nested_idem.
Variable content : BlockType.
Hypothesis IH : ∀ v w, ApplyDefaults content v = Some w →
                       ApplyDefaults content w = Some w.

Let fixed (w : Value) : Prop :=
  ApplyDefaults content w = Some w ∧ is_ObjectVal w.

Lemma outputs_fixed v w : ApplyDefaults content v = Some w → fixed w.
Proof. split; eauto using ApplyDefaults_object. Qed.

Lemma mapM_again vals :
  Forall fixed vals → mapM (ApplyDefaults content) vals = Some vals.
Proof. intros H. apply mapM_fixed. eapply Forall_impl; [done|]. by intros ? []. Qed.

Lemma list_again wantTy xs vals w :
  mapM (ApplyDefaults content) xs = Some vals →
  rebuild_list wantTy vals = Some w →
  (_ ← LengthInt w; elems ← ElementIterator w;
   vals' ← mapM (ApplyDefaults content) elems.*2; rebuild_list wantTy vals')
  = Some w.
Proof.
  intros HmapM Hre.
  assert (Hfix : Forall fixed vals).
  { eapply mapM_outputs; [|done]. apply outputs_fixed. }
  assert (Hobj : Forall is_ObjectVal vals).
  { eapply Forall_impl; [done|]. by intros ? []. }
  pose proof Hre as Hre'. unfold rebuild_list in Hre.
  destruct (negb (IsListType wantTy)) eqn:Hty.
  - simplify_eq. simpl. rewrite imap_snd, mapM_again by done. done.
  - case_decide as Hlen.
    + destruct (ElementType wantTy) as [ety|] eqn:Hety; simplify_eq/=.
      destruct vals; [|done]. simpl. done.
    + apply ListVal_Some in Hre as (ety & Hu & Hne & ->).
      rewrite retype_objects in Hre' |- * by done.
      simpl. rewrite imap_snd, mapM_again by done. done.
Qed.

Lemma set_again wantTy xs vals w :
  mapM (ApplyDefaults content) xs = Some vals →
  rebuild_set wantTy vals = Some w →
  (_ ← LengthInt w; elems ← ElementIterator w;
   vals' ← mapM (ApplyDefaults content) elems.*2; rebuild_set wantTy vals')
  = Some w.
Proof.
  intros HmapM Hre.
  assert (Hfix : Forall fixed vals).
  { eapply mapM_outputs; [|done]. apply outputs_fixed. }
  assert (Hobj : Forall is_ObjectVal vals).
  { eapply Forall_impl; [done|]. by intros ? []. }
  pose proof Hre as Hre'. unfold rebuild_set in Hre.
  case_decide as Hlen.
  - destruct (ElementType wantTy) as [ety|] eqn:Hety; simplify_eq/=.
    destruct vals; [|done]. simpl. done.
  - apply SetVal_Some in Hre as (ety & Hu & Hne & ->).
    rewrite retype_objects by done.
    destruct (SetVal_again vals ety Hobj Hne Hu) as (Hne2 & Hsub & Hagain).
    assert (Hfix2 : Forall fixed (set_from_slice vals)).
    { rewrite Forall_forall in *. auto. }
    simpl. rewrite pair_snd, mapM_again by done. simpl.
    unfold rebuild_set. rewrite decide_False; [done|].
    by destruct (set_from_slice vals).
Qed.

Lemma map_again wantTy elems vals w :
  collect_map (ApplyDefaults content) elems = Some vals →
  rebuild_map wantTy vals = Some w →
  (_ ← LengthInt w; elems' ← ElementIterator w;
   vals' ← collect_map (ApplyDefaults content) elems'; rebuild_map wantTy vals')
  = Some w.
Proof.
  intros Hcol Hre.
  assert (Hfix : map_Forall (λ _, fixed) vals).
  { eapply collect_map_Forall; [|apply outputs_fixed|apply Hcol].
    apply map_Forall_empty. }
  assert (Hobj : map_Forall (λ _, is_ObjectVal) vals).
  { eapply map_Forall_impl; [done|]. by intros ?? []. }
  assert (Hagain : collect_map (ApplyDefaults content)
                     ((λ kv, (StringVal kv.1, kv.2)) <$> map_to_list vals)
                   = Some vals).
  { apply collect_map_fixed. eapply map_Forall_impl; [exact Hfix|]. by intros ?? []. }
  pose proof Hre as Hre'. unfold rebuild_map in Hre.
  destruct (negb (IsMapType wantTy)) eqn:Hty.
  - simplify_eq. simpl. rewrite Hagain. done.
  - case_decide as Hlen.
    + destruct (ElementType wantTy) as [ety|] eqn:Hety; simplify_eq/=.
      apply map_size_empty_iff in Hlen as ->.
      rewrite map_to_list_empty. simpl. done.
    + apply MapVal_Some in Hre as (ety & Hne & ->).
      rewrite retype_objects_map in Hre' |- * by done.
      simpl. rewrite Hagain. done.
Qed.

End nested_idem.

Lemma Nested_ApplyDefaults_idem nb :
  (∀ v w, ApplyDefaults (Content nb) v = Some w →
          ApplyDefaults (Content nb) w = Some w) →
  ∀ v w, NestedBlockType_ApplyDefaults nb v = Some w →
         NestedBlockType_ApplyDefaults nb w = Some w.
Proof.
  destruct nb as [nesting content mx mn]. simpl Content. intros IH v w.
  rewrite !Nested_ApplyDefaults_unfold.
  generalize (impliedCtyType (mkNestedBlockType nesting content mx mn)).
  intros wantTy. cbv zeta. destruct nesting; [done| | | |].
  - destruct (IsNull v) eqn:Hv.
    + intros [= <-]. by rewrite Hv.
    + intros H. pose proof (ApplyDefaults_object _ _ _ H) as [m ->].
      simpl. eauto.
  - intros H. simplify_option_eq. eapply list_again; eauto.
  - intros H. simplify_option_eq. eapply map_again; eauto.
  - intros H. simplify_option_eq. eapply set_again; eauto.
Qed.

(** Every result of [ApplyDefaults] is a fixed point of it.  A name that
    is both an attribute and a nested block type keeps the block's value,
    which the attribute loop can default again without a panic. *)
Lemma ApplyDefaults_fixed_point b :
  ∀ v w, ApplyDefaults b v = Some w → ApplyDefaults b w = Some w.
Proof.
  induction b as [attrs blocks IH] using BlockType_nested_ind.
  intros v w. rewrite !ApplyDefaults_unfold. intros Hw.
  destruct (map_range attrs _) as [attr_vals|] eqn:Hattrs; [|done].
  destruct (map_range (_ <$> blocks) _) as [block_vals|] eqn:Hblocks; [|done].
  simpl in Hw. injection Hw as <-.
  assert (Hblocks' :
    map_range (NestedBlockType_ApplyDefaults <$> blocks)
      (λ name f, GetAttr (ObjectVal (block_vals ∪ attr_vals)) name ≫= f)
    = Some block_vals).
  { apply map_range_Some. intros k. rewrite lookup_fmap.
    destruct (blocks !! k) as [nb|] eqn:Hk; simpl.
    - destruct (map_range_lookup _ _ _ k (NestedBlockType_ApplyDefaults nb)
                  Hblocks) as (b & Hb & Hbk).
      { by rewrite lookup_fmap, Hk. }
      exists b. split; [|done].
      rewrite GetAttr_object, (lookup_union_Some_l _ _ _ b) by done. simpl.
      destruct (GetAttr v k) as [gv|]; [|done]. simpl in Hb.
      eapply Nested_ApplyDefaults_idem; [|done]. apply (IH k nb Hk).
    - eapply map_range_lookup_None; [done|]. by rewrite lookup_fmap, Hk. }
  destruct (map_range_is_Some attrs
              (λ name attrS, GetAttr (ObjectVal (block_vals ∪ attr_vals)) name
                             ≫= attr_default attrS)) as [attr_vals' Hattrs'].
  { intros k attrS Hk.
    destruct (map_range_lookup _ _ _ k attrS Hattrs Hk) as (a & Ha & Hak).
    destruct (GetAttr v k) as [gv|] eqn:Hgv; [|done]. simpl in Ha.
    rewrite GetAttr_object, lookup_union.
    destruct (block_vals !! k) as [b|] eqn:Hbk; rewrite Hak; simpl.
    - destruct (map_range_lookup_inv _ _ _ k b Hblocks Hbk) as (f & Hf & Hb).
      rewrite lookup_fmap in Hf.
      destruct (blocks !! k) as [nb|]; [|done]. simpl in Hf. injection Hf as <-.
      rewrite Hgv in Hb. simpl in Hb.
      eapply attr_default_is_Some; [|by rewrite Ha].
      by eapply Nested_ApplyDefaults_null.
    - rewrite (attr_default_idem _ _ _ Ha). eauto. }
  rewrite Hattrs', Hblocks'. simpl. do 2 f_equal.
  apply map_eq. intros k. rewrite !lookup_union.
  destruct (block_vals !! k) as [b|] eqn:Hbk.
  { by destruct (attr_vals' !! k), (attr_vals !! k). }
  rewrite !(left_id_L None _).
  destruct (attrs !! k) as [attrS|] eqn:Hk.
  - destruct (map_range_lookup _ _ _ k attrS Hattrs Hk) as (a & Ha & Hak).
    destruct (map_range_lookup _ _ _ k attrS Hattrs' Hk) as (a' & Ha' & Hak').
    rewrite Hak, Hak'. f_equal.
    rewrite GetAttr_object, lookup_union, Hbk, Hak in Ha'. simpl in Ha'.
    destruct (GetAttr v k) as [gv|]; [|done]. simpl in Ha.
    rewrite (attr_default_idem _ _ _ Ha) in Ha'. congruence.
  - rewrite (map_range_lookup_None _ _ _ k Hattrs Hk).
    by rewrite (map_range_lookup_None _ _ _ k Hattrs' Hk).
Qed.

(** ** Default application to conforming objects

    On an object that conforms to a correctly specified schema
    [ApplyDefaults] does not panic, and its result conforms again. *)

Lemma map_existsb_false (m : gmap string bool) :
  map_existsb m = false ↔ map_Forall (λ _ b, b = false) m.
Proof.
  unfold map_existsb.
  apply (map_fold_weak_ind (λ acc m, acc = false ↔ map_Forall (λ _ b, b = false) m)).
  - split; [intros _; apply map_Forall_empty|done].
  - intros k b m' acc Hk IH. rewrite map_Forall_insert by done.
    rewrite orb_false_iff, IH. done.
Qed.

Lemma static_lookup atys k t : static (TObject atys) → atys !! k = Some t → static t.
Proof.
  unfold static. simpl. rewrite map_existsb_false. intros H Hk.
  apply (H k). by rewrite lookup_fmap, Hk.
Qed.

Lemma Ty_size_lookup (atys : gmap string Ty) k t :
  atys !! k = Some t → Ty_size t < Ty_size (TObject atys).
Proof.
  intros Hk. simpl.
  assert (Ty_size t ≤ map_sum (Ty_size <$> atys)); [|lia].
  apply (map_sum_lookup _ k). by rewrite lookup_fmap, Hk.
Qed.

Lemma Ty_nested_ind (P : Ty → Prop) :
  P NilType → P TString → P TNumber → P TBool → P DynamicPseudoType →
  (∀ ety, P ety → P (TList ety)) → (∀ ety, P ety → P (TSet ety)) →
  (∀ ety, P ety → P (TMap ety)) →
  (∀ atys, map_Forall (λ _, P) atys → P (TObject atys)) →
  (∀ etys, Forall P etys → P (TTuple etys)) →
  ∀ ty, P ty.
Proof.
  intros Hnil Hs Hn Hb Hd Hl Hset Hm Ho Ht ty.
  remember (Ty_size ty) as n eqn:Hsz. revert ty Hsz.
  induction n as [n IHn] using lt_wf_ind. intros ty ->.
  destruct ty; auto.
  - apply Hl. eapply IHn; [|reflexivity]. simpl. lia.
  - apply Hset. eapply IHn; [|reflexivity]. simpl. lia.
  - apply Hm. eapply IHn; [|reflexivity]. simpl. lia.
  - apply Ho. intros k t Hk. eapply IHn; [|reflexivity]. by eapply Ty_size_lookup.
  - apply Ht. apply Forall_forall. intros t Hin. eapply IHn; [|reflexivity].
    simpl. assert (Ty_size t ≤ sum_list (Ty_size <$> etys)); [|lia].
    apply sum_list_elem_of, list_elem_of_fmap. eauto.
Qed.

Lemma Ty_eqb_refl ty : Ty_eqb ty ty = true.
Proof.
  induction ty as [| | | | |ety IH|ety IH|ety IH|atys IH|etys IH]
    using Ty_nested_ind; simpl; auto.
  - rewrite Nat.eqb_refl. simpl. apply map_forallb_true. intros k b.
    rewrite map_lookup_imap, lookup_fmap.
    destruct (atys !! k) as [t|] eqn:Hk; simpl; [|done].
    intros [= <-]. by apply (IH k).
  - rewrite Nat.eqb_refl. simpl. induction IH as [|t l Ht _ IHl]; simpl; [done|].
    by rewrite Ht.
Qed.

(** Elements that all have the same, non-dynamic type unify at it. *)
Lemma unify_types_same t (vals : list Value) :
  IsDynamic t = false → vals ≠ [] → Forall (λ v, type_of v = t) vals →
  unify_types (type_of <$> vals) = Some t.
Proof.
  intros Ht Hne Hall. destruct vals as [|v vals]; [done|].
  inversion Hall as [|? ? Hv Hrest]; subst. csimpl.
  rewrite unify_types_cons by done.
  assert (forallb (λ u, IsDynamic u || Ty_eqb (type_of v) u) (type_of <$> vals) = true)
    as ->; [|done].
  apply forallb_Forall, Forall_fmap. eapply Forall_impl; [exact Hrest|].
  simpl. intros w ->. by rewrite Ty_eqb_refl, orb_true_r.
Qed.

Section same_type.
Context (t : Ty) (Ht : IsDynamic t = false).

Lemma ListVal_same vals :
  vals ≠ [] → Forall (λ v, type_of v = t) vals → Forall is_ObjectVal vals →
  ListVal vals = Some (RawList t vals).
Proof.
  intros Hne Hty Hobj. unfold ListVal. rewrite (unify_types_same t) by done.
  simpl. rewrite retype_objects by done. by destruct vals.
Qed.

Lemma SetVal_same vals :
  vals ≠ [] → Forall (λ v, type_of v = t) vals → Forall is_ObjectVal vals →
  SetVal vals = Some (RawSet t (set_from_slice vals)).
Proof.
  intros Hne Hty Hobj. unfold SetVal. rewrite (unify_types_same t) by done.
  simpl. rewrite retype_objects by done. by destruct vals.
Qed.

Lemma MapVal_same (vals : gmap string Value) :
  vals ≠ ∅ → map_Forall (λ _ v, type_of v = t) vals →
  map_Forall (λ _, is_ObjectVal) vals →
  MapVal vals = Some (RawMap t vals).
Proof.
  intros Hne Hty Hobj. unfold MapVal. rewrite decide_False by done.
  rewrite (unify_types_same t); [|done| |].
  - simpl. by rewrite retype_objects_map.
  - intros Hnil. apply fmap_nil_inv in Hnil. by apply map_to_list_empty_iff in Hnil.
  - apply Forall_fmap, Forall_forall. intros [k v] Hkv.
    apply elem_of_map_to_list in Hkv. by apply (Hty k).
Qed.

End same_type.

Lemma conforms_is_object b v : conforms b v → is_ObjectVal v.
Proof. destruct 1. by eexists. Qed.

Lemma ImpliedCtyType_not_dynamic b : IsDynamic (ImpliedCtyType b) = false.
Proof. by destruct b. Qed.

Section nested_conforming.
Context (content : BlockType).
Hypothesis content_total :
  ∀ v, conforms content v →
       ∃ w, ApplyDefaults content v = Some w ∧ conforms_typed content w.

Lemma mapM_conforming l :
  Forall (conforms content) l →
  ∃ vals, mapM (ApplyDefaults content) l = Some vals ∧
          Forall (conforms_typed content) vals.
Proof.
  induction 1 as [|v l Hv _ (vals & Hvals & Hall)].
  - by exists [].
  - destruct (content_total v Hv) as (w & Hw & Hgood).
    exists (w :: vals). split; [|by constructor].
    apply mapM_Some_2. constructor; [done|]. by apply mapM_Some_1.
Qed.

Lemma collect_conforming (m : gmap string Value) :
  map_Forall (λ _, conforms content) m →
  ∃ vals, collect_map (ApplyDefaults content)
            ((λ kv, (StringVal kv.1, kv.2)) <$> map_to_list m) = Some vals ∧
          map_Forall (λ _, conforms_typed content) vals.
Proof.
  intros Hm. unfold collect_map.
  assert (Hl : Forall (λ kv, conforms content kv.2) (map_to_list m)).
  { apply Forall_forall. intros [k v] Hkv. apply elem_of_map_to_list in Hkv.
    by apply (Hm k). }
  assert (Hacc : map_Forall (λ _, conforms_typed content) (∅ : gmap string Value))
    by apply map_Forall_empty.
  revert Hl Hacc. generalize (∅ : gmap string Value) as acc.
  induction (map_to_list m) as [|[k v] l IH]; intros acc Hl Hacc; csimpl.
  - eauto.
  - inversion Hl as [|? ? Hv Hrest]; subst. simpl in Hv.
    destruct (content_total v Hv) as (w & Hw & Hgood). rewrite Hw. simpl.
    apply IH; [done|]. by apply map_Forall_insert_2.
Qed.

Lemma results_typed vals :
  static (ImpliedCtyType content) → Forall (conforms_typed content) vals →
  Forall (λ v, type_of v = ImpliedCtyType content) vals ∧
  Forall is_ObjectVal vals ∧ Forall (conforms content) vals.
Proof.
  intros Hst Hall. repeat split; (eapply Forall_impl; [exact Hall|]);
    intros w [Hw Hty]; eauto using conforms_is_object.
Qed.

Lemma Nested_ApplyDefaults_conforming nesting mx mn bv :
  let nb := mkNestedBlockType nesting content mx mn in
  (nesting = NestingSet → static (ImpliedCtyType content)) →
  conforms_nested nb bv →
  ∃ w, NestedBlockType_ApplyDefaults nb bv = Some w ∧ conforms_nested nb w ∧
       (static (impliedCtyType nb) → type_of w = impliedCtyType nb).
Proof.
  intros nb Hset Hbv. subst nb. rewrite Nested_ApplyDefaults_unfold.
  inversion Hbv as [| ? ? ? v Hv | ? ? ? l Hst Hl | ? ? ? l Hdyn Hl
                    | ? ? ? l Hl | ? ? ? m Hst Hm | ? ? ? m Hdyn Hm]; subst; simpl.
  - (* a single block that is absent *)
    eexists. split; [done|]. split; [constructor|done].
  - (* a single block *)
    destruct (conforms_is_object _ _ Hv) as [m ->]. simpl.
    destruct (content_total _ Hv) as (w & Hw & Hgood & Hty).
    exists w. split; [done|]. split; [by constructor|done].
  - (* a list of blocks *)
    unfold static in Hst. rewrite Hst. unfold LengthInt. simpl. rewrite imap_snd.
    destruct (mapM_conforming l Hl) as (vals & -> & Hvals). simpl.
    destruct (results_typed vals Hst Hvals) as (Hty & Hobj & Hconf).
    unfold rebuild_list. simpl. case_decide as Hlen.
    + destruct vals; [|done]. eexists. split; [done|].
      split; [by constructor|done].
    + rewrite (ListVal_same (ImpliedCtyType content));
        [|apply ImpliedCtyType_not_dynamic|by destruct vals|done|done].
      eexists. split; [done|]. split; [by constructor|done].
  - (* a list of blocks whose content is not static *)
    unfold static in Hdyn. apply not_false_is_true in Hdyn. rewrite Hdyn.
    unfold LengthInt. simpl. rewrite imap_snd.
    destruct (mapM_conforming l Hl) as (vals & -> & Hvals). simpl.
    unfold rebuild_list. simpl. eexists. split; [done|]. split; [|done].
    apply conforms_list_dynamic; [unfold static; congruence|].
    eapply Forall_impl; [exact Hvals|]. by intros w [Hw _].
  - (* a set of blocks *)
    specialize (Hset eq_refl). pose proof Hset as Hst.
    unfold static in Hst. rewrite Hst. unfold LengthInt. simpl. rewrite pair_snd.
    destruct (mapM_conforming l Hl) as (vals & -> & Hvals). simpl.
    destruct (results_typed vals Hset Hvals) as (Hty & Hobj & Hconf).
    unfold rebuild_set. simpl. case_decide as Hlen.
    + eexists. split; [done|]. split; [by constructor|done].
    + rewrite (SetVal_same (ImpliedCtyType content));
        [|apply ImpliedCtyType_not_dynamic|by destruct vals|done|done].
      eexists. split; [done|]. split; [|done]. constructor.
      apply Forall_forall. intros x Hx. apply set_from_slice_subset in Hx.
      by eapply Forall_forall in Hconf.
  - (* a map of blocks *)
    unfold static in Hst. rewrite Hst. unfold LengthInt. simpl.
    destruct (collect_conforming m Hm) as (vals & -> & Hvals). simpl.
    unfold rebuild_map. simpl. case_decide as Hlen.
    + eexists. split; [done|]. split; [by constructor|done].
    + rewrite (MapVal_same (ImpliedCtyType content));
        [|apply ImpliedCtyType_not_dynamic|by intros ->| |].
      * eexists. split; [done|]. split; [|done]. constructor; [done|].
        intros k v Hk. by destruct (Hvals k v Hk).
      * intros k v Hk. destruct (Hvals k v Hk) as [_ Hv]. by apply Hv.
      * intros k v Hk. destruct (Hvals k v Hk) as [Hv _].
        by eapply conforms_is_object.
  - (* a map of blocks whose content is not static *)
    unfold static in Hdyn. apply not_false_is_true in Hdyn. rewrite Hdyn.
    unfold LengthInt. simpl.
    destruct (collect_conforming m Hm) as (vals & -> & Hvals). simpl.
    unfold rebuild_map. simpl. eexists. split; [done|]. split; [|done].
    apply conforms_map_dynamic; [unfold static; congruence|].
    intros k v Hk. by destruct (Hvals k v Hk).
Qed.

End nested_conforming.

Lemma map_range_total {A B} (m : gmap string A) (body : string → A → option B)
    (Q : string → A → B → Prop) :
  (∀ k a, m !! k = Some a → ∃ b, body k a = Some b ∧ Q k a b) →
  ∃ r, map_range m body = Some r ∧
       (∀ k a, m !! k = Some a → ∃ b, r !! k = Some b ∧ Q k a b) ∧
       (∀ k, m !! k = None → r !! k = None).
Proof.
  intros H. destruct (map_range_is_Some m body) as [r Hr].
  { intros k a Hk. destruct (H k a Hk) as (b & Hb & _). eauto. }
  exists r. split; [done|]. split.
  - intros k a Hk. destruct (map_range_lookup _ _ _ _ _ Hr Hk) as (b & Hb & Hrk).
    destruct (H k a Hk) as (b' & Hb' & HQ). exists b. split; [done|]. congruence.
  - intros k Hk. by eapply map_range_lookup_None.
Qed.

(** What the attribute loop makes of a value of the attribute's type has
    the attribute's type again. *)
Lemma attr_default_typed attrS gv :
  default_ok attrS → (static (Type_ attrS) → type_of gv = Type_ attrS) →
  ∃ b, attr_default attrS gv = Some b ∧
       (static (Type_ attrS) → type_of b = Type_ attrS).
Proof.
  unfold attr_default, default_ok, DefaultValue. intros Hd Hgv.
  destruct (IsNull gv); [|eauto].
  destruct (Computed attrS); [eauto|].
  destruct (Default attrS) as [toCtyValue|]; eauto.
Qed.

(** [ApplyDefaults] returns on every object that conforms to a correctly
    specified schema; the result conforms to the schema, and has the
    schema's type when that type is static. *)
Theorem ApplyDefaults_conforming b v :
  schema_ok b → conforms b v →
  ∃ w, ApplyDefaults b v = Some w ∧ conforms b w ∧
       (static (ImpliedCtyType b) → type_of w = ImpliedCtyType b).
Proof.
  revert v. induction b as [attrs blocks IH] using BlockType_nested_ind.
  intros v Hok Hv.
  inversion Hok as [? ? Hattrs Hblocks]; subst.
  inversion Hv as [? ? m Hma Hmb]; subst.
  rewrite ApplyDefaults_unfold.
  destruct (map_range_total attrs
              (λ name attrS, GetAttr (ObjectVal m) name ≫= attr_default attrS)
              (λ _ attrS b, static (Type_ attrS) → type_of b = Type_ attrS))
    as (attr_vals & -> & HA & HAnone).
  { intros k a Hk. destruct (Hma k a Hk) as (gv & Hgv & Hty).
    rewrite GetAttr_object, Hgv. simpl. apply attr_default_typed; [|done].
    by destruct (Hattrs k a Hk). }
  destruct (map_range_total (NestedBlockType_ApplyDefaults <$> blocks)
              (λ name blockS_ApplyDefaults,
                 GetAttr (ObjectVal m) name ≫= blockS_ApplyDefaults)
              (λ name _ b, ∃ nb, blocks !! name = Some nb ∧ conforms_nested nb b ∧
                 (static (impliedCtyType nb) → type_of b = impliedCtyType nb)))
    as (block_vals & -> & HB & HBnone).
  { intros k f. rewrite lookup_fmap.
    destruct (blocks !! k) as [nb|] eqn:Hk; simpl; [|done]. intros [= <-].
    destruct (Hmb k nb Hk) as (bv & Hbv & Hconf).
    rewrite GetAttr_object, Hbv. simpl.
    destruct (Hblocks k nb Hk) as (Hset & Hcontent).
    pose proof (IH k nb Hk) as IHk.
    destruct nb as [nesting content mx mn]. simpl in *.
    destruct (Nested_ApplyDefaults_conforming content) with (2 := Hset) (3 := Hconf)
      as (w & Hw & Hcw & Hty).
    { intros v' Hv'. destruct (IHk v' Hcontent Hv') as (w & Hw & Hcw & Hty).
      exists w. by repeat split. }
    exists w. split; [done|]. eauto. }
  simpl. eexists. split; [done|].
  assert (HB' : ∀ k nb, blocks !! k = Some nb →
            ∃ b, block_vals !! k = Some b ∧ conforms_nested nb b ∧
                 (static (impliedCtyType nb) → type_of b = impliedCtyType nb)).
  { intros k nb Hk.
    destruct (HB k (NestedBlockType_ApplyDefaults nb)) as (b & Hb & nb' & Hk' & H').
    { by rewrite lookup_fmap, Hk. }
    exists b. split; [done|]. congruence. }
  assert (HBnone' : ∀ k, blocks !! k = None → block_vals !! k = None).
  { intros k Hk. apply HBnone. by rewrite lookup_fmap, Hk. }
  split.
  - constructor.
    + intros name attrS Hname. destruct (HA name attrS Hname) as (b & Hb & Hty).
      exists b. split; [|done].
      destruct (Hattrs name attrS Hname) as [_ Hnone].
      by rewrite lookup_union_r by auto.
    + intros name nb Hname. destruct (HB' name nb Hname) as (b & Hb & Hcb & _).
      exists b. split; [|done]. by apply lookup_union_Some_l.
  - intros Hst. simpl in *. f_equal. apply map_eq. intros k.
    rewrite lookup_fmap, !lookup_union, !lookup_fmap.
    destruct (blocks !! k) as [nb|] eqn:Hk.
    + destruct (HB' k nb Hk) as (b & -> & _ & Hty).
      assert (type_of b = impliedCtyType nb) as Hb.
      { apply Hty, (static_lookup _ k _ Hst).
        rewrite lookup_union, !lookup_fmap, Hk. by destruct (attrs !! k). }
      destruct (attr_vals !! k), (attrs !! k); simpl; by rewrite Hb.
    + rewrite (HBnone' k Hk). simpl.
      destruct (attrs !! k) as [a|] eqn:Ha.
      * destruct (HA k a Ha) as (b & -> & Hty). simpl. rewrite Hty; [done|].
        apply (static_lookup _ k _ Hst).
        by rewrite lookup_union, !lookup_fmap, Hk, Ha.
      * by rewrite (HAnone k Ha).
Qed.

(** Defaulting the example configuration succeeds: the computed [id]
    becomes unknown, and so does the computed [c] of every nested block. *)
Example ApplyDefaults_config_obj :
  is_Some (ApplyDefaults resource config_obj)
  ∧ GetAttr planned_obj "id" = Some (UnknownVal TString)
  ∧ GetAttr planned_obj "rule"
    = Some (RawMap (ImpliedCtyType inner)
              {[ "http" := ObjectVal {[ "v" := StringVal "a";
                                        "c" := UnknownVal TString ]} ]}).
Proof. repeat split; vm_compute; eauto. Qed.

(** The example schema is correctly specified and the example
    configuration conforms to it. *)
Lemma map_Forall_list {A} (P : string → A → Prop) (m : gmap string A) :
  Forall (λ kv, P kv.1 kv.2) (map_to_list m) → ∀ k a, m !! k = Some a → P k a.
Proof.
  intros H k a Hk. apply elem_of_map_to_list in Hk.
  by apply (proj1 (Forall_forall _ _) H (k, a)).
Qed.

Ltac each_entry :=
  lazymatch goal with
  | |- map_Forall ?P ?m => refine (map_Forall_list P m _)
  | |- ∀ k a, ?m !! k = Some a → @?P k a => refine (map_Forall_list P m _)
  end;
  lazymatch goal with
  | |- Forall _ (map_to_list ?m) =>
      let l := eval vm_compute in (map_to_list m) in
      change (map_to_list m) with l
  end;
  repeat first [apply Forall_nil_2 | apply Forall_cons_2]; simpl.

(** An equation between closed terms, decided by evaluating both sides. *)
Ltac by_vm :=
  lazymatch goal with |- ?l = ?r => exact (@eq_refl _ r <: l = r) end.

Lemma schema_ok_inner : schema_ok inner.
Proof.
  constructor.
  - each_entry; done.
  - apply map_Forall_empty.
Qed.

Lemma schema_ok_resource : schema_ok resource.
Proof.
  constructor.
  - each_entry; try done. unfold default_ok. simpl. eauto.
  - each_entry; (split; [intros _; by vm_compute|exact schema_ok_inner]).
Qed.

Lemma conforms_element v : type_of v = TString → conforms inner (element v).
Proof.
  intros Hv. constructor.
  - each_entry; eexists; (split; [reflexivity|done]).
  - intros name nb Hname. by rewrite lookup_empty in Hname.
Qed.

Lemma conforms_config_obj : conforms resource config_obj.
Proof.
  constructor.
  - each_entry; eexists; (split; [reflexivity|done]).
  - each_entry; eexists; (split; [reflexivity|]);
      first [ apply (conforms_map inner); [done|]; each_entry
            | apply (conforms_list inner); [done|]
            | apply (conforms_set inner) ];
      repeat first [apply Forall_nil_2 | apply Forall_cons_2];
      by apply conforms_element.
Qed.

Example ApplyDefaults_conforming_config_obj :
  ∃ w, ApplyDefaults resource config_obj = Some w ∧ conforms resource w ∧
       type_of w = ImpliedCtyType resource.
Proof.
  destruct (ApplyDefaults_conforming resource config_obj)
    as (w & Hw & Hconf & Hty);
    [apply schema_ok_resource|apply conforms_config_obj|].
  exists w. repeat split; [done..|]. by apply Hty.
Qed.

(** C4. For every schema [S] and object value [V], applying the defaults
    to the result of applying the defaults gives that result again:
    [applyDefaults(S, applyDefaults(S, V)) = applyDefaults(S, V)].  The
    equation covers every [V], conforming or not; where the first
    application panics both sides are the panic, and on a conforming [V]
    it does not panic ([ApplyDefaults_conforming]). *)
Theorem ApplyDefaults_idempotent (S : BlockType) (V : Value) :
  ApplyDefaults S V ≫= ApplyDefaults S = ApplyDefaults S V.
Proof.
  destruct (ApplyDefaults S V) as [W|] eqn:HW; [|done]. simpl.
  by eapply ApplyDefaults_fixed_point.
Qed.

(** C5. When [ApplyDefaults] returns [r] for the object [given], every
    declared attribute (of a name that is not also a nested block type) is
    present in [given], and its value in [r] is: for a null value of a
    computed attribute, the unknown value of the attribute's type; for a
    null value of another attribute, the static default, which is the null
    of the attribute's type when no default is declared; and the given
    value itself when it is not null. *)
Theorem ApplyDefaults_attribute (b : BlockType) (given r : Value)
    (name : string) (attrS : Attribute) :
  ApplyDefaults b given = Some r →
  Attributes b !! name = Some attrS →
  NestedBlockTypes b !! name = None →
  ∃ gv, GetAttr given name = Some gv ∧
        GetAttr r name =
          if IsNull gv then
            if Computed attrS then Some (UnknownVal (Type_ attrS))
            else match Default attrS with
                 | None => Some (NullVal (Type_ attrS))
                 | Some toCtyValue => toCtyValue (Type_ attrS)
                 end
          else Some gv.
Proof.
  destruct b as [attrs blocks]. rewrite ApplyDefaults_unfold. simpl.
  intros Hr Hattr Hblock.
  destruct (map_range attrs _) as [attr_vals|] eqn:Hattrs; [|done].
  destruct (map_range (_ <$> blocks) _) as [block_vals|] eqn:Hblocks; [|done].
  simpl in Hr. injection Hr as <-.
  destruct (map_range_lookup _ _ _ name attrS Hattrs Hattr) as (a & Ha & Hak).
  destruct (GetAttr given name) as [gv|]; [|done]. simpl in Ha.
  exists gv. split; [done|].
  rewrite GetAttr_object, lookup_union.
  rewrite (map_range_lookup_None _ _ _ name Hblocks), Hak
    by (by rewrite lookup_fmap, Hblock).
  rewrite (left_id_L None _), <-Ha. unfold attr_default, DefaultValue.
  by destruct (IsNull gv), (Computed attrS).
Qed.

Lemma ApplyDefaults_attribute_witness :
  ∃ gv, GetAttr config_obj "id" = Some gv ∧
        GetAttr planned_obj "id" =
          if IsNull gv then Some (UnknownVal TString) else Some gv.
Proof.
  apply (ApplyDefaults_attribute resource config_obj planned_obj "id"
           (attribute TString false false true None));
    vm_compute; reflexivity.
Defined.

(** ** Validation *)

Section validate_facts.
Variable Convert : Value → Ty → Value + string.

Lemma Validate_unfold attrs blocks val :
  Validate Convert (mkBlockType attrs blocks) val =
  if negb (IsObjectType (type_of val)) then
    Some [mkDiagnostic Error "Invalid block object"
                       "An object value is required to represent this block." []]
  else
    attr_diags ← map_range attrs
      (λ name attrS,
         av ← GetAttr val name;
         Some (UnderPath (Attribute_Validate Convert attrS av) (Path_GetAttr [] name)));
    block_diags ← map_range (validate_block Convert <$> blocks)
      (λ name blockS_validate, GetAttr val name ≫= blockS_validate name);
    Some (mjoin (map_to_list attr_diags).*2 ++ mjoin (map_to_list block_diags).*2).
Proof. reflexivity. Qed.


Lemma UnderPath_elem_of diags base d :
  d ∈ diags → under base d ∈ UnderPath diags base.
Proof. intros Hd. unfold UnderPath. apply list_elem_of_fmap. by exists d. Qed.

(** The diagnostics of an element are all there, under the element's
    path. *)
Lemma validate_elems_elem_of validate elemPath elems ds ek ev :
  validate_elems validate elemPath elems = Some ds →
  (ek, ev) ∈ elems →
  ∃ blockDiags, validate ev = Some blockDiags ∧
    ∀ d, d ∈ blockDiags → under (elemPath ek) d ∈ ds.
Proof.
  unfold validate_elems. intros Hds Hin.
  destruct (mapM _ elems) as [dss|] eqn:HmapM; [|done].
  simpl in Hds. injection Hds as <-.
  apply mapM_Some_1 in HmapM.
  induction HmapM as [|[k v] y l k' Hy _ IHl]; [by apply elem_of_nil in Hin|].
  apply elem_of_cons in Hin as [[= <- <-]|Hin].
  - simpl in Hy. destruct (validate ev) as [blockDiags|]; [|done].
    simpl in Hy. injection Hy as <-.
    exists blockDiags. split; [done|]. intros d Hd. csimpl.
    apply elem_of_app. left. by apply UnderPath_elem_of.
  - destruct (IHl Hin) as (blockDiags & Hv & Hall).
    exists blockDiags. split; [done|]. intros d Hd. csimpl.
    apply elem_of_app. right. auto.
Qed.

(** The diagnostics of a nested block type are part of the result. *)
Lemma Validate_block_diags b val diags name nb av :
  Validate Convert b val = Some diags →
  IsObjectType (type_of val) = true →
  NestedBlockTypes b !! name = Some nb →
  GetAttr val name = Some av →
  ∃ ds, validate_block Convert nb name av = Some ds ∧ ∀ d, d ∈ ds → d ∈ diags.
Proof.
  destruct b as [attrs blocks]. rewrite Validate_unfold. simpl NestedBlockTypes.
  intros Hv Hobj Hnb Hav. rewrite Hobj in Hv. simpl in Hv.
  destruct (map_range attrs _) as [attr_diags|]; [|done]. simpl in Hv.
  destruct (map_range (_ <$> blocks) _) as [block_diags|] eqn:Hblocks; [|done].
  simpl in Hv. injection Hv as <-.
  destruct (map_range_lookup _ _ _ name (validate_block Convert nb) Hblocks)
    as (ds & Hds & Hlook).
  { by rewrite lookup_fmap, Hnb. }
  rewrite Hav in Hds. simpl in Hds. exists ds. split; [done|]. intros d Hd.
  apply elem_of_app. right. apply list_elem_of_join. exists ds. split; [done|].
  apply list_elem_of_fmap. exists (name, ds). split; [done|].
  by apply elem_of_map_to_list.
Qed.

End validate_facts.



Section validate_exact.
Variable Convert : Value → Ty → Value + string.



End validate_exact.



(** The missing [v] of the second [port] block is reported at the path
    of the block and the attribute, without a step for the element. *)
Example Validate_config_obj :
  Validate exact_convert resource config_obj
  = Some [mkDiagnostic Error "Missing required argument"
            "This argument is required." [GetAttrStep "port"; GetAttrStep "v"]].
Proof. vm_compute; reflexivity. Qed.

(** ** The apply driver *)

(** *** Nulling the unknowns in place *)

Lemma type_of_unknowns_nulled v : type_of (unknowns_nulled v) = type_of v.
Proof.
  induction v as [| | | | | |ety elems IH|ety elems IH|ety elems IH|attrs IH|elems IH]
    using Value_nested_ind; simpl; try done.
  - f_equal. rewrite <- map_fmap_compose. apply map_fmap_ext.
    intros k v Hk. by apply (IH k v).
  - f_equal. rewrite <- list_fmap_compose. apply list_fmap_ext.
    intros i v Hv. apply (proj1 (Forall_lookup _ _) IH i v Hv).
Qed.

Lemma retype_typed ety v : type_of v = ety → retype ety v = v.
Proof.
  intros <-. destruct v as [|ty|ty| | | | | | | |]; try done; by destruct ty.
Qed.

(** Elements that all have the same type unify at it. *)
Lemma unify_types_typed t (vals : list Value) :
  vals ≠ [] → Forall (λ v, type_of v = t) vals →
  unify_types (type_of <$> vals) = Some t.
Proof.
  destruct (IsDynamic t) eqn:Hd; [|by apply unify_types_same].
  assert (t = DynamicPseudoType) as -> by (by destruct t).
  intros _ Hall. unfold unify_types.
  induction Hall as [|v vals Hv _ IH]; csimpl; [done|]. by rewrite Hv.
Qed.

Lemma mapM_fmap_Some {A B} (f : A → option B) (g : A → B) (l : list A) :
  Forall (λ x, f x = Some (g x)) l → mapM f l = Some (g <$> l).
Proof.
  intros H. apply mapM_Some_2. induction H; constructor; done.
Qed.

Lemma fmap_retype_typed ety (l : list Value) :
  Forall (λ v, type_of v = ety) l → retype ety <$> l = l.
Proof.
  intros Hty. rewrite <- (list_fmap_id l) at 2. apply list_fmap_ext.
  intros i v Hv. apply retype_typed.
  apply (proj1 (Forall_lookup _ _) Hty i v Hv).
Qed.

Lemma nulled_typed ety (l : list Value) :
  Forall (λ v, type_of v = ety) l →
  Forall (λ v, type_of v = ety) (unknowns_nulled <$> l).
Proof.
  intros H. apply Forall_fmap. eapply Forall_impl; [exact H|].
  intros v Hv. simpl. by rewrite type_of_unknowns_nulled.
Qed.

(** On a well-formed value [UnknownAsNull] returns, and what it returns
    is the value with its unknowns nulled in place. *)
Lemma UnknownAsNull_in_place v :
  well_formed v → UnknownAsNull v = Some (unknowns_nulled v).
Proof.
  induction v as [| | | | | |ety elems IH|ety elems IH|ety elems IH|attrs IH|elems IH]
    using Value_nested_ind; intros Hwf; simpl; try done.
  - inversion Hwf as [| | | | | |? ? Hall Hty| | | |]; subst.
    case_decide as Hlen; [by destruct elems|].
    assert (elems ≠ []) as Hne by (by destruct elems).
    rewrite (mapM_fmap_Some _ unknowns_nulled).
    2: { apply Forall_forall. intros x Hx.
         apply (proj1 (Forall_forall _ _) IH x Hx),
               (proj1 (Forall_forall _ _) Hall x Hx). }
    simpl. unfold ListVal.
    destruct (unknowns_nulled <$> elems) as [|w ws] eqn:Hws;
      [by destruct elems|]. rewrite <- Hws.
    rewrite (unify_types_typed ety) by
      (auto using nulled_typed; by destruct elems).
    simpl. by rewrite fmap_retype_typed by auto using nulled_typed.
  - inversion Hwf as [| | | | | | |? ? Hall Hty Hok| | |]; subst.
    case_decide as Hlen; [by destruct elems|].
    assert (elems ≠ []) as Hne by (by destruct elems).
    rewrite (mapM_fmap_Some _ unknowns_nulled).
    2: { apply Forall_forall. intros x Hx.
         apply (proj1 (Forall_forall _ _) IH x Hx),
               (proj1 (Forall_forall _ _) Hall x Hx). }
    simpl. unfold SetVal.
    destruct (unknowns_nulled <$> elems) as [|w ws] eqn:Hws;
      [by destruct elems|]. rewrite <- Hws.
    rewrite (unify_types_typed ety) by
      (auto using nulled_typed; by destruct elems).
    simpl. by rewrite fmap_retype_typed by auto using nulled_typed.
  - inversion Hwf as [| | | | | | | |? ? Hall Hty| |]; subst.
    case_decide as Hlen.
    { apply map_size_empty_iff in Hlen as ->. by rewrite fmap_empty. }
    assert (elems ≠ ∅) as Hne by (by intros ->).
    assert (map_sequence (UnknownAsNull <$> elems) = Some (unknowns_nulled <$> elems))
      as ->.
    { apply map_sequence_Some. rewrite <- map_fmap_compose. apply map_fmap_ext.
      intros k x Hx. simpl. apply (IH k x Hx), (Hall k x Hx). }
    simpl. unfold MapVal. rewrite decide_False.
    2: { intros Hempty. apply fmap_empty_inv in Hempty. done. }
    assert (Forall (λ v, type_of v = ety)
                   (map_to_list (unknowns_nulled <$> elems)).*2) as Htys.
    { apply Forall_fmap, Forall_forall. intros [k w] Hin%elem_of_map_to_list.
      rewrite lookup_fmap in Hin. destruct (elems !! k) as [x|] eqn:Hx; [|done].
      injection Hin as <-.
      exact (eq_trans (type_of_unknowns_nulled x) (Hty k x Hx)). }
    rewrite (unify_types_typed ety); [| |done].
    2: { intros Hnil. apply fmap_nil_inv, map_to_list_empty_iff, fmap_empty_inv in Hnil.
         done. }
    simpl. f_equal. f_equal. rewrite <- (map_fmap_id (unknowns_nulled <$> elems)) at 2.
    apply map_fmap_ext. intros k w Hw. apply retype_typed.
    rewrite lookup_fmap in Hw. destruct (elems !! k) as [x|] eqn:Hx; [|done].
    injection Hw as <-.
    exact (eq_trans (type_of_unknowns_nulled x) (Hty k x Hx)).
  - inversion Hwf as [| | | | | | | | |? Hall|]; subst.
    case_decide as Hlen.
    { apply map_size_empty_iff in Hlen as ->. by rewrite fmap_empty. }
    assert (map_sequence (UnknownAsNull <$> attrs) = Some (unknowns_nulled <$> attrs))
      as ->; [|done].
    apply map_sequence_Some. rewrite <- map_fmap_compose. apply map_fmap_ext.
    intros k x Hx. simpl. apply (IH k x Hx), (Hall k x Hx).
  - inversion Hwf as [| | | | | | | | | |? Hall]; subst.
    case_decide as Hlen; [by destruct elems|].
    rewrite (mapM_fmap_Some _ unknowns_nulled); [done|].
    apply Forall_forall. intros x Hx.
    apply (proj1 (Forall_forall _ _) IH x Hx), (proj1 (Forall_forall _ _) Hall x Hx).
Qed.

Lemma list_fmap_fixed {A} (f : A → A) (l : list A) :
  Forall (λ x, f x = x) l → f <$> l = l.
Proof. intros H. induction H; csimpl; congruence. Qed.

Lemma nulled_fixed (elems : list Value) :
  Forall (λ v, well_formed v → IsWhollyKnown v = true → unknowns_nulled v = v) elems →
  Forall well_formed elems → forallb IsWhollyKnown elems = true →
  unknowns_nulled <$> elems = elems.
Proof.
  intros IH Hall Hk. apply list_fmap_fixed, Forall_forall. intros x Hx.
  apply (proj1 (Forall_forall _ _) IH x Hx);
    [apply (proj1 (Forall_forall _ _) Hall x Hx)|].
  apply Is_true_true_1.
  apply (proj1 (Forall_forall _ _)
           (proj1 (forallb_True _ _) (Is_true_true_2 _ Hk)) x Hx).
Qed.

(** A value without unknowns is left as it is. *)
Lemma unknowns_nulled_known v :
  well_formed v → IsWhollyKnown v = true → unknowns_nulled v = v.
Proof.
  induction v as [| | | | | |ety elems IH|ety elems IH|ety elems IH|attrs IH|elems IH]
    using Value_nested_ind; intros Hwf Hk; simpl in *; try done.
  - inversion Hwf as [| | | | | |? ? Hall _| | | |]; subst.
    by rewrite nulled_fixed.
  - inversion Hwf as [| | | | | | |? ? Hall _ Hok| | |]; subst.
    rewrite nulled_fixed by done.
    unfold set_from_slice. by rewrite (set_fold_fixed elems []).
  - inversion Hwf as [| | | | | | | |? ? Hall _| |]; subst. f_equal.
    rewrite <- (map_fmap_id elems) at 2. apply map_fmap_ext. intros k x Hx.
    apply (IH k x Hx); [apply (Hall k x Hx)|].
    apply (proj1 (map_forallb_true _) Hk k). by rewrite lookup_fmap, Hx.
  - inversion Hwf as [| | | | | | | | |? Hall|]; subst. f_equal.
    rewrite <- (map_fmap_id attrs) at 2. apply map_fmap_ext. intros k x Hx.
    apply (IH k x Hx); [apply (Hall k x Hx)|].
    apply (proj1 (map_forallb_true _) Hk k). by rewrite lookup_fmap, Hx.
  - inversion Hwf as [| | | | | | | | | |? Hall]; subst.
    by rewrite nulled_fixed.
Qed.

(** C8. [applyChange] replaces every unknown value inside the planned
    value by a null, in place, before it dispatches: for a well-formed
    planned value [UnknownAsNull] returns the planned value with its
    unknowns nulled, which holds no unknown value, has the type of the
    planned value and is the planned value itself when that held no
    unknown; and the callback that is called is the create callback on
    that value when the prior value is null, the delete callback on the
    prior value when the nulled planned value is null, and the update
    callback on the prior value and the nulled planned value otherwise,
    the result of [applyChange] being what the callback returns, nulls and
    unknowns given the type of the schema. *)
Theorem applyChange_unknowns_nulled (rt : managedResourceType)
    (prior planned : Value) :
  well_formed planned →
  let wantTy := ImpliedCtyType (configSchema rt) in
  ∃ planned',
    UnknownAsNull planned = Some planned' ∧
    planned' = unknowns_nulled planned ∧
    IsWhollyKnown planned' = true ∧
    type_of planned' = type_of planned ∧
    (IsWhollyKnown planned = true → planned' = planned) ∧
    (∀ call, IsNull prior = true → createFn rt = FnCall call →
       applyChange rt prior planned
       = Some (normalize_result wantTy (call [planned']).1, (call [planned']).2)) ∧
    (∀ call, IsNull prior = false → IsNull planned' = true →
       deleteFn rt = FnCall call →
       applyChange rt prior planned
       = Some (normalize_result wantTy (call [prior]).1, (call [prior]).2)) ∧
    (∀ call, IsNull prior = false → IsNull planned' = false →
       updateFn rt = FnCall call →
       applyChange rt prior planned
       = Some (normalize_result wantTy (call [prior; planned']).1,
               (call [prior; planned']).2)).
Proof.
  intros Hwf wantTy. exists (unknowns_nulled planned).
  pose proof (UnknownAsNull_in_place planned Hwf) as Hp.
  split; [done|]. split; [done|].
  split; [by apply (UnknownAsNull_wholly_known planned)|].
  split; [apply type_of_unknowns_nulled|].
  split; [by apply unknowns_nulled_known|].
  unfold applyChange. rewrite Hp. simpl. fold wantTy.
  split; [|split].
  - intros call -> ->. simpl. by destruct (call _).
  - intros call -> -> ->. simpl. by destruct (call _).
  - intros call -> -> ->. simpl. by destruct (call _).
Qed.

Lemma set_ok_two x y : Equivalent x y = false → set_ok [x; y].
Proof.
  intros Hxy [|[|i]] z Hz; simpl in Hz; [| |done]; injection Hz as <-; simpl;
    [done|by rewrite Hxy].
Qed.

(** Well-formedness of a closed value, by its constructors. *)
Ltac well_formed_closed :=
  lazymatch goal with
  | |- well_formed (ObjectVal _) =>
      apply well_formed_object; each_entry; well_formed_closed
  | |- well_formed (RawMap _ _) =>
      apply well_formed_map;
      [each_entry; well_formed_closed | each_entry; by_vm]
  | |- well_formed (RawList _ _) =>
      apply well_formed_list;
      [repeat first [apply Forall_nil_2 | apply Forall_cons_2]; well_formed_closed
      |repeat first [apply Forall_nil_2 | apply Forall_cons_2]; by_vm]
  | |- well_formed (RawSet _ _) =>
      apply well_formed_set;
      [repeat first [apply Forall_nil_2 | apply Forall_cons_2]; well_formed_closed
      |repeat first [apply Forall_nil_2 | apply Forall_cons_2]; by_vm
      |apply set_ok_two; by_vm]
  | |- well_formed _ => constructor
  end.

Lemma well_formed_planned_obj : well_formed planned_obj.
Proof.
  let v := eval vm_compute in planned_obj in change planned_obj with v.
  well_formed_closed.
Qed.

Lemma applyChange_unknowns_nulled_witness :
  ∃ planned',
    UnknownAsNull planned_obj = Some planned' ∧
    planned' = unknowns_nulled planned_obj ∧
    IsWhollyKnown planned' = true ∧
    type_of planned' = type_of planned_obj ∧
    (IsWhollyKnown planned_obj = true → planned' = planned_obj) ∧
    (∀ call, IsNull (NullVal DynamicPseudoType) = true →
       createFn (managed echo) = FnCall call →
       applyChange (managed echo) (NullVal DynamicPseudoType) planned_obj
       = Some (normalize_result (ImpliedCtyType resource) (call [planned']).1,
               (call [planned']).2)) ∧
    (∀ call, IsNull (NullVal DynamicPseudoType) = false → IsNull planned' = true →
       deleteFn (managed echo) = FnCall call →
       applyChange (managed echo) (NullVal DynamicPseudoType) planned_obj
       = Some (normalize_result (ImpliedCtyType resource)
                 (call [NullVal DynamicPseudoType]).1,
               (call [NullVal DynamicPseudoType]).2)) ∧
    (∀ call, IsNull (NullVal DynamicPseudoType) = false → IsNull planned' = false →
       updateFn (managed echo) = FnCall call →
       applyChange (managed echo) (NullVal DynamicPseudoType) planned_obj
       = Some (normalize_result (ImpliedCtyType resource)
                 (call [NullVal DynamicPseudoType; planned']).1,
               (call [NullVal DynamicPseudoType; planned']).2)).
Proof.
  exact (applyChange_unknowns_nulled (managed echo) (NullVal DynamicPseudoType)
           planned_obj well_formed_planned_obj).
Defined.

(** The create callback of the example receives the planned object with
    the unknown [id] and the unknown [c] of every nested block turned into
    nulls, and [applyChange] returns what the callback returns. *)
Example applyChange_nulled_planned_obj :
  unknowns_nulled planned_obj
  = ObjectVal {[ "id" := NullVal TString; "name" := StringVal "a";
                 "tags" := strings [StringVal "a"];
                 "rule" := RawMap inner_ty {[ "http" := element (StringVal "a") ]};
                 "port" := RawSet inner_ty [element (StringVal "a");
                                            element (NullVal TString)];
                 "step" := RawList inner_ty [] ]}
  ∧ applyChange (managed echo) (NullVal DynamicPseudoType) planned_obj
    = Some (unknowns_nulled planned_obj, []).
Proof. split; by_vm. Qed.

(** A callback never observes an unknown planned value: two resource
    types whose create and update callbacks agree on every call in which
    the planned argument holds no
    unknown value (and which have the same schema and delete callback, the
    delete callback receiving the prior value only) give the same result,
    whatever the planned value is. *)
Lemma applyChange_callbacks_agree (rt rt' : managedResourceType)
    (prior planned : Value) :
  configSchema rt = configSchema rt' →
  agree_on (λ args, ∃ p, args = [p] ∧ IsWhollyKnown p = true)
           (createFn rt) (createFn rt') →
  agree_on (λ args, ∃ pr p, args = [pr; p] ∧ IsWhollyKnown p = true)
           (updateFn rt) (updateFn rt') →
  deleteFn rt = deleteFn rt' →
  applyChange rt prior planned = applyChange rt' prior planned.
Proof.
  intros Hschema Hcreate Hupdate Hdelete. unfold applyChange.
  rewrite <-Hschema, <-Hdelete.
  destruct (UnknownAsNull planned) as [planned'|] eqn:Hp; [|done]. simpl.
  apply UnknownAsNull_wholly_known in Hp.
  destruct (IsNull prior); [|destruct (IsNull planned')]; [| done |].
  - destruct (createFn rt) as [|e|c], (createFn rt') as [|e'|c'];
      simpl in *; try done; [by subst|].
    rewrite (Hcreate [planned']) by eauto. done.
  - destruct (updateFn rt) as [|e|c], (updateFn rt') as [|e'|c'];
      simpl in *; try done; [by subst|].
    rewrite (Hupdate [prior; planned']) by eauto. done.
Qed.

Example applyChange_callbacks_agree_echo :
  applyChange (managed echo) (NullVal DynamicPseudoType) planned_obj
  = applyChange (managed echo_known) (NullVal DynamicPseudoType) planned_obj.
Proof.
  apply (applyChange_callbacks_agree (managed echo) (managed echo_known)).
  - reflexivity.
  - simpl. intros args (p & -> & Hp). unfold echo_known. simpl. by rewrite Hp.
  - simpl. reflexivity.
  - reflexivity.
Qed.

(** The create callback of the example receives the planned object with
    its unknown [id] turned into a null. *)
Example applyChange_planned_obj :
  IsWhollyKnown planned_obj = false
  ∧ (applyChange (managed echo) (NullVal DynamicPseudoType) planned_obj
       ≫= λ res, GetAttr res.1 "id") = Some (NullVal TString).
Proof. split; vm_compute; reflexivity. Qed.

(** ** Object reader *)



(** [BlockCount] panics on every reader of a null value. *)
Lemma reader_BlockCount_null r blockType :
  IsNull (reader_v r) = true → IsDynamic (type_of (reader_v r)) = false →
  reader_BlockCount r blockType = None.
Proof.
  intros Hnull Hdyn. unfold reader_BlockCount, blockVal.
  destruct (NestedBlockTypes (reader_schema r) !! blockType); [|done]. simpl.
  unfold GetAttr. rewrite Hdyn. by destruct (reader_v r).
Qed.



(** A reader made by [NewObjectReader] counts the blocks of every
    nesting mode of the example. *)
Example reader_BlockCount_config_obj :
  (r ← NewObjectReader resource config_obj;
   Some (reader_BlockCount r "rule", reader_BlockCount r "port",
         reader_BlockCount r "step"))
  = Some (Some 1, Some 2, Some 0).
Proof. vm_compute; reflexivity. Qed.

(** ** Plan builder: action classification *)

(** C2, as stated, fails: with a null prior and a null proposed value the
    action is [Delete], not [Create]. *)
Lemma action_create_whenever_prior_null_fails :
  ¬ (∀ schema prior config proposed pb,
       newPlanBuilder schema prior config proposed = Some pb →
       (IsNull prior = true → action pb = Create) ∧
       (IsNull proposed = true → action pb = Delete) ∧
       (IsNull prior = false → IsNull proposed = false → action pb = Update)).
Proof.
  intros Hall.
  destruct (Hall resource (Null resource) config_obj (Null resource)
              (mkPlanBuilder Delete (Some resource) None
                 (Some (mkObjectReaderVal resource config_obj)) None))
    as [Hcreate _]; [vm_compute; reflexivity|].
  specialize (Hcreate eq_refl). discriminate Hcreate.
Qed.

(** C2, amended. The action of a plan builder is [Delete] whenever the
    proposed value is null, [Create] whenever the proposed value is not
    null and the prior value is null, and [Update] otherwise. *)
Theorem newPlanBuilder_action (schema : BlockType)
    (prior config proposed : Value) (pb : planBuilder) :
  newPlanBuilder schema prior config proposed = Some pb →
  (IsNull proposed = true → action pb = Delete) ∧
  (IsNull proposed = false → IsNull prior = true → action pb = Create) ∧
  (IsNull proposed = false → IsNull prior = false → action pb = Update).
Proof.
  unfold newPlanBuilder. intros Hpb. simplify_option_eq.
  by destruct (IsNull proposed), (IsNull prior).
Qed.

Lemma newPlanBuilder_action_witness :
  ∃ pb, newPlanBuilder resource (Null resource) config_obj planned_obj = Some pb ∧
        action pb = Create.
Proof.
  destruct (newPlanBuilder resource (Null resource) config_obj planned_obj)
    as [pb|] eqn:Hpb; [|vm_compute in Hpb; discriminate Hpb].
  exists pb. split; [reflexivity|].
  apply (newPlanBuilder_action resource (Null resource) config_obj planned_obj pb Hpb);
    vm_compute; reflexivity.
Defined.

(** The plan builders of nested blocks are classified in the same order,
    on the nil-ness of the planned builder and of the prior reader. *)
Lemma subBuilder_action (schema : NestedBlockType)
    (prior config : option objectReaderVal) (planned : option objectBuilder) :
  action (subBuilder schema prior config planned) =
    if decide (planned = None) then Delete
    else if decide (prior = None) then Create
    else Update.
Proof. by destruct planned, prior. Qed.

(** ** Plan builder: change detection *)

(** [AttrHasChange] returns what the comparison of the planned with the
    prior value says when it is decided, that is, whether they are equal. *)
Lemma AttrHasChange_decided (b : planBuilder) (name : string)
    (priorV plannedV : Value) (e : bool) :
  AttrChange b name = Some (priorV, plannedV) →
  Equals plannedV priorV = BoolVal e →
  AttrHasChange b name = Some e.
Proof. unfold AttrHasChange. intros -> . simpl. by intros ->. Qed.

Lemma AttrHasChange_undecided (b : planBuilder) (name : string)
    (priorV plannedV : Value) :
  AttrChange b name = Some (priorV, plannedV) →
  IsKnown (Equals plannedV priorV) = false →
  AttrHasChange b name = Some true.
Proof. unfold AttrHasChange. intros -> . simpl. by intros ->. Qed.

Lemma Equals_unknown_side (val other : Value) :
  IsKnown val = false ∨ IsKnown other = false →
  IsDynamic (type_of val) = false → IsDynamic (type_of other) = false →
  Ty_eqb (type_of val) (type_of other) = true →
  Equals val other = UnknownVal TBool.
Proof.
  intros Hunk Hd1 Hd2 Hty.
  destruct val, other; simpl in *; rewrite ?Hd1, ?Hd2, ?Hty; simpl;
    try done; by destruct Hunk.
Qed.

(** When one side is itself the unknown value (and both sides have the
    same type, which is not the dynamic type), a change is reported. *)
Lemma AttrHasChange_unknown_side (b : planBuilder) (name : string)
    (priorV plannedV : Value) :
  AttrChange b name = Some (priorV, plannedV) →
  IsKnown priorV = false ∨ IsKnown plannedV = false →
  IsDynamic (type_of priorV) = false → IsDynamic (type_of plannedV) = false →
  Ty_eqb (type_of plannedV) (type_of priorV) = true →
  AttrHasChange b name = Some true.
Proof.
  intros Hch Hunk Hd1 Hd2 Hty. eapply AttrHasChange_undecided; [done|].
  rewrite Equals_unknown_side; [done|tauto|done..].
Qed.

(** C1, the code at two inputs with known values: for a prior and a
    planned [name] that are both ["a"], [AttrHasChange] returns [true]; for
    a prior ["a"] and a planned ["b"] it returns [false]. *)
Lemma AttrHasChange_reports_equality :
  (pb ← NewPlanBuilder resource prior_obj config_obj prior_obj;
   Some (AttrChange pb "name", AttrHasChange pb "name"))
  = Some (Some (StringVal "a", StringVal "a"), Some true)
  ∧
  (pb ← NewPlanBuilder resource prior_obj config_obj renamed_obj;
   Some (AttrChange pb "name", AttrHasChange pb "name"))
  = Some (Some (StringVal "a", StringVal "b"), Some false).
Proof. split; vm_compute; reflexivity. Qed.

(** C6, the code at an input with an unknown value inside the planned
    value: for prior [tags] of one known element and planned [tags] of two
    elements, the first unknown, [AttrHasChange] returns [false]. *)
Lemma AttrHasChange_misses_nested_unknown :
  (pb ← NewPlanBuilder resource prior_obj config_obj retagged_obj;
   Some (AttrChange pb "tags", AttrHasChange pb "tags"))
  = Some (Some (strings [StringVal "a"],
                strings [UnknownVal TString; StringVal "b"]),
          Some false)
  ∧ IsWhollyKnown (strings [UnknownVal TString; StringVal "b"]) = false.
Proof. split; vm_compute; reflexivity. Qed.

(** ** Plan builder: defaults for computed attributes *)

(** [CanProvideAttrDefault] does not depend on the configuration. *)
Lemma CanProvideAttrDefault_ignores_config (b : planBuilder)
    (c : option objectReaderVal) (name : string) :
  CanProvideAttrDefault
    (mkPlanBuilder (action b) (plan_schema b) (prior b) c (planned b)) name
  = CanProvideAttrDefault b name.
Proof. reflexivity. Qed.

(** It tells whether a computed attribute is null in the planned object. *)
Lemma CanProvideAttrDefault_planned (b : planBuilder) (name : string)
    (schema : BlockType) (attrS : Attribute) (pb : objectBuilder) :
  plan_schema b = Some schema → Attributes schema !! name = Some attrS →
  planned b = Some pb → Computed attrS = true →
  CanProvideAttrDefault b name = IsNull <$> builder_Attr pb name.
Proof.
  unfold CanProvideAttrDefault, plan_Attr, requireWritable.
  intros -> Hattr -> Hcomputed. simpl. rewrite Hattr. simpl.
  rewrite Hcomputed. simpl. by destruct (builder_Attr pb name).
Qed.

(** C3, the code at an input where a computed attribute is null in the
    configuration: for the plan of a create whose configuration leaves the
    computed [id] unset, the planned object being the defaulted
    configuration, [CanProvideAttrDefault] returns [false]; and so it
    does for the plan of an update with the same configuration whose
    proposed object carries the [id] of the prior object. *)
Lemma CanProvideAttrDefault_reads_planned :
  (pb ← NewPlanBuilder resource (Null resource) config_obj planned_obj;
   attrS ← Attributes resource !! "id";
   Some (Computed attrS,
         ConfigReader pb ≫= (λ r, reader_Attr r "id"),
         plan_Attr pb "id",
         CanProvideAttrDefault pb "id"))
  = Some (true, Some (NullVal TString), Some (UnknownVal TString), Some false)
  ∧
  (pb ← NewPlanBuilder resource prior_obj config_obj prior_obj;
   attrS ← Attributes resource !! "id";
   Some (Computed attrS,
         ConfigReader pb ≫= (λ r, reader_Attr r "id"),
         plan_Attr pb "id",
         CanProvideAttrDefault pb "id"))
  = Some (true, Some (NullVal TString), Some (StringVal "i-1"), Some false).
Proof. split; vm_compute; reflexivity. Qed.

(** ** Object builder: replacing map blocks *)

(** Replacing the map blocks of a type by an empty collection leaves
    [mapBlocks] and the block count as they were. *)
Lemma ReplaceBlocksMap_empty_count (b b' : objectBuilder) (typeName : string) :
  ReplaceBlocksMap b typeName ∅ = Some b' →
  mapBlocks b' = mapBlocks b ∧
  builder_BlockCount b' typeName = builder_BlockCount b typeName.
Proof.
  unfold ReplaceBlocksMap, builder_BlockCount. intros Hb'.
  destruct (NestedBlockTypes (builder_schema b) !! typeName) as [blockS|] eqn:HS;
    [|done].
  simpl in Hb'. case_decide as Hmode; [|done].
  rewrite decide_True in Hb' by done. injection Hb' as <-.
  simpl. rewrite HS. simpl. by rewrite Hmode.
Qed.

(** Replacing them by a collection that is not empty gives that
    collection. *)
Lemma ReplaceBlocksMap_nonempty_count (b b' : objectBuilder) (typeName : string)
    (nbs : gmap string objectBuilder) :
  size nbs ≠ 0 →
  ReplaceBlocksMap b typeName nbs = Some b' →
  builder_BlockCount b' typeName = Some (size nbs).
Proof.
  unfold ReplaceBlocksMap, builder_BlockCount. intros Hne Hb'.
  destruct (NestedBlockTypes (builder_schema b) !! typeName) as [blockS|] eqn:HS;
    [|done].
  simpl in Hb'. case_decide as Hmode; [|done].
  rewrite decide_False in Hb' by done. injection Hb' as <-.
  simpl. rewrite HS. simpl. by rewrite Hmode, lookup_insert_eq.
Qed.

(** C9, the code at a builder that holds one [rule] block: after
    [ReplaceBlocksMap] with an empty collection [BlockCount] still returns
    1, and the frozen object still has the block. *)
Lemma ReplaceBlocksMap_empty_keeps_blocks :
  (b ← NewObjectBuilder resource config_obj;
   b' ← ReplaceBlocksMap b "rule" ∅;
   Some (builder_BlockCount b "rule", builder_BlockCount b' "rule",
         ObjectVal_ b' ≫= (λ obj, GetAttr obj "rule")))
  = Some (Some 1, Some 1,
          Some (RawMap inner_ty {[ "http" := element (StringVal "a") ]})).
Proof. vm_compute; reflexivity. Qed.

(** ** Object builder: construction and freezing *)

Lemma newObjectBuilder_unfold attrsS blocksS initial :
  newObjectBuilder (mkBlockType attrsS blocksS) initial =
    attrs ← map_range attrsS
      (λ name attrS,
         if is_NilVal initial then Some (NullVal (Type_ attrS))
         else GetAttr initial name);
    entries ← map_range (newBlockEntry <$> blocksS)
      (λ name blockS_entry, blockS_entry initial name);
    Some (mkObjectBuilder (mkBlockType attrsS blocksS) attrs
            (omap entry_single entries)
            (omap entry_list entries)
            (omap entry_map entries)).
Proof. reflexivity. Qed.

Lemma newBlockEntry_unfold nesting content mx mn initial name :
  newBlockEntry (mkNestedBlockType nesting content mx mn) initial name =
  match nesting with
  | NestingSingle =>
      if is_NilVal initial then Some (EntrySingle None)
      else
        nv ← GetAttr initial name;
        if IsNull nv then Some (EntrySingle None)
        else nb ← newObjectBuilder content nv; Some (EntrySingle (Some nb))
  | NestingList | NestingSet =>
      if is_NilVal initial then Some (EntryList [])
      else
        nv ← GetAttr initial name;
        if IsKnown nv && negb (IsNull nv) then
          _ ← LengthInt nv;
          elems ← ElementIterator nv;
          EntryList <$> mapM (newObjectBuilder content) elems.*2
        else Some EntryNone
  | NestingMap =>
      if is_NilVal initial then Some (EntryMap ∅)
      else
        nv ← GetAttr initial name;
        if IsKnown nv && negb (IsNull nv) then
          _ ← LengthInt nv;
          elems ← ElementIterator nv;
          EntryMap <$> collect_map (newObjectBuilder content) elems
        else Some EntryNone
  | nestingInvalid => None
  end.
Proof. reflexivity. Qed.

(** What [newObjectBuilder] made: the attribute values and, for every
    nested block type, the entry its loop stored. *)
Lemma newObjectBuilder_Some schema initial b :
  newObjectBuilder schema initial = Some b →
  builder_schema b = schema ∧
  (∀ name attrS, Attributes schema !! name = Some attrS →
     ∃ v, attrs b !! name = Some v ∧
          (if is_NilVal initial then Some (NullVal (Type_ attrS))
           else GetAttr initial name) = Some v) ∧
  (∀ name, Attributes schema !! name = None → attrs b !! name = None) ∧
  ∃ entries : gmap string (blockEntry objectBuilder),
    singleBlocks b = omap entry_single entries ∧
    listBlocks b = omap entry_list entries ∧
    mapBlocks b = omap entry_map entries ∧
    (∀ name blockS, NestedBlockTypes schema !! name = Some blockS →
       ∃ e, newBlockEntry blockS initial name = Some e ∧ entries !! name = Some e) ∧
    (∀ name, NestedBlockTypes schema !! name = None → entries !! name = None).
Proof.
  destruct schema as [attrsS blocksS]. rewrite newObjectBuilder_unfold. intros Hb.
  destruct (map_range attrsS _) as [attr_vals|] eqn:Hattrs; [|done]. simpl in Hb.
  destruct (map_range (newBlockEntry <$> blocksS) _) as [entries|] eqn:Hentries;
    [|done].
  simpl in Hb. injection Hb as <-. simpl. split; [done|]. split; [|split].
  - intros name attrS Hname.
    destruct (map_range_lookup _ _ _ _ _ Hattrs Hname) as (v & Hv & ->). eauto.
  - intros name Hname. by eapply map_range_lookup_None.
  - exists entries. repeat split; try done.
    + intros name blockS Hname.
      destruct (map_range_lookup _ _ _ name (newBlockEntry blockS) Hentries)
        as (e & He & Hlook); [by rewrite lookup_fmap, Hname|]. eauto.
    + intros name Hname. eapply map_range_lookup_None; [done|].
      by rewrite lookup_fmap, Hname.
Qed.

Lemma newObjectBuilder_NilVal_is_Some schema :
  (∀ t nb, NestedBlockTypes schema !! t = Some nb → Nesting nb ≠ nestingInvalid) →
  is_Some (newObjectBuilder schema NilVal).
Proof.
  destruct schema as [attrsS blocksS]. intros Hvalid. simpl in Hvalid.
  rewrite newObjectBuilder_unfold.
  destruct (map_range_is_Some attrsS
              (λ name attrS, if is_NilVal NilVal then Some (NullVal (Type_ attrS))
                             else GetAttr NilVal name)) as [attr_vals ->]; [by eauto|].
  destruct (map_range_is_Some (newBlockEntry <$> blocksS)
              (λ name blockS_entry, blockS_entry NilVal name)) as [entries ->];
    [|by eauto].
  intros t f. rewrite lookup_fmap.
  destruct (blocksS !! t) as [nb|] eqn:Ht; simpl; [|done]. intros [= <-].
  specialize (Hvalid t nb Ht). destruct nb as [nesting content mx mn].
  rewrite newBlockEntry_unfold. simpl in *. by destruct nesting; eauto.
Qed.

(** X1. [NewObjectBuilder] from [cty.NilVal]: for a schema whose block
    types all have a valid nesting mode the builder exists, every
    attribute of the schema reads as the null value of its type, and every
    nested block type has a count of zero. *)
Theorem NewObjectBuilder_NilVal_empty (schema : BlockType) :
  (∀ t nb, NestedBlockTypes schema !! t = Some nb → Nesting nb ≠ nestingInvalid) →
  ∃ b, NewObjectBuilder schema NilVal = Some b ∧
       (∀ name attrS, Attributes schema !! name = Some attrS →
          builder_Attr b name = Some (NullVal (Type_ attrS))) ∧
       (∀ t nb, NestedBlockTypes schema !! t = Some nb →
          builder_BlockCount b t = Some 0).
Proof.
  intros Hvalid. unfold NewObjectBuilder.
  destruct (newObjectBuilder_NilVal_is_Some schema Hvalid) as [b Hb].
  exists b. split; [done|].
  destruct (newObjectBuilder_Some _ _ _ Hb)
    as (Hschema & Hattrs & _ & entries & Hs & Hl & Hm & Hentries & _).
  split.
  - intros name attrS Hname. unfold builder_Attr. rewrite Hschema, Hname.
    destruct (Hattrs name attrS Hname) as (v & -> & Hv). simpl in *. congruence.
  - intros t nb Ht. unfold builder_BlockCount. rewrite Hschema, Ht. simpl.
    destruct (Hentries t nb Ht) as (e & He & Hlook).
    rewrite Hs, Hl, Hm, !lookup_omap, Hlook.
    destruct nb as [nesting content mx mn]. rewrite newBlockEntry_unfold in He.
    specialize (Hvalid t _ Ht). simpl in *.
    destruct nesting; simplify_eq/=; done.
Qed.

Lemma ObjectVal_unfold schema attrs singles lists maps :
  ObjectVal_ (mkObjectBuilder schema attrs singles lists maps) =
    single_vals ← map_sequence
      ((λ nb : option objectBuilder,
          match nb with None => None | Some nb' => ObjectVal_ nb' end)
         <$> singles);
    list_vals ← map_range
      ((λ nbs, (length nbs, mapM ObjectVal_ nbs)) <$> lists)
      (list_block_val schema);
    map_vals ← map_range
      ((λ nbs : gmap string objectBuilder,
          (size nbs, map_sequence (ObjectVal_ <$> nbs))) <$> maps)
      (map_block_val schema);
    Some (ObjectVal (map_vals ∪ omap id list_vals ∪ single_vals ∪ attrs)).
Proof. reflexivity. Qed.

Lemma map_sequence_None {A} (m : gmap string (option A)) k :
  m !! k = Some None → map_sequence m = None.
Proof.
  intros Hk. unfold map_sequence. rewrite decide_False; [done|].
  intros Hall. by destruct (Hall k None Hk).
Qed.

Lemma ObjectVal_nil_single b t :
  singleBlocks b !! t = Some None → ObjectVal_ b = None.
Proof.
  destruct b as [schema attrs singles lists maps]. intros Ht. simpl in Ht.
  rewrite ObjectVal_unfold.
  by rewrite (map_sequence_None _ t) by (by rewrite lookup_fmap, Ht).
Qed.

(** X2. A builder that holds no child for a block type of single nesting
    (its [BlockCount] is zero) cannot be frozen: [ObjectVal] calls
    [ObjectVal] on the nil child and panics. *)
Theorem ObjectVal_absent_single_panics (schema : BlockType) (initial : Value)
    (b : objectBuilder) (t : string) (nb : NestedBlockType) :
  NewObjectBuilder schema initial = Some b →
  NestedBlockTypes schema !! t = Some nb →
  Nesting nb = NestingSingle →
  builder_BlockCount b t = Some 0 →
  ObjectVal_ b = None.
Proof.
  unfold NewObjectBuilder. intros Hb Ht Hmode Hcount.
  destruct (newObjectBuilder_Some _ _ _ Hb)
    as (Hschema & _ & _ & entries & Hs & _ & _ & Hentries & _).
  destruct (Hentries t nb Ht) as (e & He & Hlook).
  apply (ObjectVal_nil_single b t).
  unfold builder_BlockCount in Hcount. rewrite Hschema, Ht in Hcount.
  simpl in Hcount. rewrite Hmode in Hcount.
  rewrite Hs, lookup_omap, Hlook in Hcount |- *.
  destruct nb as [nesting content mx mn]. simpl in Hmode. subst nesting.
  rewrite newBlockEntry_unfold in He.
  destruct (is_NilVal initial); [by simplify_eq/=|].
  destruct (GetAttr initial t) as [nv|]; [|done]. simpl in He.
  destruct (IsNull nv); [by simplify_eq/=|].
  destruct (newObjectBuilder content nv); simplify_eq/=.
Qed.

(** ** Object builder: derived from a reader *)

Section collect_keys.
Context {A : Type} (f : Value → option A).

Lemma collect_fold_lookup (l : list (string * Value)) :
  ∀ acc r,
    NoDup l.*1 →
    foldl (collect_step f) (Some acc) ((λ kv, (StringVal kv.1, kv.2)) <$> l) = Some r →
    (∀ k, r !! k = match (list_to_map l : gmap string Value) !! k with
                   | Some v => f v
                   | None => acc !! k
                   end) ∧
    Forall (λ kv, is_Some (f kv.2)) l.
Proof.
  induction l as [|[k v] l IH]; intros acc r Hnd Hfold; csimpl in *.
  - simplify_eq. split; [|done]. intros k. by rewrite lookup_empty.
  - inversion Hnd as [|?? Hk Hnd']; subst.
    destruct (f v) as [y|] eqn:Hv; simpl in Hfold;
      [|by rewrite collect_None in Hfold].
    destruct (IH _ _ Hnd' Hfold) as [Hr Hall]. split.
    + intros k'. rewrite Hr. destruct (decide (k = k')) as [<-|Hne].
      * assert ((list_to_map l : gmap string Value) !! k = None) as ->
          by (by apply not_elem_of_list_to_map_1).
        by rewrite !lookup_insert_eq.
      * by rewrite !lookup_insert_ne by done.
    + constructor; [simpl; by rewrite Hv|done].
Qed.

(** Collecting over the elements of a map applies [f] to every element
    and keeps the keys. *)
Lemma collect_map_lookup (m : gmap string Value) (r : gmap string A) :
  collect_map f ((λ kv, (StringVal kv.1, kv.2)) <$> map_to_list m) = Some r →
  (∀ k, r !! k = m !! k ≫= f) ∧ map_Forall (λ _ v, is_Some (f v)) m.
Proof.
  unfold collect_map. intros Hfold.
  destruct (collect_fold_lookup _ _ _ (NoDup_fst_map_to_list m) Hfold) as [Hr Hall].
  split.
  - intros k. rewrite Hr, list_to_map_to_list, lookup_empty.
    by destruct (m !! k).
  - intros k v Hk. apply elem_of_map_to_list in Hk.
    by apply (proj1 (Forall_forall _ _) Hall (k, v)).
Qed.

Lemma collect_map_size (m : gmap string Value) (r : gmap string A) :
  collect_map f ((λ kv, (StringVal kv.1, kv.2)) <$> map_to_list m) = Some r →
  size r = size m.
Proof.
  intros Hr. destruct (collect_map_lookup _ _ Hr) as [Hlook Hall].
  rewrite <-!size_dom. f_equal. apply set_eq. intros k.
  rewrite !elem_of_dom, Hlook. destruct (m !! k) as [v|] eqn:Hk; simpl.
  - split; [by eauto|]. intros _. by apply (Hall k v).
  - split; intros [? ?]; done.
Qed.

Lemma collect_map_is_Some (m : gmap string Value) :
  map_Forall (λ _ v, is_Some (f v)) m →
  is_Some (collect_map f ((λ kv, (StringVal kv.1, kv.2)) <$> map_to_list m)).
Proof.
  intros Hm. unfold collect_map.
  assert (Hl : Forall (λ kv, is_Some (f kv.2)) (map_to_list m)).
  { apply Forall_forall. intros [k v] Hkv. apply elem_of_map_to_list in Hkv.
    by apply (Hm k). }
  generalize (∅ : gmap string A) as acc.
  induction Hl as [|[k v] l [y Hy] _ IH]; intros acc; csimpl; [by eauto|].
  simpl in Hy. rewrite Hy. simpl. apply IH.
Qed.

End collect_keys.

Lemma conforms_nested_entry_is_Some content nesting mx mn m t bv :
  (∀ v, conforms content v → is_Some (newObjectBuilder content v)) →
  m !! t = Some bv →
  conforms_nested (mkNestedBlockType nesting content mx mn) bv →
  is_Some (newBlockEntry (mkNestedBlockType nesting content mx mn) (ObjectVal m) t).
Proof.
  intros IH Ht Hbv. rewrite newBlockEntry_unfold.
  assert (HmapM : ∀ l, Forall (conforms content) l →
            is_Some (mapM (newObjectBuilder content) l)).
  { intros l Hl. apply mapM_is_Some. eapply Forall_impl; [exact Hl|]. apply IH. }
  assert (Hcollect : ∀ mm : gmap string Value, map_Forall (λ _, conforms content) mm →
            is_Some (collect_map (newObjectBuilder content)
                       ((λ kv, (StringVal kv.1, kv.2)) <$> map_to_list mm))).
  { intros mm Hmm. apply collect_map_is_Some. intros k v Hk. by apply IH, (Hmm k). }
  inversion Hbv as [| ? ? ? v Hv | ? ? ? l Hst Hl | ? ? ? l Hdyn Hl
                    | ? ? ? l Hl | ? ? ? mm Hst Hm | ? ? ? mm Hdyn Hm]; subst;
    cbn [is_NilVal]; rewrite GetAttr_object, Ht; simpl.
  - by eauto.
  - destruct (conforms_is_object _ _ Hv) as [m' ->]. simpl.
    destruct (IH _ Hv) as [nb ->]. by eauto.
  - unfold LengthInt. simpl. rewrite imap_snd.
    destruct (HmapM l Hl) as [nbs ->]. by eauto.
  - unfold LengthInt. simpl. rewrite imap_snd.
    destruct (HmapM l Hl) as [nbs ->]. by eauto.
  - unfold LengthInt. simpl. rewrite pair_snd.
    destruct (HmapM l Hl) as [nbs ->]. by eauto.
  - unfold LengthInt. simpl. destruct (Hcollect mm Hm) as [nbs ->]. by eauto.
  - unfold LengthInt. simpl. destruct (Hcollect mm Hm) as [nbs ->]. by eauto.
Qed.

Lemma newObjectBuilder_conforming schema obj :
  conforms schema obj → is_Some (newObjectBuilder schema obj).
Proof.
  revert obj. induction schema as [attrsS blocksS IH] using BlockType_nested_ind.
  intros obj Hobj. inversion Hobj as [? ? m Hma Hmb]; subst.
  rewrite newObjectBuilder_unfold.
  destruct (map_range_is_Some attrsS
              (λ name attrS, if is_NilVal (ObjectVal m) then Some (NullVal (Type_ attrS))
                             else GetAttr (ObjectVal m) name)) as [attr_vals ->].
  { intros k a Hk. destruct (Hma k a Hk) as (gv & Hgv & _). simpl.
    rewrite GetAttr_object, Hgv. by eauto. }
  destruct (map_range_is_Some (newBlockEntry <$> blocksS)
              (λ name blockS_entry, blockS_entry (ObjectVal m) name)) as [entries ->];
    [|by eauto].
  intros t f. rewrite lookup_fmap.
  destruct (blocksS !! t) as [nb|] eqn:Ht; simpl; [|done]. intros [= <-].
  destruct (Hmb t nb Ht) as (bv & Hbv & Hconf).
  pose proof (IH t nb Ht) as IHt. destruct nb as [nesting content mx mn].
  by eapply conforms_nested_entry_is_Some.
Qed.

Lemma NewObjectReader_Some schema obj r :
  NewObjectReader schema obj = Some r →
  r = mkObjectReaderVal schema obj ∧ IsNull obj = false ∧ IsKnown obj = true ∧
  IsObjectType (type_of obj) = true.
Proof.
  unfold NewObjectReader. destruct (IsNull obj), (IsKnown obj); simpl; try done.
  destruct (IsObjectType (type_of obj)); simpl; [|done]. by intros [= <-].
Qed.

Lemma mapM_length_eq {A B} (f : A → option B) l k :
  mapM f l = Some k → length k = length l.
Proof. intros H. apply mapM_Some_1 in H. symmetry. by eapply Forall2_length. Qed.

(** X3. The builder that [DeriveNewObject] makes from a reader of a
    conforming object agrees with the reader: [Attr] returns the same for
    every name and [BlockCount] the same for every block type name
    (panics included). *)
Theorem DeriveNewObject_agrees (schema : BlockType) (obj : Value)
    (r : objectReaderVal) (b : objectBuilder) :
  conforms schema obj →
  NewObjectReader schema obj = Some r →
  DeriveNewObject r = Some b →
  (∀ name, builder_Attr b name = reader_Attr r name) ∧
  (∀ t, builder_BlockCount b t = reader_BlockCount r t).
Proof.
  intros Hobj Hr Hb. apply NewObjectReader_Some in Hr as (-> & _ & _ & _).
  unfold DeriveNewObject in Hb. simpl in Hb.
  inversion Hobj as [attrsS blocksS m Hma Hmb]; subst schema obj.
  destruct (newObjectBuilder_Some _ _ _ Hb)
    as (Hschema & Hattrs & _ & entries & Hs & Hl & Hm & Hentries & _).
  split.
  - intros name. unfold builder_Attr, reader_Attr. rewrite Hschema. simpl.
    destruct (attrsS !! name) as [attrS|] eqn:Hname; [|done].
    destruct (Hattrs name attrS Hname) as (v & -> & Hv). simpl in Hv. by rewrite Hv.
  - intros t. unfold builder_BlockCount, reader_BlockCount, blockVal.
    rewrite Hschema. simpl.
    destruct (blocksS !! t) as [nb|] eqn:Ht; [|done]. simpl.
    destruct (Hmb t nb Ht) as (bv & Hbv & Hconf).
    destruct (Hentries t nb Ht) as (e & He & Hlook).
    rewrite GetAttr_object, Hbv. simpl.
    rewrite Hs, Hl, Hm, !lookup_omap, Hlook. simpl.
    destruct nb as [nesting content mx mn]. rewrite newBlockEntry_unfold in He.
    inversion Hconf as [| ? ? ? v Hv | ? ? ? l Hst Hall | ? ? ? l Hdyn Hall
                        | ? ? ? l Hall | ? ? ? mm Hst Hall | ? ? ? mm Hdyn Hall];
      subst; cbn [is_NilVal] in He; rewrite GetAttr_object, Hbv in He;
      simpl in He |- *.
    + by simplify_eq.
    + destruct (conforms_is_object _ _ Hv) as [m' ->]. simpl in *.
      destruct (newObjectBuilder content (ObjectVal m')); by simplify_eq/=.
    + unfold LengthInt in *. simpl in *. rewrite imap_snd in He.
      destruct (mapM _ l) as [nbs|] eqn:HmapM; simplify_eq/=.
      by rewrite (mapM_length_eq _ _ _ HmapM).
    + unfold LengthInt in *. simpl in *. rewrite imap_snd in He.
      destruct (mapM _ l) as [nbs|] eqn:HmapM; simplify_eq/=.
      by rewrite (mapM_length_eq _ _ _ HmapM), length_fmap.
    + unfold LengthInt in *. simpl in *. rewrite pair_snd in He.
      destruct (mapM _ l) as [nbs|] eqn:HmapM; simplify_eq/=.
      by rewrite (mapM_length_eq _ _ _ HmapM).
    + unfold LengthInt in *. simpl in *.
      destruct (collect_map _ _) as [nbs|] eqn:Hcollect; simplify_eq/=.
      by rewrite (collect_map_size _ _ _ Hcollect).
    + unfold LengthInt in *. simpl in *.
      destruct (collect_map _ _) as [nbs|] eqn:Hcollect; simplify_eq/=.
      by rewrite (collect_map_size _ _ _ Hcollect), map_size_fmap.
Qed.

(** ** Object builder: round trip *)

Lemma whole_is_object b v : whole b v → is_ObjectVal v.
Proof. destruct 1. by eexists. Qed.

Lemma static_impliedCtyType nb :
  static (impliedCtyType nb) →
  Nesting nb = NestingSingle ∨ static (ImpliedCtyType (Content nb)).
Proof.
  destruct nb as [nesting content mx mn]. unfold static. simpl.
  case_decide; [by left|]. destruct (HasDynamicTypes (ImpliedCtyType content)); auto.
Qed.

(** A whole object of a schema whose type is static has that type. *)
Lemma whole_type b v :
  whole b v → static (ImpliedCtyType b) → type_of v = ImpliedCtyType b.
Proof.
  revert v. induction b as [attrsS blocksS IH] using BlockType_nested_ind.
  intros v Hv Hst. inversion Hv as [? ? m Hdom Hma Hmb]; subst.
  simpl in *. f_equal. apply map_eq. intros k.
  rewrite lookup_fmap, lookup_union, !lookup_fmap.
  destruct (blocksS !! k) as [nb|] eqn:Hk.
  - destruct (Hmb k nb Hk) as (bv & -> & Hbv). simpl.
    assert (Hnb : static (impliedCtyType nb)).
    { apply (static_lookup _ k _ Hst).
      rewrite lookup_union, !lookup_fmap, Hk. by destruct (attrsS !! k). }
    assert (type_of bv = impliedCtyType nb) as ->.
    { pose proof (IH k nb Hk) as IHk.
      pose proof (static_impliedCtyType _ Hnb) as Hcases.
      inversion Hbv as [? ? ? v' Hv' | ? ? ? l Hs' _ | ? ? ? l Hd' _
                        | ? ? ? l Hs' _ _ | ? ? ? mm Hs' _ | ? ? ? mm Hd' _]; subst;
        simpl in *.
      - by apply IHk.
      - unfold static in Hs'. by rewrite Hs'.
      - by destruct Hcases.
      - unfold static in Hs'. by rewrite Hs'.
      - unfold static in Hs'. by rewrite Hs'.
      - by destruct Hcases. }
    by destruct (attrsS !! k).
  - simpl. destruct (attrsS !! k) as [a|] eqn:Ha; simpl.
    + destruct (Hma k a Ha) as (gv & -> & Hty). simpl. rewrite Hty; [done|].
      apply (static_lookup _ k _ Hst).
      by rewrite lookup_union, !lookup_fmap, Hk, Ha.
    + assert (k ∉ dom m) as Hnot.
      { rewrite Hdom, elem_of_union, !elem_of_dom, Hk, Ha.
        intros [[? ?]|[? ?]]; done. }
      apply not_elem_of_dom in Hnot. by rewrite Hnot.
Qed.

Section nested_roundtrip.
Context (content : BlockType).
Hypothesis content_roundtrip :
  ∀ v, whole content v →
       ∃ b, newObjectBuilder content v = Some b ∧ ObjectVal_ b = Some v.

Lemma mapM_roundtrip l :
  Forall (whole content) l →
  ∃ nbs, mapM (newObjectBuilder content) l = Some nbs ∧
         mapM ObjectVal_ nbs = Some l.
Proof.
  induction 1 as [|v l Hv _ (nbs & Hnbs & Hback)].
  - by exists [].
  - destruct (content_roundtrip v Hv) as (nb & Hnb & Hval).
    exists (nb :: nbs). split.
    + apply mapM_Some_2. constructor; [done|]. by apply mapM_Some_1.
    + apply mapM_Some_2. constructor; [done|]. by apply mapM_Some_1.
Qed.

Lemma collect_roundtrip (mm : gmap string Value) :
  map_Forall (λ _, whole content) mm →
  ∃ nbm, collect_map (newObjectBuilder content)
           ((λ kv, (StringVal kv.1, kv.2)) <$> map_to_list mm) = Some nbm ∧
         map_sequence (ObjectVal_ <$> nbm) = Some mm ∧
         size nbm = size mm.
Proof.
  intros Hmm.
  destruct (collect_map_is_Some (newObjectBuilder content) mm) as [nbm Hnbm].
  { intros k v Hk. destruct (content_roundtrip v (Hmm k v Hk)) as (b & -> & _).
    by eauto. }
  exists nbm. split; [done|]. split; [|by eapply collect_map_size].
  destruct (collect_map_lookup _ _ _ Hnbm) as [Hlook _].
  apply map_sequence_Some, map_eq. intros k.
  rewrite !lookup_fmap, Hlook.
  destruct (mm !! k) as [v|] eqn:Hk; simpl; [|done].
  destruct (content_roundtrip v (Hmm k v Hk)) as (b & -> & Hval). simpl.
  by rewrite Hval.
Qed.

Lemma whole_all_typed l :
  static (ImpliedCtyType content) → Forall (whole content) l →
  Forall (λ v, type_of v = ImpliedCtyType content) l ∧ Forall is_ObjectVal l.
Proof.
  intros Hst Hl. split; (eapply Forall_impl; [exact Hl|]); simpl;
    eauto using whole_type, whole_is_object.
Qed.

Lemma entry_roundtrip schema name nesting mx mn m bv :
  let nb := mkNestedBlockType nesting content mx mn in
  NestedBlockTypes schema !! name = Some nb →
  m !! name = Some bv →
  whole_nested nb bv →
  ∃ e, newBlockEntry nb (ObjectVal m) name = Some e ∧
       match e with
       | EntrySingle (Some nb') => ObjectVal_ nb' = Some bv
       | EntryList nbs =>
           list_block_val schema name (length nbs, mapM ObjectVal_ nbs)
           = Some (Some bv)
       | EntryMap nbm =>
           map_block_val schema name
             (size nbm, map_sequence (ObjectVal_ <$> nbm)) = Some bv
       | _ => False
       end.
Proof.
  intros nb Hname Hm Hbv. subst nb. rewrite newBlockEntry_unfold.
  unfold list_block_val, map_block_val. rewrite Hname. simpl.
  inversion Hbv as [? ? ? v Hv | ? ? ? l Hst Hl | ? ? ? l Hdyn Hl
                    | ? ? ? l Hst Hl Hok | ? ? ? mm Hst Hmm | ? ? ? mm Hdyn Hmm];
    subst; cbn [is_NilVal]; rewrite GetAttr_object, Hm; simpl.
  - destruct (whole_is_object _ _ Hv) as [m' ->]. simpl.
    destruct (content_roundtrip _ Hv) as (b & -> & Hval). simpl. by eauto.
  - unfold LengthInt. simpl. rewrite imap_snd.
    destruct (mapM_roundtrip l Hl) as (nbs & Hnbs & Hback). rewrite Hnbs. simpl.
    eexists. split; [done|]. simpl. rewrite Hback.
    pose proof (mapM_length_eq _ _ _ Hnbs) as Hlen.
    unfold static in Hst. rewrite Hst.
    case_decide as Hz; simpl.
    + destruct l; [done|]. simpl in *. lia.
    + destruct (whole_all_typed l Hst Hl) as [Hty Hobj].
      rewrite (ListVal_same (ImpliedCtyType content));
        [done|apply ImpliedCtyType_not_dynamic| |done|done].
      intros ->. simpl in *. lia.
  - unfold LengthInt. simpl. rewrite imap_snd.
    destruct (mapM_roundtrip l Hl) as (nbs & Hnbs & Hback). rewrite Hnbs. simpl.
    eexists. split; [done|]. simpl. rewrite Hback.
    pose proof (mapM_length_eq _ _ _ Hnbs) as Hlen.
    unfold static in Hdyn. apply not_false_is_true in Hdyn. rewrite Hdyn.
    case_decide as Hz; simpl; [|done].
    destruct l; [done|]. simpl in *. lia.
  - unfold LengthInt. simpl. rewrite pair_snd.
    destruct (mapM_roundtrip l Hl) as (nbs & Hnbs & Hback). rewrite Hnbs. simpl.
    eexists. split; [done|]. simpl. rewrite Hback.
    pose proof (mapM_length_eq _ _ _ Hnbs) as Hlen.
    case_decide as Hz; simpl.
    + destruct l; [done|]. simpl in *. lia.
    + destruct (whole_all_typed l Hst Hl) as [Hty Hobj].
      rewrite (SetVal_same (ImpliedCtyType content));
        [|apply ImpliedCtyType_not_dynamic| |done|done].
      * simpl. unfold set_from_slice. by rewrite (set_fold_fixed l []).
      * intros ->. simpl in *. lia.
  - unfold LengthInt. simpl.
    destruct (collect_roundtrip mm Hmm) as (nbm & -> & Hback & Hsize). simpl.
    eexists. split; [done|]. simpl. rewrite Hback.
    unfold static in Hst. rewrite Hst.
    case_decide as Hz; simpl.
    + rewrite Hsize in Hz. apply map_size_empty_iff in Hz. by subst.
    + rewrite (MapVal_same (ImpliedCtyType content));
        [done|apply ImpliedCtyType_not_dynamic| | |].
      * intros ->. rewrite Hsize, map_size_empty in Hz. done.
      * intros k v Hk. apply whole_type; [by apply (Hmm k)|done].
      * intros k v Hk. eapply whole_is_object. by apply (Hmm k).
  - unfold LengthInt. simpl.
    destruct (collect_roundtrip mm Hmm) as (nbm & -> & Hback & Hsize). simpl.
    eexists. split; [done|]. simpl. rewrite Hback.
    unfold static in Hdyn. apply not_false_is_true in Hdyn. rewrite Hdyn.
    case_decide as Hz; simpl; [|done].
    rewrite Hsize in Hz. apply map_size_empty_iff in Hz. by subst.
Qed.

End nested_roundtrip.

Lemma newObjectBuilder_roundtrip schema obj :
  whole schema obj →
  ∃ b, newObjectBuilder schema obj = Some b ∧ ObjectVal_ b = Some obj.
Proof.
  revert obj. induction schema as [attrsS blocksS IH] using BlockType_nested_ind.
  intros obj Hobj. inversion Hobj as [? ? m Hdom Hma Hmb]; subst.
  rewrite newObjectBuilder_unfold.
  set (schema := mkBlockType attrsS blocksS).
  destruct (map_range_total attrsS
              (λ name attrS, if is_NilVal (ObjectVal m) then Some (NullVal (Type_ attrS))
                             else GetAttr (ObjectVal m) name)
              (λ name _ v, m !! name = Some v))
    as (attr_vals & -> & HA & HAnone).
  { intros k a Hk. destruct (Hma k a Hk) as (gv & Hgv & _). simpl.
    rewrite GetAttr_object, Hgv. by eauto. }
  destruct (map_range_total (newBlockEntry <$> blocksS)
              (λ name blockS_entry, blockS_entry (ObjectVal m) name)
              (λ name _ e, ∃ bv, m !! name = Some bv ∧
                 match e with
                 | EntrySingle (Some nb') => ObjectVal_ nb' = Some bv
                 | EntryList nbs =>
                     list_block_val schema name (length nbs, mapM ObjectVal_ nbs)
                     = Some (Some bv)
                 | EntryMap nbm =>
                     map_block_val schema name
                       (size nbm, map_sequence (ObjectVal_ <$> nbm)) = Some bv
                 | _ => False
                 end))
    as (entries & -> & HE & HEnone).
  { intros k f. rewrite lookup_fmap.
    destruct (blocksS !! k) as [nb|] eqn:Hk; simpl; [|done]. intros [= <-].
    destruct (Hmb k nb Hk) as (bv & Hbv & Hwhole).
    pose proof (IH k nb Hk) as IHk. destruct nb as [nesting content mx mn].
    destruct (entry_roundtrip content IHk schema k nesting mx mn m bv)
      as (e & He & Hgood); [done..|].
    exists e. split; [done|]. by exists bv. }
  simpl. eexists. split; [done|]. rewrite ObjectVal_unfold.
  assert (HE' : ∀ k, match entries !! k with
                     | Some e => ∃ bv, m !! k = Some bv ∧ is_Some (blocksS !! k) ∧
                         match e with
                         | EntrySingle (Some nb') => ObjectVal_ nb' = Some bv
                         | EntryList nbs =>
                             list_block_val schema k (length nbs, mapM ObjectVal_ nbs)
                             = Some (Some bv)
                         | EntryMap nbm =>
                             map_block_val schema k
                               (size nbm, map_sequence (ObjectVal_ <$> nbm)) = Some bv
                         | _ => False
                         end
                     | None => blocksS !! k = None
                     end).
  { intros k. destruct (blocksS !! k) as [nb|] eqn:Hk.
    - destruct (HE k (newBlockEntry nb)) as (e & -> & bv & Hbv & Hgood);
        [by rewrite lookup_fmap, Hk|]. exists bv. by eauto.
    - rewrite HEnone; [done|]. by rewrite lookup_fmap, Hk. }
  set (value_of := λ e : blockEntry objectBuilder,
         match e with
         | EntrySingle (Some nb') => ObjectVal_ nb'
         | _ => None
         end).
  assert (map_sequence
            ((λ nb : option objectBuilder,
                match nb with None => None | Some nb' => ObjectVal_ nb' end)
               <$> omap entry_single entries) = Some (omap value_of entries)) as ->.
  { apply map_sequence_Some, map_eq. intros k.
    rewrite !lookup_fmap, !lookup_omap. specialize (HE' k).
    destruct (entries !! k) as [e|]; [|done].
    destruct HE' as (bv & _ & _ & Hgood).
    destruct e as [[nb'|]|nbs|nbm|]; simpl in *; try done. by rewrite Hgood. }
  simpl.
  destruct (map_range_total
              ((λ nbs, (length nbs, mapM ObjectVal_ nbs)) <$> omap entry_list entries)
              (list_block_val schema)
              (λ k _ o, ∃ bv, m !! k = Some bv ∧ o = Some bv))
    as (list_vals & -> & HL & HLnone).
  { intros k a. rewrite lookup_fmap, lookup_omap. specialize (HE' k).
    destruct (entries !! k) as [e|]; [|done].
    destruct HE' as (bv & Hbv & _ & Hgood).
    destruct e as [[nb'|]|nbs|nbm|]; simpl in *; try done.
    intros [= <-]. by eauto. }
  simpl.
  destruct (map_range_total
              ((λ nbs : gmap string objectBuilder,
                  (size nbs, map_sequence (ObjectVal_ <$> nbs)))
                 <$> omap entry_map entries)
              (map_block_val schema)
              (λ k _ v, m !! k = Some v))
    as (map_vals & -> & HM & HMnone).
  { intros k a. rewrite lookup_fmap, lookup_omap. specialize (HE' k).
    destruct (entries !! k) as [e|]; [|done].
    destruct HE' as (bv & Hbv & _ & Hgood).
    destruct e as [[nb'|]|nbs|nbm|]; simpl in *; try done.
    intros [= <-]. by eauto. }
  simpl. do 2 f_equal. apply map_eq. intros k.
  rewrite !lookup_union, !lookup_omap.
  pose proof (HE' k) as HEk.
  assert (Hmaps : ∀ e, entries !! k = Some e → entry_map e = None →
            map_vals !! k = None).
  { intros e He Hnone. apply HMnone. rewrite lookup_fmap, lookup_omap, He. simpl.
    by rewrite Hnone. }
  assert (Hlists : ∀ e, entries !! k = Some e → entry_list e = None →
            list_vals !! k = None).
  { intros e He Hnone. apply HLnone. rewrite lookup_fmap, lookup_omap, He. simpl.
    by rewrite Hnone. }
  destruct (entries !! k) as [e|] eqn:He.
  - destruct HEk as (bv & Hbv & _ & Hgood). rewrite Hbv.
    destruct e as [[nb'|]|nbs|nbm|]; simpl in *; try done.
    + rewrite (Hmaps _ eq_refl), (Hlists _ eq_refl) by done. simpl.
      rewrite Hgood. by destruct (attr_vals !! k).
    + rewrite (Hmaps _ eq_refl) by done.
      destruct (HL k (length nbs, mapM ObjectVal_ nbs))
        as (o & -> & bv' & Hbv' & ->);
        [by rewrite lookup_fmap, lookup_omap, He|].
      simpl. simplify_eq. by destruct (attr_vals !! k).
    + destruct (HM k (size nbm, map_sequence (ObjectVal_ <$> nbm)))
        as (v & -> & Hv); [by rewrite lookup_fmap, lookup_omap, He|].
      simplify_eq. by destruct (list_vals !! k ≫= id), (attr_vals !! k).
  - rewrite HMnone, HLnone by (by rewrite lookup_fmap, lookup_omap, He).
    simpl.
    destruct (attrsS !! k) as [a|] eqn:Ha.
    + destruct (HA k a Ha) as (v & -> & Hv). by rewrite Hv.
    + rewrite (HAnone k Ha).
      assert (k ∉ dom m) as Hnot.
      { rewrite Hdom, elem_of_union, !elem_of_dom, HEk, Ha.
        intros [[? ?]|[? ?]]; done. }
      apply not_elem_of_dom in Hnot. by rewrite Hnot.
Qed.

(** X4. Round trip: a builder made from a whole object of the schema and
    frozen at once gives that object back. *)
Theorem ObjectVal_of_NewObjectBuilder (schema : BlockType) (obj : Value) :
  whole schema obj →
  NewObjectBuilder schema obj ≫= ObjectVal_ = Some obj.
Proof.
  intros Hobj. unfold NewObjectBuilder.
  by destruct (newObjectBuilder_roundtrip schema obj Hobj) as (b & -> & Hval).
Qed.

(** ** Object builder: replacing blocks and setting attributes *)

(** X5. After [ReplaceBlocksList] the builder holds exactly the given
    blocks under that type name, in order; the counts of the other block
    types and all attributes are as before. *)
Theorem ReplaceBlocksList_replaces (b b' : objectBuilder) (t : string)
    (nbs : list objectBuilder) :
  ReplaceBlocksList b t nbs = Some b' →
  BlockBuilderList b' t = Some nbs ∧
  builder_BlockCount b' t = Some (length nbs) ∧
  (∀ t', t' ≠ t → builder_BlockCount b' t' = builder_BlockCount b t') ∧
  (∀ name, builder_Attr b' name = builder_Attr b name).
Proof.
  unfold ReplaceBlocksList, BlockBuilderList, builder_BlockCount, builder_Attr.
  intros Hb'.
  destruct (NestedBlockTypes (builder_schema b) !! t) as [blockS|] eqn:HS; [|done].
  simpl in Hb'. case_decide as Hmode; [|done]. injection Hb' as <-. simpl.
  rewrite HS. simpl. rewrite decide_True by done. rewrite lookup_insert_eq. simpl.
  repeat split; try done.
  - by destruct Hmode as [-> | ->].
  - intros t' Hne. by rewrite lookup_insert_ne.
Qed.

(** X6. After [ReplaceBlockSingle] the builder holds the given child (or
    none, for nil) under that type name; the counts of the other block
    types and all attributes are as before. *)
Theorem ReplaceBlockSingle_replaces (b b' : objectBuilder) (t : string)
    (nb : option objectBuilder) :
  ReplaceBlockSingle b t nb = Some b' →
  BlockBuilderSingle b' t = Some nb ∧
  builder_BlockCount b' t = Some (match nb with Some _ => 1 | None => 0 end) ∧
  (∀ t', t' ≠ t → builder_BlockCount b' t' = builder_BlockCount b t') ∧
  (∀ name, builder_Attr b' name = builder_Attr b name).
Proof.
  unfold ReplaceBlockSingle, BlockBuilderSingle, builder_BlockCount, builder_Attr.
  intros Hb'.
  destruct (NestedBlockTypes (builder_schema b) !! t) as [blockS|] eqn:HS; [|done].
  simpl in Hb'. case_decide as Hmode; [|done]. injection Hb' as <-. simpl.
  rewrite HS. simpl. rewrite decide_True by done. rewrite lookup_insert_eq, Hmode.
  repeat split; try done.
  - by destruct nb.
  - intros t' Hne. by rewrite lookup_insert_ne.
Qed.

(** X7. [BlockBuilderFromList] on a list block type returns exactly for
    the indices from zero below [BlockCount], and then a builder that is
    not nil; every other index panics. *)
Theorem BlockBuilderFromList_bounds (b : objectBuilder) (t : string)
    (blockS : NestedBlockType) (count : nat) (idx : Z) :
  NestedBlockTypes (builder_schema b) !! t = Some blockS →
  Nesting blockS = NestingList →
  builder_BlockCount b t = Some count →
  (is_Some (BlockBuilderFromList b t idx) ↔ (0 ≤ idx < Z.of_nat count)%Z) ∧
  (∀ r, BlockBuilderFromList b t idx = Some r → is_Some r).
Proof.
  unfold BlockBuilderFromList, builder_BlockCount. intros -> Hmode. simpl.
  rewrite Hmode. intros [= <-]. rewrite decide_True by done.
  set (nbs := default [] (listBlocks b !! t)). split.
  - case_decide as Hneg.
    + split; [by intros [? ?]|lia].
    + rewrite fmap_is_Some, lookup_lt_is_Some. lia.
  - intros r. case_decide; [done|].
    destruct (nbs !! Z.to_nat idx); simpl; [|done]. intros [= <-]. by eauto.
Qed.

Section set_attr.
Context (Convert : Value → Ty → Value + string).

(** X8. When [SetAttr] returns, the name is an attribute of the schema,
    the value converted to the attribute's type, and [Attr] of that name
    now returns the converted value; the other attributes and all block
    counts are as before. *)
Theorem SetAttr_then_Attr (b b' : objectBuilder) (name : string) (val : Value) :
  SetAttr Convert b name val = Some b' →
  (∃ attrS val', Attributes (builder_schema b) !! name = Some attrS ∧
                 Convert val (Type_ attrS) = inl val' ∧
                 builder_Attr b' name = Some val') ∧
  (∀ name', name' ≠ name → builder_Attr b' name' = builder_Attr b name') ∧
  (∀ t, builder_BlockCount b' t = builder_BlockCount b t).
Proof.
  unfold SetAttr, builder_Attr, builder_BlockCount. intros Hb'.
  destruct (Attributes (builder_schema b) !! name) as [attrS|] eqn:HS; [|done].
  simpl in Hb'. destruct (Convert val (Type_ attrS)) as [v|err] eqn:Hconv; [|done].
  injection Hb' as <-. simpl. rewrite HS, lookup_insert_eq. simpl.
  split; [by eauto|]. split; [|done].
  intros name' Hne. by rewrite lookup_insert_ne.
Qed.

End set_attr.

(** ** Plan builder: create, delete and nested blocks *)

(** What [newPlanBuilder] made. *)
Lemma newPlanBuilder_Some schema prior config proposed b :
  newPlanBuilder schema prior config proposed = Some b →
  plan_schema b = Some schema ∧
  tfobj.prior b = (if negb (is_NilVal prior) && negb (IsNull prior)
                   then NewObjectReader schema prior else None) ∧
  tfobj.config b = (if negb (is_NilVal config) && negb (IsNull config)
                    then NewObjectReader schema config else None) ∧
  planned b = (if negb (is_NilVal proposed) && negb (IsNull proposed)
               then NewObjectBuilder schema proposed else None) ∧
  action b = (if IsNull proposed then Delete
              else if IsNull prior then Create else Update).
Proof.
  unfold newPlanBuilder. intros Hb.
  destruct (negb (is_NilVal prior) && negb (IsNull prior));
    [destruct (NewObjectReader schema prior)|]; simpl in Hb; try done;
  (destruct (negb (is_NilVal config) && negb (IsNull config));
    [destruct (NewObjectReader schema config)|]; simpl in Hb; try done);
  (destruct (negb (is_NilVal proposed) && negb (IsNull proposed));
    [destruct (NewObjectBuilder schema proposed)|]; simpl in Hb; try done);
  by injection Hb as <-.
Qed.

Lemma IsNull_not_NilVal v : IsNull v = false → is_NilVal v = false.
Proof. by destruct v. Qed.

Lemma builder_Attr_declared pb schema name attrS :
  builder_schema pb = schema → Attributes schema !! name = Some attrS →
  builder_Attr pb name = Some (default NilVal (attrs pb !! name)).
Proof. unfold builder_Attr. by intros -> ->. Qed.

(** X9. A plan builder whose action is [Create] has no prior reader, and
    [AttrChange] reports the null value of the attribute's type as the
    prior value of every attribute of the schema. *)
Theorem plan_Create_prior_null (schema : BlockType)
    (prior config proposed : Value) (b : planBuilder)
    (name : string) (attrS : Attribute) :
  NewPlanBuilder schema prior config proposed = Some b →
  action b = Create →
  Attributes schema !! name = Some attrS →
  PriorReader b = None ∧
  ∃ plannedV, AttrChange b name = Some (NullVal (Type_ attrS), plannedV).
Proof.
  unfold NewPlanBuilder, PriorReader. intros Hb Hact Hname.
  destruct (newPlanBuilder_Some _ _ _ _ _ Hb) as (Hs & Hp & _ & Hpl & Ha).
  rewrite Hact in Ha.
  destruct (IsNull proposed) eqn:Hproposed; [done|].
  destruct (IsNull prior) eqn:Hprior; [|done].
  rewrite andb_false_r in Hp. split; [done|].
  rewrite (IsNull_not_NilVal _ Hproposed) in Hpl. simpl in Hpl.
  unfold AttrChange, plan_Attr, requireWritable. rewrite Hs, Hp. simpl.
  rewrite Hname. simpl.
  destruct (planned b) as [pb|] eqn:Hpb.
  - symmetry in Hpl. unfold NewObjectBuilder in Hpl.
    destruct (newObjectBuilder_Some _ _ _ Hpl) as (Hschema & _).
    simpl. rewrite (builder_Attr_declared pb schema name attrS) by done.
    simpl. by eauto.
  - by eauto.
Qed.

Lemma newPlanBuilder_Delete schema prior config proposed b :
  newPlanBuilder schema prior config proposed = Some b →
  action b = Delete → planned b = None.
Proof.
  intros Hb Hact.
  destruct (newPlanBuilder_Some _ _ _ _ _ Hb) as (_ & _ & _ & Hpl & Ha).
  rewrite Hact in Ha. destruct (IsNull proposed) eqn:Hproposed.
  - by rewrite andb_false_r in Hpl.
  - by destruct (IsNull prior).
Qed.

(** X10. A plan builder whose action is [Delete] cannot be written or
    frozen: [ObjectVal], [Attr], [BlockCount] and [SetAttr] panic;
    [CanProvideAttrDefault] is false for every attribute, and [AttrChange]
    reports the null value of the attribute's type as its planned value. *)
Theorem plan_Delete_not_writable (schema : BlockType)
    (prior config proposed : Value) (b : planBuilder) :
  NewPlanBuilder schema prior config proposed = Some b →
  action b = Delete →
  plan_ObjectVal b = None ∧
  (∀ name, plan_Attr b name = None) ∧
  (∀ t, plan_BlockCount b t = None) ∧
  (∀ Convert name val, plan_SetAttr Convert b name val = None) ∧
  (∀ name attrS, Attributes schema !! name = Some attrS →
     CanProvideAttrDefault b name = Some false ∧
     ∀ priorV plannedV, AttrChange b name = Some (priorV, plannedV) →
                        plannedV = NullVal (Type_ attrS)).
Proof.
  unfold NewPlanBuilder. intros Hb Hact.
  pose proof (newPlanBuilder_Delete _ _ _ _ _ Hb Hact) as Hpl.
  destruct (newPlanBuilder_Some _ _ _ _ _ Hb) as (Hs & _).
  unfold plan_ObjectVal, plan_Attr, plan_BlockCount, plan_SetAttr,
    requireWritable, CanProvideAttrDefault, AttrChange.
  rewrite Hpl, Hs. simpl. split; [done|]. split; [done|]. split; [done|].
  split; [done|]. intros name attrS Hname. rewrite Hname. simpl. split; [done|].
  intros priorV plannedV.
  destruct (tfobj.prior b) as [r|]; simpl.
  - destruct (reader_Attr r name); simpl; congruence.
  - congruence.
Qed.

Lemma subBuilder_schema blockS p c q : plan_schema (subBuilder blockS p c q) = None.
Proof. done. Qed.

Lemma BlockPlanBuilderSingle_sub b t sb :
  BlockPlanBuilderSingle b t = Some sb →
  ∃ blockS p c q, sb = subBuilder blockS p c q ∧
    (is_Some (tfobj.prior b) → is_Some p).
Proof.
  unfold BlockPlanBuilderSingle. intros Hsb.
  destruct (plan_schema b) as [schema|]; [|done]. simpl in Hsb.
  destruct (NestedBlockTypes schema !! t) as [blockS|]; [|done]. simpl in Hsb.
  case_decide; [|done].
  destruct (tfobj.prior b) as [r|]; simpl in Hsb.
  - destruct (reader_BlockSingle r t) as [pr|]; [|done]. simpl in Hsb.
    simplify_option_eq; do 4 eexists; by eauto.
  - simplify_option_eq; do 4 eexists; split; [done|]; by intros [? ?].
Qed.

Lemma BlockPlanBuilderFromMap_sub b t key sb :
  BlockPlanBuilderFromMap b t key = Some sb →
  ∃ blockS p c q, sb = subBuilder blockS p c q ∧
    (is_Some (tfobj.prior b) → is_Some p).
Proof.
  unfold BlockPlanBuilderFromMap. intros Hsb.
  destruct (plan_schema b) as [schema|]; [|done]. simpl in Hsb.
  destruct (NestedBlockTypes schema !! t) as [blockS|]; [|done]. simpl in Hsb.
  case_decide; [|done].
  destruct (tfobj.prior b) as [r|]; simpl in Hsb.
  - destruct (reader_BlockFromMap r t key) as [pr|]; [|done]. simpl in Hsb.
    simplify_option_eq; do 4 eexists; by eauto.
  - simplify_option_eq; do 4 eexists; split; [done|]; by intros [? ?].
Qed.

Lemma BlockPlanBuilderFromList_sub b t idx sb :
  BlockPlanBuilderFromList b t idx = Some sb →
  ∃ blockS p c q, sb = subBuilder blockS p c q.
Proof.
  unfold BlockPlanBuilderFromList. intros Hsb.
  destruct (plan_schema b) as [schema|]; [|done]. simpl in Hsb.
  destruct (NestedBlockTypes schema !! t) as [blockS|]; [|done]. simpl in Hsb.
  case_decide; [|done]. simplify_option_eq; by do 4 eexists.
Qed.

Lemma BlockPlanBuilderList_sub b t l sb :
  BlockPlanBuilderList b t = Some l → sb ∈ l →
  ∃ blockS p c q, sb = subBuilder blockS p c q.
Proof.
  unfold BlockPlanBuilderList. intros Hl Hin.
  destruct (match planned b with Some pb => _ | None => _ end) as [c0|];
    [|done]. simpl in Hl.
  destruct (match tfobj.prior b with Some r => _ | None => _ end) as [c1|];
    [|done]. simpl in Hl.
  destruct (match tfobj.config b with Some r => _ | None => _ end) as [c2|];
    [|done]. simpl in Hl.
  case_decide; [simplify_eq; by apply elem_of_nil in Hin|].
  apply mapM_Some_1 in Hl.
  apply list_elem_of_lookup in Hin as [i Hi].
  destruct (Forall2_lookup_r _ _ _ _ _ Hl Hi) as (j & _ & Hj).
  by eapply BlockPlanBuilderFromList_sub.
Qed.

Lemma BlockPlanBuilderMap_sub b t m k sb :
  BlockPlanBuilderMap b t = Some m → m !! k = Some sb →
  ∃ blockS p c q, sb = subBuilder blockS p c q.
Proof.
  unfold BlockPlanBuilderMap. intros Hm Hk.
  destruct (plan_schema b) as [schema|]; [|done]. simpl in Hm.
  destruct (NestedBlockTypes schema !! t) as [blockS|]; [|done]. simpl in Hm.
  case_decide; [|done]. simplify_option_eq.
  rewrite map_lookup_imap in Hk.
  destruct (gset_to_gmap () _ !! k); simplify_eq/=. by do 4 eexists.
Qed.

(** X11. The plan builder of a nested block, whichever method returned
    it, has no schema: [AttrChange], [AttrHasChange],
    [CanProvideAttrDefault], [SetAttrUnknown], [SetAttrNull] and the
    methods that return plan builders of blocks nested further panic on
    it. *)
Theorem nested_plan_builder_has_no_schema (b sb : planBuilder) (t : string) :
  BlockPlanBuilderSingle b t = Some sb ∨
  (∃ idx, BlockPlanBuilderFromList b t idx = Some sb) ∨
  (∃ key, BlockPlanBuilderFromMap b t key = Some sb) ∨
  (∃ l, BlockPlanBuilderList b t = Some l ∧ sb ∈ l) ∨
  (∃ m k, BlockPlanBuilderMap b t = Some m ∧ m !! k = Some sb) →
  (∀ name, AttrChange sb name = None ∧ AttrHasChange sb name = None ∧
           CanProvideAttrDefault sb name = None) ∧
  (∀ Convert name, SetAttrUnknown Convert sb name = None ∧
                   SetAttrNull Convert sb name = None) ∧
  (∀ t', BlockPlanBuilderSingle sb t' = None ∧
         BlockPlanBuilderMap sb t' = None ∧
         (∀ idx, BlockPlanBuilderFromList sb t' idx = None) ∧
         (∀ key, BlockPlanBuilderFromMap sb t' key = None)).
Proof.
  intros Hsb.
  assert (plan_schema sb = None) as Hnone.
  { destruct Hsb as [H|[[idx H]|[[key H]|[(l & H & Hin)|(m & k & H & Hk)]]]].
    - by destruct (BlockPlanBuilderSingle_sub _ _ _ H) as (? & ? & ? & ? & -> & _).
    - by destruct (BlockPlanBuilderFromList_sub _ _ _ _ H) as (? & ? & ? & ? & ->).
    - by destruct (BlockPlanBuilderFromMap_sub _ _ _ _ H) as (? & ? & ? & ? & -> & _).
    - by destruct (BlockPlanBuilderList_sub _ _ _ _ H Hin) as (? & ? & ? & ? & ->).
    - by destruct (BlockPlanBuilderMap_sub _ _ _ _ _ H Hk) as (? & ? & ? & ? & ->). }
  unfold AttrHasChange, AttrChange, CanProvideAttrDefault, SetAttrUnknown, SetAttrNull,
    BlockPlanBuilderSingle, BlockPlanBuilderMap, BlockPlanBuilderFromList,
    BlockPlanBuilderFromMap.
  rewrite Hnone. done.
Qed.

(** X12. Where there is a prior object, the plan builder of a single
    block, or of a block of a map, always has a prior reader and its
    action is never [Create]: [BlockSingle] and [BlockFromMap] return a
    reader also for a block that the prior object does not have. *)
Theorem nested_plan_with_prior_not_Create (b sb : planBuilder) (t : string) :
  is_Some (PriorReader b) →
  BlockPlanBuilderSingle b t = Some sb ∨
  (∃ key, BlockPlanBuilderFromMap b t key = Some sb) →
  is_Some (PriorReader sb) ∧ action sb ≠ Create.
Proof.
  unfold PriorReader. intros Hprior Hsb.
  assert (∃ blockS p c q, sb = subBuilder blockS p c q ∧ is_Some p)
    as (blockS & p & c & q & -> & [r ->]).
  { destruct Hsb as [H|[key H]].
    - destruct (BlockPlanBuilderSingle_sub _ _ _ H) as (? & ? & ? & ? & -> & Hp).
      do 4 eexists. by eauto.
    - destruct (BlockPlanBuilderFromMap_sub _ _ _ _ H) as (? & ? & ? & ? & -> & Hp).
      do 4 eexists. by eauto. }
  split; [by eauto|]. by destruct q.
Qed.

Lemma mapM_cons_None {A B} (f : A → option B) x l :
  f x = None → mapM f (x :: l) = None.
Proof. intros Hx. csimpl. by rewrite Hx. Qed.

(** X13. [BlockPlanBuilderList] accepts the count of a set block type and
    then calls [BlockPlanBuilderFromList], which accepts list nesting
    only: with at least one planned block of a set type it panics. *)
Theorem BlockPlanBuilderList_set_panics (b : planBuilder) (schema : BlockType)
    (pb : objectBuilder) (t : string) (blockS : NestedBlockType) (count : nat) :
  plan_schema b = Some schema →
  NestedBlockTypes schema !! t = Some blockS →
  Nesting blockS = NestingSet →
  planned b = Some pb →
  builder_BlockCount pb t = Some count →
  0 < count →
  BlockPlanBuilderList b t = None.
Proof.
  intros Hs Ht Hmode Hpb Hcount Hpos.
  assert (Hfrom : ∀ idx, BlockPlanBuilderFromList b t idx = None).
  { intros idx. unfold BlockPlanBuilderFromList. rewrite Hs. simpl. rewrite Ht. simpl.
    rewrite decide_False; [done|]. by rewrite Hmode. }
  unfold BlockPlanBuilderList. rewrite Hpb, Hcount. simpl.
  destruct (match tfobj.prior b with Some r => _ | None => _ end) as [c1|] eqn:H1;
    [|done]. simpl.
  destruct (match tfobj.config b with Some r => _ | None => _ end) as [c2|] eqn:H2;
    [|done]. simpl.
  assert (count ≤ c1).
  { destruct (tfobj.prior b); [|by simplify_eq].
    destruct (reader_BlockCount _ t); simplify_eq/=. case_decide; lia. }
  assert (c1 ≤ c2).
  { destruct (tfobj.config b); [|by simplify_eq].
    destruct (reader_BlockCount _ t); simplify_eq/=. case_decide; lia. }
  rewrite decide_False by lia.
  destruct c2 as [|c2]; [lia|]. simpl seq.
  apply mapM_cons_None, Hfrom.
Qed.

(** ** Plan builder: the blocks of a list *)

(** The blocks of a list-nesting type in a conforming object can be
    counted, and read at every position below the count. *)
Lemma reader_list_blocks r t blockS :
  conforms (reader_schema r) (reader_v r) →
  NestedBlockTypes (reader_schema r) !! t = Some blockS →
  Nesting blockS = NestingList →
  ∃ count, reader_BlockCount r t = Some count ∧
    ∀ idx, (0 ≤ idx < Z.of_nat count)%Z → is_Some (reader_BlockFromList r t idx).
Proof.
  destruct r as [schema obj]. simpl. intros Hobj Ht Hmode.
  inversion Hobj as [attrsS blocksS m Hma Hmb]; subst. simpl in Ht.
  destruct (Hmb t blockS Ht) as (bv & Hbv & Hconf).
  destruct blockS as [nesting content mx mn]. simpl in Hmode. subst nesting.
  assert (Hval : blockVal (mkObjectReaderVal (mkBlockType attrsS blocksS) (ObjectVal m)) t
                 = Some (mkNestedBlockType NestingList content mx mn, bv)).
  { unfold blockVal. simpl. rewrite Ht. simpl. by rewrite GetAttr_object, Hbv. }
  unfold reader_BlockCount, reader_BlockFromList. rewrite Hval. simpl.
  inversion Hconf as [| | ? ? ? l Hst Hall | ? ? ? l Hdyn Hall | | |]; subst; simpl.
  - eexists. split; [done|]. intros idx Hidx.
    unfold Index. simpl. rewrite decide_False by lia.
    destruct (lookup_lt_is_Some_2 l (Z.to_nat idx)) as [v ->]; [lia|]. by eauto.
  - unfold LengthInt. simpl. eexists. split; [done|]. intros idx Hidx.
    rewrite length_fmap in Hidx.
    unfold Index. simpl. rewrite decide_False by lia.
    rewrite list_lookup_fmap.
    destruct (lookup_lt_is_Some_2 l (Z.to_nat idx)) as [v ->]; [lia|]. by eauto.
Qed.

Lemma builder_list_blocks pb t blockS :
  NestedBlockTypes (builder_schema pb) !! t = Some blockS →
  Nesting blockS = NestingList →
  ∃ count, builder_BlockCount pb t = Some count ∧
    ∀ idx, (0 ≤ idx < Z.of_nat count)%Z →
           ∃ nb, BlockBuilderFromList pb t idx = Some (Some nb).
Proof.
  intros Ht Hmode. unfold builder_BlockCount, BlockBuilderFromList.
  rewrite Ht. simpl. rewrite Hmode.
  exists (length (default [] (listBlocks pb !! t))). split; [done|].
  intros idx Hidx. rewrite decide_True by done. rewrite decide_False by lia.
  destruct (lookup_lt_is_Some_2 (default [] (listBlocks pb !! t)) (Z.to_nat idx))
    as [nb ->]; [lia|]. by eauto.
Qed.

Section list_plan.
Context (b : planBuilder) (schema : BlockType) (t : string) (blockS : NestedBlockType).
Hypothesis Hschema : plan_schema b = Some schema.
Hypothesis Hprior : ∀ r, tfobj.prior b = Some r →
  reader_schema r = schema ∧ conforms schema (reader_v r).
Hypothesis Hconfig : ∀ r, tfobj.config b = Some r →
  reader_schema r = schema ∧ conforms schema (reader_v r).
Hypothesis Hplanned : ∀ pb, planned b = Some pb → builder_schema pb = schema.
Hypothesis Ht : NestedBlockTypes schema !! t = Some blockS.
Hypothesis Hmode : Nesting blockS = NestingList.

Let cp := default 0 (planned b ≫= λ pb, builder_BlockCount pb t).
Let cr := default 0 (tfobj.prior b ≫= λ r, reader_BlockCount r t).

Lemma BlockPlanBuilderFromList_in_range (i : nat) :
  ∃ sb, BlockPlanBuilderFromList b t (Z.of_nat i) = Some sb ∧
        action sb = if decide (cp ≤ i) then Delete
                    else if decide (cr ≤ i) then Create else Update.
Proof.
  unfold BlockPlanBuilderFromList. rewrite Hschema. simpl. rewrite Ht. simpl.
  rewrite decide_True by done.
  assert (Hreader : ∀ r, reader_schema r = schema ∧ conforms schema (reader_v r) →
            ∃ count o, reader_BlockCount r t = Some count ∧
              (count ← reader_BlockCount r t;
               if decide (Z.of_nat count > Z.of_nat i)%Z
               then Some <$> reader_BlockFromList r t (Z.of_nat i)
               else Some None) = Some o ∧
              (is_Some o ↔ i < count)).
  { intros r [Hrs Hrv]. rewrite <-Hrs in Hrv, Ht.
    destruct (reader_list_blocks r t blockS Hrv Ht Hmode) as (count & Hc & Hfrom).
    exists count. rewrite Hc. simpl. case_decide as Hlt.
    - destruct (Hfrom (Z.of_nat i)) as [pr ->]; [lia|]. simpl.
      eexists. split; [done|]. split; [done|]. split; [lia|by eauto].
    - eexists. split; [done|]. split; [done|]. split; [by intros [? ?]|lia]. }
  assert (∃ p, match tfobj.prior b with
               | Some r =>
                   count ← reader_BlockCount r t;
                   if decide (Z.of_nat count > Z.of_nat i)%Z
                   then Some <$> reader_BlockFromList r t (Z.of_nat i)
                   else Some None
               | None => Some None
               end = Some p ∧ (is_Some p ↔ i < cr)) as (p & -> & Hp).
  { subst cr. destruct (tfobj.prior b) as [r|] eqn:Hr; simpl.
    - destruct (Hreader r (Hprior r eq_refl)) as (count & o & Hc & -> & Ho).
      rewrite Hc. simpl. by eauto.
    - eexists. split; [done|]. split; [by intros [? ?]|lia]. }
  assert (∃ c, match tfobj.config b with
               | Some r =>
                   count ← reader_BlockCount r t;
                   if decide (Z.of_nat count > Z.of_nat i)%Z
                   then Some <$> reader_BlockFromList r t (Z.of_nat i)
                   else Some None
               | None => Some None
               end = Some c) as (c & ->).
  { destruct (tfobj.config b) as [r|] eqn:Hr; simpl; [|by eauto].
    destruct (Hreader r (Hconfig r eq_refl)) as (count & o & Hc & -> & Ho).
    by eauto. }
  assert (∃ q, match planned b with
               | Some pb =>
                   count ← builder_BlockCount pb t;
                   if decide (Z.of_nat count > Z.of_nat i)%Z
                   then BlockBuilderFromList pb t (Z.of_nat i)
                   else Some None
               | None => Some None
               end = Some q ∧ (is_Some q ↔ i < cp)) as (q & -> & Hq).
  { subst cp. destruct (planned b) as [pb|] eqn:Hpb; simpl.
    - pose proof (Hplanned pb eq_refl) as Hpbs. rewrite <-Hpbs in Ht.
      destruct (builder_list_blocks pb t blockS Ht Hmode) as (count & Hc & Hfrom).
      rewrite Hc. simpl. case_decide as Hlt.
      + destruct (Hfrom (Z.of_nat i)) as [nb ->]; [lia|].
        eexists. split; [done|]. split; [lia|by eauto].
      + eexists. split; [done|]. split; [by intros [? ?]|lia].
    - eexists. split; [done|]. split; [by intros [? ?]|lia]. }
  simpl. eexists. split; [done|].
  destruct (decide (cp ≤ i)) as [Hle|Hgt].
  - assert (q = None) as ->; [|done].
    destruct q; [|done]. destruct Hq as [Hq _].
    specialize (Hq (mk_is_Some _ _ eq_refl)). lia.
  - assert (is_Some q) as [nb ->] by (apply Hq; lia).
    destruct (decide (cr ≤ i)) as [Hle|Hgt'].
    + assert (p = None) as ->; [|done].
      destruct p; [|done]. destruct Hp as [Hp _].
      specialize (Hp (mk_is_Some _ _ eq_refl)). lia.
    + by assert (is_Some p) as [pr ->] by (apply Hp; lia).
Qed.

Let cc := default 0 (tfobj.config b ≫= λ r, reader_BlockCount r t).

Lemma BlockPlanBuilderList_in_section :
  ∃ l, BlockPlanBuilderList b t = Some l ∧
       length l = (cp `max` cr) `max` cc ∧
       ∀ i sb, l !! i = Some sb →
         action sb = if decide (cp ≤ i) then Delete
                     else if decide (cr ≤ i) then Create else Update.
Proof.
  unfold BlockPlanBuilderList.
  assert (Hreader : ∀ r, reader_schema r = schema ∧ conforms schema (reader_v r) →
            is_Some (reader_BlockCount r t)).
  { intros r [Hrs Hrv]. rewrite <-Hrs in Hrv, Ht.
    destruct (reader_list_blocks r t blockS Hrv Ht Hmode) as (count & Hc & _).
    by eauto. }
  assert (match planned b with
          | Some pb => builder_BlockCount pb t
          | None => Some 0
          end = Some cp) as ->.
  { subst cp. destruct (planned b) as [pb|] eqn:Hpb; simpl; [|done].
    pose proof (Hplanned pb eq_refl) as Hpbs. rewrite <-Hpbs in Ht.
    by destruct (builder_list_blocks pb t blockS Ht Hmode) as (count & -> & _). }
  simpl.
  assert (match tfobj.prior b with
          | Some r => priorCount ← reader_BlockCount r t;
                      Some (if decide (cp < priorCount) then priorCount else cp)
          | None => Some cp
          end = Some (cp `max` cr)) as ->.
  { subst cr. destruct (tfobj.prior b) as [r|] eqn:Hr; simpl.
    - destruct (Hreader r (Hprior r eq_refl)) as [c ->]. simpl.
      f_equal. case_decide; lia.
    - f_equal. lia. }
  simpl.
  assert (match tfobj.config b with
          | Some r => configCount ← reader_BlockCount r t;
                      Some (if decide (cp `max` cr < configCount)
                            then configCount else cp `max` cr)
          | None => Some (cp `max` cr)
          end = Some ((cp `max` cr) `max` cc)) as ->.
  { subst cc. destruct (tfobj.config b) as [r|] eqn:Hr; simpl.
    - destruct (Hreader r (Hconfig r eq_refl)) as [c ->]. simpl.
      f_equal. case_decide; lia.
    - f_equal. lia. }
  simpl. set (n := (cp `max` cr) `max` cc). case_decide as Hn.
  - exists []. split; [done|]. split; [by rewrite Hn|]. intros i sb Hi.
    by rewrite lookup_nil in Hi.
  - destruct (mapM_is_Some_2 (λ i, BlockPlanBuilderFromList b t (Z.of_nat i)) (seq 0 n))
      as [l Hl].
    { apply Forall_forall. intros i _.
      destruct (BlockPlanBuilderFromList_in_range i) as (sb & Hsb & _).
      unfold compose. by rewrite Hsb. }
    exists l. split; [done|]. split.
    + by rewrite (mapM_length_eq _ _ _ Hl), length_seq.
    + intros i sb Hi. apply mapM_Some_1 in Hl.
      destruct (Forall2_lookup_r _ _ _ _ _ Hl Hi) as (j & Hj & Hsb).
      apply lookup_seq in Hj as [-> _]. simpl in Hsb.
      destruct (BlockPlanBuilderFromList_in_range i) as (sb' & Hsb' & Hact).
      congruence.
Qed.

End list_plan.

(** X14. [BlockPlanBuilderList] on a list block type of a plan over
    conforming objects returns one plan builder for every position below
    the largest of the planned, prior and configured block counts; the
    builder at a position at or past the planned count is a [Delete], one
    below it and at or past the prior count a [Create], every other an
    [Update]. *)
Theorem BlockPlanBuilderList_positions (schema : BlockType)
    (priorV configV proposedV : Value) (b : planBuilder)
    (t : string) (blockS : NestedBlockType) :
  NewPlanBuilder schema priorV configV proposedV = Some b →
  (IsNull priorV = false → conforms schema priorV) →
  (IsNull configV = false → conforms schema configV) →
  NestedBlockTypes schema !! t = Some blockS →
  Nesting blockS = NestingList →
  let plannedCount := default 0 (plan_BlockCount b t) in
  let priorCount := default 0 (PriorReader b ≫= λ r, reader_BlockCount r t) in
  let configCount := default 0 (ConfigReader b ≫= λ r, reader_BlockCount r t) in
  ∃ l, BlockPlanBuilderList b t = Some l ∧
       length l = (plannedCount `max` priorCount) `max` configCount ∧
       ∀ i sb, l !! i = Some sb →
         action sb = if decide (plannedCount ≤ i) then Delete
                     else if decide (priorCount ≤ i) then Create else Update.
Proof.
  unfold NewPlanBuilder. intros Hb Hprior Hconfig Ht Hmode.
  destruct (newPlanBuilder_Some _ _ _ _ _ Hb) as (Hs & Hp & Hc & Hpl & _).
  apply (BlockPlanBuilderList_in_section b schema t blockS); try done.
  - intros r Hr. rewrite Hr in Hp.
    destruct (IsNull priorV) eqn:Hnull; [by rewrite andb_false_r in Hp|].
    destruct (negb (is_NilVal priorV)); [|done]. simpl in Hp. symmetry in Hp.
    apply NewObjectReader_Some in Hp as (-> & _). by eauto.
  - intros r Hr. rewrite Hr in Hc.
    destruct (IsNull configV) eqn:Hnull; [by rewrite andb_false_r in Hc|].
    destruct (negb (is_NilVal configV)); [|done]. simpl in Hc. symmetry in Hc.
    apply NewObjectReader_Some in Hc as (-> & _). by eauto.
  - intros pb Hpb. rewrite Hpb in Hpl.
    destruct (negb (is_NilVal proposedV) && negb (IsNull proposedV)); [|done].
    symmetry in Hpl. unfold NewObjectBuilder in Hpl.
    by destruct (newObjectBuilder_Some _ _ _ Hpl) as (Hschema & _).
Qed.

(** ** The builders at the example schemas

    Each lemma below runs one of the general statements above at the
    example resource. *)

Lemma NewObjectBuilder_NilVal_empty_witness :
  ∃ b, NewObjectBuilder resource NilVal = Some b ∧
       (∀ name attrS, Attributes resource !! name = Some attrS →
          builder_Attr b name = Some (NullVal (Type_ attrS))) ∧
       (∀ t nb, NestedBlockTypes resource !! t = Some nb →
          builder_BlockCount b t = Some 0).
Proof.
  apply (NewObjectBuilder_NilVal_empty resource).
  unfold resource; simpl. each_entry; done.
Defined.

Lemma ObjectVal_absent_single_panics_witness :
  ∃ b, NewObjectBuilder single_schema single_obj = Some b ∧
       builder_BlockCount b "meta" = Some 0 ∧ ObjectVal_ b = None.
Proof.
  exists (built single_schema single_obj). split; [by_vm|]. split; [by_vm|].
  apply (ObjectVal_absent_single_panics single_schema single_obj _ "meta"
           (mkNestedBlockType NestingSingle inner 0 0)); by_vm.
Defined.

Lemma DeriveNewObject_agrees_witness :
  ∃ r b, NewObjectReader resource config_obj = Some r ∧
         DeriveNewObject r = Some b ∧
         (∀ name, builder_Attr b name = reader_Attr r name) ∧
         (∀ t, builder_BlockCount b t = reader_BlockCount r t).
Proof.
  exists (mkObjectReaderVal resource config_obj), (built resource config_obj).
  split; [by_vm|]. split; [by_vm|].
  apply (DeriveNewObject_agrees resource config_obj);
    [exact conforms_config_obj | by_vm | by_vm].
Defined.

Lemma whole_element v : type_of v = TString → whole inner (element v).
Proof.
  intros Hv. constructor.
  - by_vm.
  - each_entry; eexists; (split; [reflexivity|done]).
  - intros name nb Hname. by rewrite lookup_empty in Hname.
Qed.

Lemma set_ok_ports : set_ok [element (StringVal "a"); element (NullVal TString)].
Proof.
  intros [|[|i]] x Hx; simpl in Hx; [| |done]; injection Hx as <-; by vm_compute.
Qed.

Lemma whole_config_obj : whole resource config_obj.
Proof.
  constructor.
  - by_vm.
  - each_entry; eexists; (split; [reflexivity|done]).
  - each_entry; eexists; (split; [reflexivity|]);
      first [ apply (whole_map inner); [by vm_compute|]; each_entry
            | apply (whole_list inner); [by vm_compute|]
            | apply (whole_set inner); [by vm_compute| |exact set_ok_ports] ];
      repeat first [apply Forall_nil_2 | apply Forall_cons_2];
      by apply whole_element.
Qed.

Lemma ObjectVal_of_NewObjectBuilder_witness :
  NewObjectBuilder resource config_obj ≫= ObjectVal_ = Some config_obj.
Proof. exact (ObjectVal_of_NewObjectBuilder resource config_obj whole_config_obj). Defined.

Lemma ReplaceBlocksList_replaces_witness :
  ∃ b nb b', NewObjectBuilder resource config_obj = Some b ∧
    NewBlockBuilder b "step" = Some nb ∧
    ReplaceBlocksList b "step" [nb; nb] = Some b' ∧
    BlockBuilderList b' "step" = Some [nb; nb] ∧
    builder_BlockCount b' "step" = Some 2 ∧
    (∀ t', t' ≠ "step" → builder_BlockCount b' t' = builder_BlockCount b t') ∧
    (∀ name, builder_Attr b' name = builder_Attr b name).
Proof.
  pose (b := built resource config_obj).
  pose (nb := default b (NewBlockBuilder b "step")).
  pose (b' := default b (ReplaceBlocksList b "step" [nb; nb])).
  exists b, nb, b'. split; [by_vm|]. split; [by_vm|]. split; [by_vm|].
  apply (ReplaceBlocksList_replaces b b' "step" [nb; nb]). by_vm.
Defined.

Lemma ReplaceBlockSingle_replaces_witness :
  ∃ b nb b', NewObjectBuilder single_schema single_obj = Some b ∧
    NewBlockBuilder b "meta" = Some nb ∧
    ReplaceBlockSingle b "meta" (Some nb) = Some b' ∧
    BlockBuilderSingle b' "meta" = Some (Some nb) ∧
    builder_BlockCount b' "meta" = Some 1 ∧
    (∀ t', t' ≠ "meta" → builder_BlockCount b' t' = builder_BlockCount b t') ∧
    (∀ name, builder_Attr b' name = builder_Attr b name).
Proof.
  pose (b := built single_schema single_obj).
  pose (nb := default b (NewBlockBuilder b "meta")).
  pose (b' := default b (ReplaceBlockSingle b "meta" (Some nb))).
  exists b, nb, b'. split; [by_vm|]. split; [by_vm|]. split; [by_vm|].
  apply (ReplaceBlockSingle_replaces b b' "meta" (Some nb)). by_vm.
Defined.

Lemma BlockBuilderFromList_bounds_witness :
  ∃ b, NewObjectBuilder resource stepped_proposed = Some b ∧
    (is_Some (BlockBuilderFromList b "step" 1) ↔ (0 ≤ 1 < Z.of_nat 2)%Z) ∧
    (∀ r, BlockBuilderFromList b "step" 1 = Some r → is_Some r).
Proof.
  exists (built resource stepped_proposed). split; [by_vm|].
  apply (BlockBuilderFromList_bounds _ "step" (mkNestedBlockType NestingList inner 0 0));
    [by_vm | reflexivity | by_vm].
Defined.

Lemma SetAttr_then_Attr_witness :
  ∃ b b', NewObjectBuilder resource config_obj = Some b ∧
    SetAttr exact_convert b "name" (StringVal "b") = Some b' ∧
    (∃ attrS val', Attributes (builder_schema b) !! "name" = Some attrS ∧
                   exact_convert (StringVal "b") (Type_ attrS) = inl val' ∧
                   builder_Attr b' "name" = Some val') ∧
    (∀ name', name' ≠ "name" → builder_Attr b' name' = builder_Attr b name') ∧
    (∀ t, builder_BlockCount b' t = builder_BlockCount b t).
Proof.
  pose (b := built resource config_obj).
  pose (b' := default b (SetAttr exact_convert b "name" (StringVal "b"))).
  exists b, b'. split; [by_vm|]. split; [by_vm|].
  apply (SetAttr_then_Attr exact_convert b b' "name" (StringVal "b")). by_vm.
Defined.

Lemma plan_Create_prior_null_witness :
  ∃ b, NewPlanBuilder resource null_obj config_obj planned_obj = Some b ∧
    action b = Create ∧
    PriorReader b = None ∧
    ∃ plannedV, AttrChange b "id" = Some (NullVal TString, plannedV).
Proof.
  exists (planning null_obj config_obj planned_obj).
  split; [by_vm|]. split; [by_vm|].
  apply (plan_Create_prior_null resource null_obj config_obj planned_obj _ "id"
           (attribute TString false false true None)); by_vm.
Defined.

Lemma plan_Delete_not_writable_witness :
  ∃ b, NewPlanBuilder resource prior_obj null_obj null_obj = Some b ∧
    action b = Delete ∧
    plan_ObjectVal b = None ∧
    (∀ name, plan_Attr b name = None) ∧
    (∀ t, plan_BlockCount b t = None) ∧
    (∀ Convert name val, plan_SetAttr Convert b name val = None) ∧
    (∀ name attrS, Attributes resource !! name = Some attrS →
       CanProvideAttrDefault b name = Some false ∧
       ∀ priorV plannedV, AttrChange b name = Some (priorV, plannedV) →
                          plannedV = NullVal (Type_ attrS)).
Proof.
  exists (planning prior_obj null_obj null_obj).
  split; [by_vm|]. split; [by_vm|].
  apply (plan_Delete_not_writable resource prior_obj null_obj null_obj); by_vm.
Defined.

Lemma nested_plan_builder_has_no_schema_witness :
  ∃ b sb, NewPlanBuilder resource prior_obj config_obj renamed_obj = Some b ∧
    BlockPlanBuilderFromMap b "rule" "http" = Some sb ∧
    (∀ name, AttrChange sb name = None ∧ AttrHasChange sb name = None ∧
             CanProvideAttrDefault sb name = None) ∧
    (∀ Convert name, SetAttrUnknown Convert sb name = None ∧
                     SetAttrNull Convert sb name = None) ∧
    (∀ t', BlockPlanBuilderSingle sb t' = None ∧
           BlockPlanBuilderMap sb t' = None ∧
           (∀ idx, BlockPlanBuilderFromList sb t' idx = None) ∧
           (∀ key, BlockPlanBuilderFromMap sb t' key = None)).
Proof.
  pose (b := planning prior_obj config_obj renamed_obj).
  pose (sb := default b (BlockPlanBuilderFromMap b "rule" "http")).
  exists b, sb. split; [by_vm|]. split; [by_vm|].
  apply (nested_plan_builder_has_no_schema b sb "rule").
  right; right; left. exists "http"%string. by_vm.
Defined.

Lemma nested_plan_with_prior_not_Create_witness :
  ∃ b sb, NewPlanBuilder resource prior_obj config_obj renamed_obj = Some b ∧
    BlockPlanBuilderFromMap b "rule" "smtp" = Some sb ∧
    is_Some (PriorReader sb) ∧ action sb ≠ Create.
Proof.
  pose (b := planning prior_obj config_obj renamed_obj).
  pose (sb := default b (BlockPlanBuilderFromMap b "rule" "smtp")).
  exists b, sb. split; [by_vm|]. split; [by_vm|].
  apply (nested_plan_with_prior_not_Create b sb "rule").
  - exists (mkObjectReaderVal resource prior_obj). by_vm.
  - right. exists "smtp"%string. by_vm.
Defined.

Lemma BlockPlanBuilderList_set_panics_witness :
  ∃ b, NewPlanBuilder resource prior_obj config_obj renamed_obj = Some b ∧
    BlockPlanBuilderList b "port" = None.
Proof.
  pose (b := planning prior_obj config_obj renamed_obj).
  exists b. split; [by_vm|].
  apply (BlockPlanBuilderList_set_panics b resource (built resource renamed_obj)
           "port" (mkNestedBlockType NestingSet inner 0 0) 2);
    [by_vm | by_vm | reflexivity | by_vm | by_vm | lia].
Defined.

Lemma conforms_with_steps id name tags steps :
  type_of id = TString → type_of name = TString → type_of tags = TList TString →
  Forall (λ v, type_of v = TString) steps →
  conforms resource (with_steps (object id name tags) (element <$> steps)).
Proof.
  intros Hid Hname Htags Hsteps. unfold with_steps, object. constructor.
  - each_entry; eexists; (split; [reflexivity|done]).
  - each_entry; eexists; (split; [reflexivity|]).
    + apply (conforms_list inner); [done|].
      induction Hsteps; constructor; [by apply conforms_element|done].
    + apply (conforms_map inner); [done|]. each_entry. by apply conforms_element.
    + apply (conforms_set inner).
      repeat first [apply Forall_nil_2 | apply Forall_cons_2];
        by apply conforms_element.
Qed.

Lemma BlockPlanBuilderList_positions_witness :
  ∃ b, NewPlanBuilder resource stepped_prior stepped_config stepped_proposed = Some b ∧
    let plannedCount := default 0 (plan_BlockCount b "step") in
    let priorCount := default 0 (PriorReader b ≫= λ r, reader_BlockCount r "step") in
    let configCount := default 0 (ConfigReader b ≫= λ r, reader_BlockCount r "step") in
    (plannedCount, priorCount, configCount) = (2, 1, 3) ∧
    ∃ l, BlockPlanBuilderList b "step" = Some l ∧
         length l = (plannedCount `max` priorCount) `max` configCount ∧
         ∀ i sb, l !! i = Some sb →
           action sb = if decide (plannedCount ≤ i) then Delete
                       else if decide (priorCount ≤ i) then Create else Update.
Proof.
  exists (planning stepped_prior stepped_config stepped_proposed).
  split; [by_vm|]. split; [by_vm|].
  apply (BlockPlanBuilderList_positions resource
           stepped_prior stepped_config stepped_proposed
           _ "step" (mkNestedBlockType NestingList inner 0 0)).
  - by_vm.
  - intros _. apply conforms_with_steps; try done. by repeat constructor.
  - intros _. apply conforms_with_steps; try done. by repeat constructor.
  - by_vm.
  - reflexivity.
Defined.

(** ** Diagnostics *)

Lemma HasErrors_app diags more :
  HasErrors (diags ++ more) = HasErrors diags || HasErrors more.
Proof. unfold HasErrors. apply existsb_app. Qed.

Lemma HasErrors_UnderPath diags base :
  HasErrors (UnderPath diags base) = HasErrors diags.
Proof.
  unfold HasErrors, UnderPath. induction diags as [|d diags IH]; [done|].
  csimpl. by rewrite IH.
Qed.

(** X15. [UnderPath] composes: putting diagnostics under [p] and the
    result under [q] is putting them under [q ++ p]; the empty path
    changes nothing; and [UnderPath] changes neither the number of
    diagnostics nor whether there is an error among them. *)
Theorem UnderPath_compose (diags : Diagnostics) (p q : cty.Path) :
  UnderPath (UnderPath diags p) q = UnderPath diags (q ++ p) ∧
  UnderPath diags [] = diags ∧
  length (UnderPath diags p) = length diags ∧
  HasErrors (UnderPath diags p) = HasErrors diags.
Proof.
  split; [|split; [|split]].
  - unfold UnderPath. rewrite <- list_fmap_compose. apply list_fmap_ext.
    intros _ d _. unfold under. simpl. by rewrite app_assoc.
  - unfold UnderPath. rewrite <- (list_fmap_id diags) at 2. apply list_fmap_ext.
    intros _ d _. by destruct d.
  - unfold UnderPath. apply length_fmap.
  - apply HasErrors_UnderPath.
Qed.

Lemma Append_None vals : foldl Append_step None vals = None.
Proof. by induction vals. Qed.

(** X16. [Append] panics exactly when one of the arguments is of a type
    it does not support.  When it returns, the result is the receiver
    followed by further diagnostics (nothing is dropped or reordered), so
    an error in the receiver remains one in the result, and every argument
    that is an [error] value leaves an error in the result. *)
Theorem Append_extends (diags : Diagnostics) (vals : list AppendArg) :
  (is_Some (Append diags vals) ↔ ArgOther ∉ vals) ∧
  ∀ r, Append diags vals = Some r →
    (∃ more, r = diags ++ more ∧
             HasErrors r = HasErrors diags || HasErrors more) ∧
    (∀ val, ArgDiagnostic val ∈ vals → val ∈ r) ∧
    (∀ val d, ArgDiagnostics val ∈ vals → d ∈ val → d ∈ r) ∧
    ((∃ formatted, ArgError formatted ∈ vals) → HasErrors r = true).
Proof.
  unfold Append. revert diags.
  induction vals as [|val vals IH]; intros diags.
  - simpl. split.
    + split; [intros _; apply not_elem_of_nil | by eauto].
    + intros r [= <-]. split; [|split; [|split]].
      * exists []. by rewrite app_nil_r, orb_false_r.
      * intros val Hval. by apply elem_of_nil in Hval.
      * intros val d Hval. by apply elem_of_nil in Hval.
      * intros [f Hf]. by apply elem_of_nil in Hf.
  - simpl. destruct val as [ds|d|formatted|]; simpl.
    + destruct (IH (diags ++ ds)) as [Hsome Hr]. split.
      * rewrite Hsome, not_elem_of_cons. split; [by split | by intros [_ ?]].
      * intros r Hres. destruct (Hr r Hres) as ((more & -> & He) & H1 & H2 & H3).
        split; [|split; [|split]].
        -- exists (ds ++ more). rewrite app_assoc. split; [done|].
           rewrite He, !HasErrors_app. by rewrite orb_assoc.
        -- intros val [Hval|Hval]%elem_of_cons; [done|auto].
        -- intros val d [Hval|Hval]%elem_of_cons Hd; [|eauto].
           injection Hval as ->. rewrite !elem_of_app. auto.
        -- intros [f [Hf|Hf]%elem_of_cons]; [done|eauto].
    + destruct (IH (diags ++ [d])) as [Hsome Hr]. split.
      * rewrite Hsome, not_elem_of_cons. split; [by split | by intros [_ ?]].
      * intros r Hres. destruct (Hr r Hres) as ((more & -> & He) & H1 & H2 & H3).
        split; [|split; [|split]].
        -- exists ([d] ++ more). rewrite app_assoc. split; [done|].
           rewrite He, !HasErrors_app. by rewrite orb_assoc.
        -- intros val [Hval|Hval]%elem_of_cons; [|auto].
           injection Hval as ->. rewrite !elem_of_app, list_elem_of_singleton. auto.
        -- intros val d' [Hval|Hval]%elem_of_cons Hd; [done|eauto].
        -- intros [f [Hf|Hf]%elem_of_cons]; [done|eauto].
    + destruct (IH (diags ++ [mkDiagnostic Error "Error from provider"
                                ("Provider error: " +:+ formatted) []]))
        as [Hsome Hr]. split.
      * rewrite Hsome, not_elem_of_cons. split; [by split | by intros [_ ?]].
      * intros r Hres. destruct (Hr r Hres) as ((more & -> & He) & H1 & H2 & H3).
        split; [|split; [|split]].
        -- eexists (_ ++ more). rewrite app_assoc. split; [done|].
           rewrite He, !HasErrors_app. by rewrite orb_assoc.
        -- intros val [Hval|Hval]%elem_of_cons; [done|auto].
        -- intros val d' [Hval|Hval]%elem_of_cons Hd; [done|eauto].
        -- intros _. rewrite He, HasErrors_app. simpl.
           by rewrite orb_true_r.
    + rewrite Append_None. split.
      * split; [by intros [? ?]|]. intros Hn. exfalso. apply Hn. by left.
      * by intros r.
Qed.

(** ** Validation: what it checks and what it does not *)

Lemma map_range_ext2 {A A' B} (m : gmap string A) (m' : gmap string A')
    (body : string → A → option B) (body' : string → A' → option B) :
  (∀ k, match m !! k, m' !! k with
        | Some a, Some a' => body k a = body' k a'
        | None, None => True
        | _, _ => False
        end) →
  map_range m body = map_range m' body'.
Proof.
  intros H.
  assert (∀ r, map_range m body = Some r ↔ map_range m' body' = Some r) as Hiff.
  { intros r. rewrite !map_range_Some. split; intros Hr k; specialize (H k);
      specialize (Hr k); destruct (m !! k), (m' !! k); try done;
      destruct Hr as (b & Hb & Hk); exists b; split; congruence. }
  destruct (map_range m body) as [r|].
  - symmetry. by apply Hiff.
  - destruct (map_range m' body') as [r'|]; [|done].
    by pose proof (proj2 (Hiff r') eq_refl).
Qed.

Lemma mapM_ext_in {A B} (f g : A → option B) (l : list A) :
  (∀ x, x ∈ l → f x = g x) → mapM f l = mapM g l.
Proof.
  induction l as [|a l IH]; intros H; [done|].
  change (mapM f (a :: l)) with (y ← f a; k ← mapM f l; mret (y :: k)).
  change (mapM g (a :: l)) with (y ← g a; k ← mapM g l; mret (y :: k)).
  rewrite (H a) by left. rewrite IH; [done|]. intros x Hx. apply H. by right.
Qed.

Lemma validate_elems_ext (f g : Value → option Diagnostics) elemPath elems :
  (∀ kv, kv ∈ elems → f kv.2 = g kv.2) →
  validate_elems f elemPath elems = validate_elems g elemPath elems.
Proof.
  unfold validate_elems. intros H. f_equal. apply mapM_ext_in.
  intros kv Hkv. by rewrite (H kv Hkv).
Qed.

Lemma erase_limits_unfold attrs blocks :
  erase_limits (mkBlockType attrs blocks)
  = mkBlockType attrs (erase_limits_nested <$> blocks).
Proof. reflexivity. Qed.

Section validate_more.
Variable Convert : Value → Ty → Value + string.

(** X17. [Validate] never consults [MinItems] and [MaxItems]: with the
    limits of every nested block type, at every depth, set to zero it
    returns the same diagnostics (and panics on the same values). *)
Theorem Validate_ignores_limits (b : BlockType) (val : Value) :
  Validate Convert (erase_limits b) val = Validate Convert b val.
Proof.
  revert val. induction b as [attrs blocks IH] using BlockType_nested_ind.
  intros val. rewrite erase_limits_unfold, !Validate_unfold.
  destruct (negb (IsObjectType (type_of val))); [done|].
  destruct (map_range attrs _) as [attr_diags|]; [|done]. simpl.
  f_equal. apply map_range_ext2. intros k. rewrite !lookup_fmap.
  destruct (blocks !! k) as [nb|] eqn:Hk; [|done]. simpl.
  destruct (GetAttr val k) as [av|]; [|done]. simpl.
  specialize (IH k nb Hk). simpl in IH.
  destruct nb as [nesting content mx mn]. simpl in IH.
  destruct nesting; simpl; try done.
  - rewrite IH. done.
  - destruct (ElementIterator av) as [elems|]; [|done]. simpl.
    apply validate_elems_ext. auto.
  - destruct (ElementIterator av) as [elems|]; [|done]. simpl.
    apply validate_elems_ext. auto.
  - destruct (ElementIterator av) as [elems|]; [|done]. simpl.
    apply validate_elems_ext. auto.
Qed.

End validate_more.

Section validate_total.
Variable Convert : Value → Ty → Value + string.

Lemma validate_elems_is_Some (validate : Value → option Diagnostics) elemPath elems :
  Forall (λ v, is_Some (validate v)) elems.*2 →
  is_Some (validate_elems validate elemPath elems).
Proof.
  intros H. unfold validate_elems. apply fmap_is_Some, mapM_is_Some_2.
  rewrite Forall_fmap in H. eapply Forall_impl; [exact H|].
  intros [k v] [ds Hds]. simpl in *. rewrite Hds. by eexists.
Qed.

(** X18. [Validate] returns on every object that conforms to the schema:
    it never panics on one, whatever the conversion function and the
    validation callbacks do. *)
Theorem Validate_conforming (b : BlockType) (val : Value) :
  conforms b val → is_Some (Validate Convert b val).
Proof.
  revert val. induction b as [attrs blocks IH] using BlockType_nested_ind.
  intros val Hval. inversion Hval as [? ? m Hattrs Hblocks]; subst.
  rewrite Validate_unfold. simpl.
  destruct (map_range_is_Some attrs
    (λ name attrS, av ← GetAttr (ObjectVal m) name;
       Some (UnderPath (Attribute_Validate Convert attrS av) (Path_GetAttr [] name))))
    as [attr_diags ->].
  { intros k a Hk. destruct (Hattrs k a Hk) as (gv & Hgv & _).
    rewrite GetAttr_object, Hgv. by eexists. }
  simpl.
  destruct (map_range_is_Some (validate_block Convert <$> blocks)
    (λ name blockS_validate, GetAttr (ObjectVal m) name ≫= blockS_validate name))
    as [block_diags ->]; [|by eexists].
  intros k f Hk. rewrite lookup_fmap in Hk.
  destruct (blocks !! k) as [nb|] eqn:Hnb; [|done]. simpl in Hk.
  injection Hk as <-.
  destruct (Hblocks k nb Hnb) as (bv & Hbv & Hconf).
  rewrite GetAttr_object, Hbv. simpl.
  specialize (IH k nb Hnb).
  inversion Hconf as [content mx mn|content mx mn v Hv|content mx mn l Hst Hl
                     |content mx mn l Hst Hl|content mx mn l Hl
                     |content mx mn es Hst Hes|content mx mn es Hst Hes];
    subst; simpl in IH |- *.
  - by eexists.
  - destruct (IsNull bv); simpl; [by eexists|].
    destruct (IH bv Hv) as [ds ->]. by eexists.
  - apply validate_elems_is_Some. rewrite imap_snd.
    eapply Forall_impl; [exact Hl|]. auto.
  - apply validate_elems_is_Some. rewrite imap_snd.
    eapply Forall_impl; [exact Hl|]. auto.
  - apply validate_elems_is_Some. rewrite pair_snd.
    eapply Forall_impl; [exact Hl|]. auto.
  - apply validate_elems_is_Some. rewrite <- list_fmap_compose.
    apply Forall_fmap, Forall_forall. intros [k' v'] Hin%elem_of_map_to_list.
    simpl. apply IH, (Hes k' v' Hin).
  - apply validate_elems_is_Some. rewrite <- list_fmap_compose.
    apply Forall_fmap, Forall_forall. intros [k' v'] Hin%elem_of_map_to_list.
    simpl. apply IH, (Hes k' v' Hin).
Qed.

(** X19. A required attribute that is null in the object is reported:
    the result of [Validate] holds the error "Missing required argument"
    at the path of the attribute, so [HasErrors] is true. *)
Theorem Validate_missing_required (b : BlockType) (obj : Value)
    (diags : Diagnostics) (name : string) (attrS : Attribute) (av : Value) :
  Validate Convert b obj = Some diags →
  IsObjectType (type_of obj) = true →
  Attributes b !! name = Some attrS →
  Required attrS = true →
  GetAttr obj name = Some av →
  IsNull av = true →
  mkDiagnostic Error "Missing required argument" "This argument is required."
               [GetAttrStep name] ∈ diags ∧
  HasErrors diags = true.
Proof.
  destruct b as [attrs blocks]. rewrite Validate_unfold. simpl Attributes.
  intros Hv Hobj Hname Hreq Hav Hnull. rewrite Hobj in Hv. simpl in Hv.
  destruct (map_range attrs _) as [attr_diags|] eqn:Hattrs; [|done]. simpl in Hv.
  destruct (map_range (_ <$> blocks) _) as [block_diags|]; [|done].
  simpl in Hv. injection Hv as <-.
  destruct (map_range_lookup _ _ _ name attrS Hattrs Hname) as (ds & Hds & Hlook).
  rewrite Hav in Hds. simpl in Hds. injection Hds as <-.
  assert (mkDiagnostic Error "Missing required argument"
            "This argument is required." [GetAttrStep name]
          ∈ mjoin (map_to_list attr_diags).*2 ++ mjoin (map_to_list block_diags).*2)
    as Hin.
  { apply elem_of_app. left. apply list_elem_of_join.
    eexists. split; [|apply list_elem_of_fmap; eexists (name, _); split;
                       [reflexivity|by apply elem_of_map_to_list]].
    simpl.
    refine (UnderPath_elem_of _ (Path_GetAttr [] name)
              (mkDiagnostic Error "Missing required argument"
                            "This argument is required." []) _).
    unfold Attribute_Validate. rewrite Hreq, Hnull. simpl.
    destruct (Convert av (Type_ attrS)) as [cv|err]; simpl; by left. }
  split; [done|]. unfold HasErrors. apply existsb_exists.
  eexists. split; [by apply list_elem_of_In|]. done.
Qed.

End validate_total.

Section validate_fn.
Variable Convert : Value → Ty → Value + string.

(** X20. The validation callback of an attribute is consulted only for a
    value that converted to the attribute's type and is then known and not
    null, and not at all after an error: two attributes of the same type
    and requiredness whose callbacks behave alike on such a converted
    value validate the given value alike. *)
Theorem ValidateFn_sees_converted (a1 a2 : Attribute) (val : Value) :
  Type_ a1 = Type_ a2 → Required a1 = Required a2 →
  (∀ convVal, Convert val (Type_ a1) = inl convVal →
     IsNull convVal = false → IsKnown convVal = true →
     Required a1 && IsNull val = false →
     WrapSimpleFunction (ValidateFn a1) [convVal]
     = WrapSimpleFunction (ValidateFn a2) [convVal]) →
  Attribute_Validate Convert a1 val = Attribute_Validate Convert a2 val.
Proof.
  intros Hty Hreq Hfn. unfold Attribute_Validate. rewrite <- Hty, <- Hreq.
  destruct (Required a1 && IsNull val) eqn:Hmiss.
  { destruct (Convert val (Type_ a1)); done. }
  destruct (Convert val (Type_ a1)) as [convVal|err] eqn:Hconv; [|done].
  simpl. destruct (IsNull convVal) eqn:Hnull; [done|].
  destruct (IsKnown convVal) eqn:Hknown; [|done]. simpl.
  by rewrite (Hfn convVal).
Qed.

End validate_fn.

(** ** The read and apply drivers *)

Lemma normalize_result_typed wantTy newVal :
  (IsNull (normalize_result wantTy newVal) = true →
     normalize_result wantTy newVal = NullVal wantTy) ∧
  (IsKnown (normalize_result wantTy newVal) = false →
     normalize_result wantTy newVal = UnknownVal wantTy).
Proof.
  unfold normalize_result. destruct (IsNull newVal) eqn:Hnull; [done|].
  destruct (IsKnown newVal) eqn:Hknown; simpl.
  - split; [by rewrite Hnull | by rewrite Hknown].
  - done.
Qed.

Lemma read_with_typed schema readFn arg v diags :
  read_with schema readFn arg = Some (v, diags) →
  (IsNull v = true → v = NullVal (ImpliedCtyType schema)) ∧
  (IsKnown v = false → v = UnknownVal (ImpliedCtyType schema)).
Proof.
  unfold read_with. intros H.
  destruct (call_readFn _ _ _) as [[[newVal moreDiags]|err]|]; simpl in H; [| |done].
  - injection H as <- <-. apply normalize_result_typed.
  - injection H as <- <-. done.
Qed.

(** X21. Whatever the provider's callback returns, a null result of
    [refresh], [read] or [applyChange] is the null value of the schema's
    implied type, and an unknown result the unknown value of that type. *)
Theorem driver_results_typed (schema : BlockType) (v : Value) (diags : Diagnostics) :
  (∃ rt readFn current,
     configSchema rt = schema ∧ refresh rt readFn current = Some (v, diags)) ∨
  (∃ rt config,
     data_configSchema rt = schema ∧ read rt config = Some (v, diags)) ∨
  (∃ rt prior planned,
     configSchema rt = schema ∧ applyChange rt prior planned = Some (v, diags)) →
  (IsNull v = true → v = NullVal (ImpliedCtyType schema)) ∧
  (IsKnown v = false → v = UnknownVal (ImpliedCtyType schema)).
Proof.
  intros [(rt & readFn & current & <- & H)|[(rt & config & <- & H)
         |(rt & prior & planned & <- & H)]].
  - by apply read_with_typed in H.
  - by apply read_with_typed in H.
  - unfold applyChange in H.
    destruct (UnknownAsNull planned) as [planned'|]; [|done]. simpl in H.
    destruct (IsNull prior); [|destruct (IsNull planned')];
      (destruct (WrapFunctionWithReturnValueCty _ _ _) as [[newVal moreDiags]|err];
       injection H as <- <-; [apply normalize_result_typed|done]).
Qed.

Lemma IsWhollyKnown_IsKnown v : IsWhollyKnown v = true → IsKnown v = true.
Proof. by destruct v. Qed.

(** X22. A resource type defined without a [ReadFn] reads through
    [defaultReadFn]: [refresh] of a managed resource type and [read] of a
    data resource type then report no diagnostics and return a value
    without any unknown value inside. *)
Theorem default_read_wholly_known (def : ResourceType) (arg v : Value)
    (diags : Diagnostics) :
  ReadFn def = FnNil →
  (∃ rt readFn, NewManagedResourceType (Some def) = Some (rt, readFn) ∧
                refresh rt readFn arg = Some (v, diags)) ∨
  (∃ rt, NewDataResourceType (Some def) = Some rt ∧
         read rt arg = Some (v, diags)) →
  diags = [] ∧ IsWhollyKnown v = true.
Proof.
  intros Hnil H.
  assert (∃ schema, read_with schema defaultReadFn arg = Some (v, diags))
    as [schema Hread].
  { destruct H as [(rt & readFn & Hnew & H)|(rt & Hnew & H)].
    - unfold NewManagedResourceType in Hnew. simpl in Hnew.
      injection Hnew as <- <-. unfold readFn_of in H. rewrite Hnil in H. by eexists.
    - unfold NewDataResourceType in Hnew. simpl in Hnew.
      case_decide; [done|]. injection Hnew as <-.
      unfold read, readFn_of in H. simpl in H. rewrite Hnil in H. by eexists. }
  unfold read_with, call_readFn in Hread.
  destruct (UnknownAsNull arg) as [w|] eqn:Hw; [|done]. simpl in Hread.
  injection Hread as <- <-. split; [done|].
  pose proof (UnknownAsNull_wholly_known _ _ Hw) as Hknown.
  unfold normalize_result. destruct (IsNull w); [done|].
  by rewrite (IsWhollyKnown_IsKnown _ Hknown).
Qed.

(** ** Planning after defaults *)

Lemma attr_default_not_null attrS gv w :
  Computed attrS = true → attr_default attrS gv = Some w → IsNull w = false.
Proof.
  unfold attr_default. intros Hc. rewrite Hc.
  destruct (IsNull gv) eqn:Hnull; intros [= <-]; done.
Qed.

(** X23. After [ApplyDefaults] no computed attribute of the object is
    null (a null one has become unknown).  So on the plan builder that
    [planChange] makes for the object with defaults applied,
    [CanProvideAttrDefault] never returns true: it returns false for every
    attribute that is not also a nested block type, and panics for a name
    that is no attribute. *)
Theorem CanProvideAttrDefault_after_ApplyDefaults (schema : BlockType)
    (priorV configV proposed plannedV : Value) (b : planBuilder) (name : string) :
  ApplyDefaults schema proposed = Some plannedV →
  NewPlanBuilder schema priorV configV plannedV = Some b →
  NestedBlockTypes schema !! name = None →
  CanProvideAttrDefault b name
  = match Attributes schema !! name with
    | Some _ => Some false
    | None => None
    end.
Proof.
  unfold NewPlanBuilder. intros Hw Hb Hname.
  destruct (newPlanBuilder_Some _ _ _ _ _ Hb) as (Hs & _ & _ & Hpl & _).
  unfold CanProvideAttrDefault. rewrite Hs. simpl.
  destruct (Attributes schema !! name) as [attrS|] eqn:HattrS; [|done].
  simpl. destruct (planned b) as [pb|] eqn:Hpb; [|done].
  destruct (Computed attrS) eqn:Hc; [|done]. simpl.
  unfold plan_Attr, requireWritable. rewrite Hpb. simpl.
  destruct (negb (is_NilVal plannedV) && negb (IsNull plannedV)) eqn:Hnn; [|done].
  symmetry in Hpl. unfold NewObjectBuilder in Hpl.
  destruct (newObjectBuilder_Some _ _ _ Hpl) as (Hschema & Hattrs & _).
  destruct (Hattrs name attrS HattrS) as (v & Hv & Hget).
  rewrite (builder_Attr_declared pb schema name attrS) by done.
  rewrite Hv. simpl. f_equal.
  apply andb_prop in Hnn as [Hnil _]. apply negb_true_iff in Hnil.
  rewrite Hnil in Hget.
  destruct schema as [attrs blocks]. simpl in HattrS, Hname.
  rewrite ApplyDefaults_unfold in Hw.
  destruct (map_range attrs _) as [attr_vals|] eqn:Hav; [|done]. simpl in Hw.
  destruct (map_range (_ <$> blocks) _) as [block_vals|] eqn:Hbv; [|done].
  simpl in Hw. injection Hw as <-.
  rewrite GetAttr_object in Hget.
  destruct (map_range_lookup _ _ _ name attrS Hav HattrS) as (d & Hd & Hlook).
  assert (block_vals !! name = None) as Hnone.
  { apply (map_range_lookup_None _ _ _ _ Hbv). by rewrite lookup_fmap, Hname. }
  rewrite lookup_union_r in Hget by done. rewrite Hlook in Hget.
  injection Hget as <-.
  destruct (GetAttr proposed name) as [gv|]; [|done]. simpl in Hd.
  by apply (attr_default_not_null attrS gv).
Qed.

(** ** Validation and the drivers at the example schemas *)

Lemma Validate_conforming_witness :
  is_Some (Validate exact_convert resource config_obj).
Proof.
  exact (Validate_conforming exact_convert resource config_obj conforms_config_obj).
Defined.

Lemma Validate_missing_required_witness :
  mkDiagnostic Error "Missing required argument" "This argument is required."
               [GetAttrStep "v"]
    ∈ default [] (Validate exact_convert inner (element (NullVal TString))) ∧
  HasErrors (default [] (Validate exact_convert inner (element (NullVal TString))))
  = true.
Proof.
  apply (Validate_missing_required exact_convert inner (element (NullVal TString))
           _ "v" (attribute TString true false false None) (NullVal TString));
    by_vm.
Defined.

Lemma ValidateFn_sees_converted_witness :
  Attribute_Validate exact_convert
    (mkAttribute TString false true false false "" FnNil None) (NullVal TString)
  = Attribute_Validate exact_convert
      (mkAttribute TString false true false false ""
                   (FnInvalid "not a function") None) (NullVal TString).
Proof.
  apply (ValidateFn_sees_converted exact_convert); [reflexivity|reflexivity|].
  intros convVal Hconv Hnull. vm_compute in Hconv. injection Hconv as <-.
  discriminate Hnull.
Defined.

Lemma driver_results_typed_witness :
  ∃ v diags, refresh (managed echo) (providerReadFn FnNil) prior_obj = Some (v, diags) ∧
    (IsNull v = true → v = NullVal (ImpliedCtyType resource)) ∧
    (IsKnown v = false → v = UnknownVal (ImpliedCtyType resource)).
Proof.
  exists (NullVal (ImpliedCtyType resource)), []. split; [by_vm|].
  apply (driver_results_typed resource _ []). left.
  exists (managed echo), (providerReadFn FnNil), prior_obj.
  split; [reflexivity|by_vm].
Defined.

Lemma default_read_wholly_known_witness :
  ∃ rt readFn v,
    NewManagedResourceType
      (Some (mkResourceType (Some resource) 3 FnNil FnNil FnNil FnNil))
    = Some (rt, readFn) ∧
    refresh rt readFn planned_obj = Some (v, []) ∧
    IsWhollyKnown planned_obj = false ∧ IsWhollyKnown v = true.
Proof.
  pose (def := mkResourceType (Some resource) 3 FnNil FnNil FnNil FnNil).
  pose (rt := mkManagedResourceType resource 0 FnNil FnNil FnNil FnNil).
  pose (v := default NilVal (UnknownAsNull planned_obj)).
  exists rt, defaultReadFn, v. split; [reflexivity|]. split; [by_vm|].
  split; [by_vm|].
  apply (default_read_wholly_known def planned_obj v []); [reflexivity|].
  left. exists rt, defaultReadFn. split; [reflexivity|by_vm].
Defined.

Lemma CanProvideAttrDefault_after_ApplyDefaults_witness :
  ∃ b, NewPlanBuilder resource null_obj config_obj planned_obj = Some b ∧
       GetAttr config_obj "id" = Some (NullVal TString) ∧
       CanProvideAttrDefault b "id" = Some false.
Proof.
  exists (planning null_obj config_obj planned_obj). split; [by_vm|].
  split; [by_vm|].
  apply (CanProvideAttrDefault_after_ApplyDefaults resource null_obj config_obj
           config_obj planned_obj _ "id"); by_vm.
Defined.

(** ** Object reader: the blocks of a list and of a map *)

Lemma conforms_blockVal r t blockS :
  conforms (reader_schema r) (reader_v r) →
  NestedBlockTypes (reader_schema r) !! t = Some blockS →
  ∃ bv, blockVal r t = Some (blockS, bv) ∧ conforms_nested blockS bv.
Proof.
  destruct r as [schema obj]. simpl. intros Hconf Ht.
  inversion Hconf as [attrs blocks m Hattrs Hblocks]; subst. simpl in Ht.
  destruct (Hblocks t blockS Ht) as (bv & Hbv & Hnested).
  exists bv. split; [|done]. unfold blockVal. simpl. rewrite Ht. simpl.
  by rewrite GetAttr_object, Hbv.
Qed.

(** X24. For a list-nesting block type of a conforming object,
    [BlockList] returns as many readers as [BlockCount] counts, each a
    reader of a conforming object of the content schema, and
    [BlockFromList] returns the reader at the same position of that list;
    it panics for a position at or past the count and for a negative
    one. *)
Theorem reader_BlockList_agrees (r : objectReaderVal) (t : string)
    (blockS : NestedBlockType) :
  conforms (reader_schema r) (reader_v r) →
  NestedBlockTypes (reader_schema r) !! t = Some blockS →
  Nesting blockS = NestingList →
  ∃ l, reader_BlockList r t = Some l ∧
       reader_BlockCount r t = Some (length l) ∧
       Forall (λ r', reader_schema r' = Content blockS ∧
                     conforms (Content blockS) (reader_v r')) l ∧
       (∀ i : nat, reader_BlockFromList r t (Z.of_nat i) = l !! i) ∧
       (∀ idx, (idx < 0)%Z → reader_BlockFromList r t idx = None).
Proof.
  intros Hconf Ht Hmode.
  destruct (conforms_blockVal r t blockS Hconf Ht) as (bv & Hbv & Hnested).
  unfold reader_BlockList, reader_BlockCount, reader_BlockFromList.
  rewrite Hbv. simpl. rewrite Hmode. simpl.
  inversion Hnested as [| |content mx mn l Hst Hl|content mx mn l Hst Hl| | |];
    subst; simpl in Hmode; try done; simpl.
  - exists (mkObjectReaderVal content <$> l). rewrite imap_snd, length_fmap.
    split; [done|]. split; [done|]. split; [|split].
    + apply Forall_fmap. eapply Forall_impl; [exact Hl|]. by intros v Hv.
    + intros i. unfold Index. simpl.
      rewrite decide_False by lia. rewrite Nat2Z.id, list_lookup_fmap.
      by destruct (l !! i).
    + intros idx Hneg. unfold Index. simpl. by rewrite decide_True by done.
  - exists (mkObjectReaderVal content <$> l). rewrite imap_snd, !length_fmap.
    split; [done|].
    split; [unfold LengthInt; simpl; by rewrite length_fmap|]. split; [|split].
    + apply Forall_fmap. eapply Forall_impl; [exact Hl|]. by intros v Hv.
    + intros i. unfold Index. simpl.
      rewrite decide_False by lia. rewrite Nat2Z.id, !list_lookup_fmap.
      by destruct (l !! i).
    + intros idx Hneg. unfold Index. simpl. by rewrite decide_True by done.
Qed.

(** X25. For a map-nesting block type with static content of a
    conforming object, [BlockMap] returns as many readers as [BlockCount]
    counts, each a reader of a conforming object of the content schema,
    and [BlockFromMap] returns the reader [BlockMap] has under the key;
    for a key that has no block it does not panic but returns a reader of
    the null object. *)
Theorem reader_BlockMap_agrees (r : objectReaderVal) (t : string)
    (blockS : NestedBlockType) :
  conforms (reader_schema r) (reader_v r) →
  NestedBlockTypes (reader_schema r) !! t = Some blockS →
  Nesting blockS = NestingMap →
  static (ImpliedCtyType (Content blockS)) →
  ∃ m, reader_BlockMap r t = Some m ∧
       reader_BlockCount r t = Some (size m) ∧
       map_Forall (λ _ r', reader_schema r' = Content blockS ∧
                           conforms (Content blockS) (reader_v r')) m ∧
       ∀ key, reader_BlockFromMap r t key
              = Some (default (mkObjectReaderVal (Content blockS)
                                 (Null (Content blockS)))
                              (m !! key)).
Proof.
  intros Hconf Ht Hmode Hstatic.
  destruct (conforms_blockVal r t blockS Hconf Ht) as (bv & Hbv & Hnested).
  unfold reader_BlockMap, reader_BlockCount, reader_BlockFromMap.
  rewrite Hbv. simpl. rewrite Hmode. simpl.
  inversion Hnested as [| | | | |content mx mn es Hst Hes|content mx mn es Hst Hes];
    subst; simpl in Hmode, Hstatic; try done; simpl.
  destruct (collect_map_is_Some (λ v, Some (mkObjectReaderVal content v)) es)
    as [m Hm]; [by intros k v _; eexists|].
  exists m. rewrite Hm.
  destruct (collect_map_lookup _ _ _ Hm) as [Hlook _].
  rewrite (collect_map_size _ _ _ Hm).
  split; [done|]. split; [done|]. split.
  - intros k r' Hk. rewrite Hlook in Hk.
    destruct (es !! k) as [v|] eqn:Hv; [|done]. simpl in Hk. injection Hk as <-.
    split; [done|]. by apply (Hes k v).
  - intros key. unfold Index. simpl. rewrite Hlook. by destruct (es !! key).
Qed.

(** ** The assertions data resource type *)

Lemma mjoin_nil_Forall {A} (ls : list (list A)) :
  mjoin ls = [] ↔ Forall (λ l, l = []) ls.
Proof.
  induction ls as [|l ls IH]; csimpl.
  - split; [by constructor|done].
  - split.
    + intros [-> Hls]%app_eq_nil. constructor; [done|by apply IH].
    + intros Hall. apply Forall_cons in Hall as [-> Hls]. by apply IH.
Qed.

Lemma mapM_results {A B} (f : A → option B) (l : list A) (k : list B)
    (P : A → Prop) (Q : B → Prop) :
  mapM f l = Some k →
  (∀ x y, x ∈ l → f x = Some y → (Q y ↔ P x)) →
  (Forall Q k ↔ Forall P l).
Proof.
  intros Hk%mapM_Some_1 HPQ. induction Hk as [|x y l k Hxy _ IH].
  - split; constructor.
  - rewrite !Forall_cons, IH.
    + by rewrite (HPQ x y (list_elem_of_here _ _) Hxy).
    + intros x' y' Hx'. apply HPQ. by right.
Qed.

Lemma mapM_elem_of {A B} (f : A → option B) (l : list A) (k : list B) x :
  mapM f l = Some k → x ∈ l → ∃ y, f x = Some y ∧ y ∈ k.
Proof.
  intros Hk%mapM_Some_1 Hx. induction Hk as [|x' y l k Hxy _ IH].
  - by apply elem_of_nil in Hx.
  - apply elem_of_cons in Hx as [->|Hx].
    + exists y. split; [done|by left].
    + destruct (IH Hx) as (y' & Hy' & Hin). exists y'. split; [done|by right].
Qed.

Lemma mapM_all {A B} (f : A → option B) (l : list A) (k : list B) (Q : B → Prop) :
  mapM f l = Some k → (∀ x y, x ∈ l → f x = Some y → Q y) → Forall Q k.
Proof.
  intros Hk%mapM_Some_1 HQ. induction Hk as [|x y l k Hxy _ IH]; constructor.
  - by apply (HQ x y (list_elem_of_here _ _)).
  - apply IH. intros x' y' Hx'. apply HQ. by right.
Qed.

Section assertions_facts.
Context (FromCtyValue_check : Value → testing.assertionsDRTCheck + string)
        (FromCtyValue_equal : Value → testing.assertionsDRTEqual + string)
        (RawEquals : Value → Value → bool)
        (formatValue : Value → Z → string)
        (fmt_s : Value → string) (fmt_q : string → string).

Lemma check_diags_cases subject kv ds :
  testing.check_diags FromCtyValue_check fmt_q subject kv = Some ds →
  Forall (λ d, Severity d = Error) ds ∧
  (ds = [] ↔ ∃ chk, FromCtyValue_check kv.2 = inl chk ∧ testing.Pass chk = true).
Proof.
  unfold testing.check_diags, testing.decode_bug.
  destruct (FromCtyValue_check kv.2) as [chk|err].
  - destruct (testing.Pass chk) eqn:Hpass; intros [= <-].
    + split; [done|]. split; [by eauto|done].
    + split; [by repeat constructor|]. split; [done|].
      intros (chk' & [= <-] & Hp). congruence.
  - destruct (AsString kv.1); simpl; intros [= <-].
    split; [by repeat constructor|]. split; [done|]. by intros (chk' & ? & _).
Qed.

Lemma equal_diags_cases subject kv ds :
  testing.equal_diags FromCtyValue_equal RawEquals formatValue fmt_s fmt_q
    subject kv = Some ds →
  Forall (λ d, Severity d = Error) ds ∧
  (ds = [] ↔ ∃ eq, FromCtyValue_equal kv.2 = inl eq ∧
                   RawEquals (testing.Got eq) (testing.Want eq) = true).
Proof.
  unfold testing.equal_diags, testing.decode_bug.
  destruct (FromCtyValue_equal kv.2) as [eq|err].
  - destruct (RawEquals _ _) eqn:Heq; intros [= <-].
    + split; [done|]. split; [by eauto|done].
    + split; [by repeat constructor|]. split; [done|].
      intros (eq' & [= <-] & Hp). congruence.
  - destruct (AsString kv.1); simpl; intros [= <-].
    split; [by repeat constructor|]. split; [done|]. by intros (eq' & ? & _).
Qed.

(** X26. The read function of [testing_assertions] returns the object it
    was given, and reports errors only: it returns no diagnostic at all
    exactly when every [check] block decodes and has a true [expect], and
    every [equal] block decodes and has a [got] that is raw-equal to its
    [want]. *)
Theorem assertions_ReadFn_passes (obj obj' : testing.assertionsDRT)
    (diags : Diagnostics) :
  testing.assertions_ReadFn FromCtyValue_check FromCtyValue_equal RawEquals
    formatValue fmt_s fmt_q obj = Some (obj', diags) →
  obj' = obj ∧
  Forall (λ d, Severity d = Error) diags ∧
  ∃ checks equals,
    ElementIterator (testing.Checks obj) = Some checks ∧
    ElementIterator (testing.Equals obj) = Some equals ∧
    (diags = [] ↔
       Forall (λ kv, ∃ chk, FromCtyValue_check kv.2 = inl chk ∧
                            testing.Pass chk = true) checks ∧
       Forall (λ kv, ∃ eq, FromCtyValue_equal kv.2 = inl eq ∧
                           RawEquals (testing.Got eq) (testing.Want eq) = true)
              equals).
Proof.
  unfold testing.assertions_ReadFn. intros H.
  destruct (ElementIterator (testing.Checks obj)) as [checks|]; [|done].
  simpl in H. destruct (mapM _ checks) as [cds|] eqn:Hcds; [|done].
  simpl in H. destruct (ElementIterator (testing.Equals obj)) as [equals|]; [|done].
  simpl in H. destruct (mapM _ equals) as [eds|] eqn:Heds; [|done].
  simpl in H. injection H as <- <-. split; [done|]. split.
  - apply Forall_app. split; apply Forall_join.
    + eapply mapM_all; [exact Hcds|]. intros kv ds _ Hds.
      by apply check_diags_cases in Hds as [? _].
    + eapply mapM_all; [exact Heds|]. intros kv ds _ Hds.
      by apply equal_diags_cases in Hds as [? _].
  - exists checks, equals. split; [done|]. split; [done|].
    unfold Diagnostics in *. rewrite app_nil, !mjoin_nil_Forall.
    rewrite (mapM_results _ _ _
               (λ kv, ∃ chk, FromCtyValue_check kv.2 = inl chk ∧
                             testing.Pass chk = true) _ Hcds).
    2: { intros kv ds _ Hds. by apply check_diags_cases in Hds as [_ ?]. }
    rewrite (mapM_results _ _ _
               (λ kv, ∃ eq, FromCtyValue_equal kv.2 = inl eq ∧
                            RawEquals (testing.Got eq) (testing.Want eq) = true)
               _ Heds).
    2: { intros kv ds _ Hds. by apply equal_diags_cases in Hds as [_ ?]. }
    done.
Qed.

(** X27. Every failed assertion is reported at its own block: a [check]
    block with key [k] whose [expect] is false gives the error "Test
    failure" at the path [check[k].expect], and an [equal] block with key
    [k] whose [got] is not raw-equal to its [want] gives it at
    [equal[k].got]. *)
Theorem assertions_ReadFn_failure_paths (obj obj' : testing.assertionsDRT)
    (diags : Diagnostics) :
  testing.assertions_ReadFn FromCtyValue_check FromCtyValue_equal RawEquals
    formatValue fmt_s fmt_q obj = Some (obj', diags) →
  (∀ checks k v chk,
     ElementIterator (testing.Checks obj) = Some checks → (k, v) ∈ checks →
     FromCtyValue_check v = inl chk → testing.Pass chk = false →
     ∃ d, d ∈ diags ∧ Severity d = Error ∧ Summary d = "Test failure"%string ∧
          Path d = [GetAttrStep "check"; IndexStep k; GetAttrStep "expect"]) ∧
  (∀ equals k v eq,
     ElementIterator (testing.Equals obj) = Some equals → (k, v) ∈ equals →
     FromCtyValue_equal v = inl eq →
     RawEquals (testing.Got eq) (testing.Want eq) = false →
     ∃ d, d ∈ diags ∧ Severity d = Error ∧ Summary d = "Test failure"%string ∧
          Path d = [GetAttrStep "equal"; IndexStep k; GetAttrStep "got"]).
Proof.
  unfold testing.assertions_ReadFn. intros H.
  destruct (ElementIterator (testing.Checks obj)) as [checks|]; [|done].
  simpl in H. destruct (mapM _ checks) as [cds|] eqn:Hcds; [|done].
  simpl in H. destruct (ElementIterator (testing.Equals obj)) as [equals|]; [|done].
  simpl in H. destruct (mapM _ equals) as [eds|] eqn:Heds; [|done].
  simpl in H. injection H as <- <-. split.
  - intros ? k v chk [= <-] Hin Hchk Hpass.
    destruct (mapM_elem_of _ _ _ _ Hcds Hin) as (ds & Hds & Hdsin).
    unfold testing.check_diags in Hds. simpl in Hds.
    rewrite Hchk, Hpass in Hds. injection Hds as <-.
    eexists. split.
    { apply elem_of_app. left. apply list_elem_of_join. eexists.
      split; [|exact Hdsin]. by left. }
    done.
  - intros ? k v eq [= <-] Hin Heq Hne.
    destruct (mapM_elem_of _ _ _ _ Heds Hin) as (ds & Hds & Hdsin).
    unfold testing.equal_diags in Hds. simpl in Hds.
    rewrite Heq, Hne in Hds. injection Hds as <-.
    eexists. split.
    { apply elem_of_app. right. apply list_elem_of_join. eexists.
      split; [|exact Hdsin]. by left. }
    done.
Qed.

End assertions_facts.

(** ** TAP reports *)

Lemma sort_Ints_elem_of l num : num ∈ tap.sort_Ints l ↔ num ∈ l.
Proof. unfold tap.sort_Ints. by rewrite merge_sort_Permutation. Qed.

Lemma sort_Ints_Sorted l : Sorted Z.le (tap.sort_Ints l).
Proof. apply (Sorted_merge_sort Z.le). Qed.

Lemma length_pos_elem_of {A} (l : list A) : 0 < length l ↔ ∃ x, x ∈ l.
Proof.
  destruct l as [|x l]; simpl.
  - split; [lia|]. intros [x Hx]. by apply elem_of_nil in Hx.
  - split; [|lia]. intros _. exists x. by left.
Qed.

(** X28. [Plan.check] compares the reports with the plan: it returns nil
    exactly when every report's number lies within the plan and every
    number of the plan has a report; otherwise [Missing] holds, in
    ascending order, the numbers of the plan without a report, and [Extra]
    the reported numbers outside the plan.  It returns unless the plan
    ends at the largest [int]. *)
Theorem check_reports (p : tap.Plan) (results : gmap Z tap.Report) :
  let missing num :=
    (tap.Min p ≤ num ≤ tap.Max p)%Z ∧ results !! num = None in
  let extra num :=
    ∃ k rep, results !! k = Some rep ∧ tap.Num rep = num ∧
             (num < tap.Min p ∨ num > tap.Max p)%Z in
  (is_Some (tap.check p results) ↔
     ¬ (tap.Max p >= tap.Min p ∧ tap.Max p = tap.max_int)%Z) ∧
  ∀ r, tap.check p results = Some r →
    match r with
    | None => (∀ num, ¬ missing num) ∧ (∀ num, ¬ extra num)
    | Some inconsistent =>
        Sorted Z.le (tap.Missing inconsistent) ∧
        Sorted Z.le (tap.Extra inconsistent) ∧
        (∀ num, num ∈ tap.Missing inconsistent ↔ missing num) ∧
        (∀ num, num ∈ tap.Extra inconsistent ↔ extra num) ∧
        ((∃ num, missing num) ∨ (∃ num, extra num))
    end.
Proof.
  intros missing extra. unfold tap.check.
  set (ex := omap _ (map_to_list results)).
  assert (∀ num, num ∈ ex ↔ extra num) as Hex.
  { intros num. unfold ex, extra. rewrite list_elem_of_omap. split.
    - intros ([k rep] & Hin%elem_of_map_to_list & Hsome). simpl in Hsome.
      case_decide as Hout; [|done]. injection Hsome as <-. by eauto.
    - intros (k & rep & Hk & <- & Hout). exists (k, rep).
      split; [by apply elem_of_map_to_list|]. simpl. by rewrite decide_True. }
  destruct (decide (tap.Max p >= tap.Min p)%Z) as [Hge|Hlt].
  - destruct (decide (tap.Max p = tap.max_int)) as [Hmax|Hmax]; simpl.
    { split; [|done]. split; [by intros [? ?]|]. intros Hn. exfalso. by apply Hn. }
    set (mi := filter _ (seqZ (tap.Min p) (tap.Max p - tap.Min p + 1))).
    assert (∀ num, num ∈ mi ↔ missing num) as Hmi.
    { intros num. unfold mi, missing.
      rewrite list_elem_of_filter, elem_of_seqZ. split; intros [? ?]; split; (done || lia). }
    split; [split; [tauto|intros _; case_decide; by eexists]|].
    intros r Hr. case_decide as Hany; injection Hr as <-; simpl in *.
    + split; [apply sort_Ints_Sorted|]. split; [apply sort_Ints_Sorted|].
      split; [intros num; by rewrite sort_Ints_elem_of|].
      split; [intros num; by rewrite sort_Ints_elem_of|].
      destruct Hany as [(num & Hnum)%length_pos_elem_of|(num & Hnum)%length_pos_elem_of];
        rewrite sort_Ints_elem_of in Hnum; [left|right]; exists num; by
          first [apply Hmi|apply Hex].
    + split; intros num Hnum; apply Hany; [left|right]; apply length_pos_elem_of;
        exists num; rewrite sort_Ints_elem_of; by first [apply Hmi|apply Hex].
  - simpl. split; [split; [intros _; lia|intros _; case_decide; by eexists]|].
    assert (∀ num, ¬ missing num) as Hnone by (intros num [? _]; lia).
    intros r Hr. case_decide as Hany; injection Hr as <-; simpl in *.
    + split; [apply sort_Ints_Sorted|]. split; [apply sort_Ints_Sorted|].
      split. { intros num. split; [by intros ?%elem_of_nil|by intros ?%Hnone]. }
      split; [intros num; by rewrite sort_Ints_elem_of|].
      destruct Hany as [Hany|(num & Hnum)%length_pos_elem_of]; [simpl in Hany; lia|].
      rewrite sort_Ints_elem_of in Hnum. right. exists num. by apply Hex.
    + split; [done|]. intros num Hnum. apply Hany. right. apply length_pos_elem_of.
      exists num. rewrite sort_Ints_elem_of. by apply Hex.
Qed.

(** ** The TAP data resource type *)

Lemma indent_lines_empty s : testing.indent_lines s = EmptyString ↔ s = EmptyString.
Proof.
  destruct s as [|c s]; [done|]. simpl.
  destruct (Ascii.eqb c (Ascii.ascii_of_nat 10)); done.
Qed.

Lemma HasErrors_join (dss : list Diagnostics) :
  HasErrors (mjoin dss) = false ↔ Forall (λ ds, HasErrors ds = false) dss.
Proof.
  induction dss as [|ds dss IH]; csimpl; [split; [by constructor|done]|].
  rewrite HasErrors_app, orb_false_iff, Forall_cons, IH. done.
Qed.

Lemma test_diags_errors t ds :
  testing.test_diags t = Some ds →
  ∃ test, t = Some test ∧
    (HasErrors ds = false ↔ tap.Todo test = true ∧ tap.Result_ test ≠ tap.Fail) ∧
    (tap.Todo test = false →
       ∃ d, d ∈ ds ∧ Severity d = Error ∧ Summary d = "Test failure"%string).
Proof.
  destruct t as [test|]; [|done]. unfold testing.test_diags. simpl.
  intros Hds. exists test. split; [done|].
  destruct (tap.Todo test) eqn:Htodo; simpl in Hds.
  - rewrite orb_false_r, andb_true_r in Hds.
    case_bool_decide as Hfail.
    + injection Hds as <-. split; [|done]. split; [done|]. by intros [_ ?].
    + case_bool_decide; injection Hds as <-; (split; [|done]); done.
  - rewrite orb_true_r in Hds. injection Hds as <-. split.
    + split; [done|]. by intros [? _].
    + intros _. eexists. split; [by left|]. done.
Qed.

(** X29. When the test program ran and its output was read without
    error, the read function of [testing_tap] reports an error for every
    test that is not marked as a TODO test, whatever its result, also for
    one that passed.  Its diagnostics are free of errors exactly when the
    program wrote nothing to its standard error and every test is a TODO
    test that did not fail. *)
Theorem tap_ReadFn_errors (max_len : Z) (obj obj' : testing.tapDRT)
    (errBuf : string) (reader : tap.Reader) (diags : Diagnostics) :
  testing.tap_ReadFn max_len obj None errBuf reader = Some (obj', diags) →
  tap.Reader_Err reader = Some None →
  ∃ report, tap.Reader_Report max_len reader = Some report ∧
    (∀ test, Some test ∈ tap.Tests report → tap.Todo test = false →
       ∃ d, d ∈ diags ∧ Severity d = Error ∧ Summary d = "Test failure"%string) ∧
    (HasErrors diags = false ↔
       errBuf = EmptyString ∧
       Forall (λ t, ∃ test, t = Some test ∧ tap.Todo test = true ∧
                            tap.Result_ test ≠ tap.Fail) (tap.Tests report)).
Proof.
  unfold testing.tap_ReadFn, tap.ReadAll_result. intros H Herr.
  destruct (testing.Program obj) as [|exe args]; [done|].
  destruct (tap.Reader_Report max_len reader) as [report|]; [|done].
  rewrite Herr in H. cbn -[mapM mjoin] in H.
  destruct (mapM _ (tap.Tests report)) as [tds|] eqn:Htds; [|done].
  cbn -[mapM mjoin] in H. injection H as <- <-. exists report. split; [done|]. split.
  - intros test Hin Htodo.
    destruct (mapM_elem_of _ _ _ _ Htds Hin) as (ds & Hds & Hdsin).
    destruct (test_diags_errors _ _ Hds) as (test' & [= <-] & _ & Hd).
    destruct (Hd Htodo) as (d & Hdin & Hsev & Hsum). exists d. split; [|done].
    apply elem_of_app. left. apply list_elem_of_join. by exists ds.
  - rewrite HasErrors_app, orb_false_iff, HasErrors_join.
    rewrite (mapM_results _ _ _
               (λ t, ∃ test, t = Some test ∧ tap.Todo test = true ∧
                             tap.Result_ test ≠ tap.Fail) _ Htds).
    2: { intros t ds _ Hds.
         destruct (test_diags_errors _ _ Hds) as (test & -> & Hiff & _).
         rewrite Hiff. split; [by eauto|]. by intros (? & [= <-] & ?). }
    destruct (decide (errBuf = EmptyString)) as [->|Hne].
    { simpl. split; by intros [? ?]. }
    assert (testing.indent_lines errBuf ≠ EmptyString) as Hne'
      by (by rewrite indent_lines_empty).
    rewrite (bool_decide_true (testing.indent_lines errBuf ≠ EmptyString)) by done.
    simpl. split; [by intros [_ ?]|by intros [? _]].
Qed.

Lemma max_key_ge (results : gmap Z tap.Report) num :
  is_Some (results !! num) →
  (num ≤ map_fold (λ num _ mx, if decide (num > mx)%Z then num else mx)
                  0%Z results)%Z.
Proof.
  apply (map_fold_weak_ind
           (λ mx m, is_Some (m !! num) → (num ≤ mx)%Z)).
  - rewrite lookup_empty. by intros [? ?].
  - intros k rep m mx Hk IH Hnum.
    destruct (decide (k = num)) as [->|Hne].
    + case_decide; lia.
    + rewrite lookup_insert_ne in Hnum by done. specialize (IH Hnum).
      case_decide; lia.
Qed.

(** X30. A gap in the test numbers of a run without a plan line crashes
    the read function of [testing_tap]: [Reader.Report] leaves a nil entry
    in [Tests] for a number below the largest one reported that has no
    report, [Reader.Err] returns no error because there is no plan to
    check, and the read function dereferences the nil entry. *)
Theorem tap_ReadFn_gap_panics (max_len : Z) (obj : testing.tapDRT)
    (errBuf : string) (reader : tap.Reader) (num gap : Z) :
  tap.plan reader = None → tap.err reader = None → tap.sc_Err reader = None →
  is_Some (tap.results reader !! num) →
  (0 < gap < num)%Z → tap.results reader !! gap = None →
  tap.Reader_Err reader = Some None ∧
  (∀ report, tap.Reader_Report max_len reader = Some report →
             None ∈ tap.Tests report) ∧
  testing.tap_ReadFn max_len obj None errBuf reader = None.
Proof.
  intros Hplan Herr Hsc Hnum Hgap Hnone.
  assert (tap.Reader_Err reader = Some None) as HErr.
  { unfold tap.Reader_Err. by rewrite Herr, Hsc, Hplan. }
  assert (∀ report, tap.Reader_Report max_len reader = Some report →
                    None ∈ tap.Tests report) as Hnil.
  { intros report. unfold tap.Reader_Report. rewrite Hplan.
    pose proof (max_key_ge (tap.results reader) num Hnum) as Hmax.
    set (mx := map_fold _ 0%Z (tap.results reader)) in *. simpl.
    rewrite !bool_decide_true by lia. simpl.
    case_decide; [done|]. case_decide; [done|]. intros [= <-]. simpl.
    apply list_elem_of_fmap. exists gap. split; [done|].
    apply elem_of_seqZ. lia. }
  split; [done|]. split; [done|].
  unfold testing.tap_ReadFn, tap.ReadAll_result.
  destruct (testing.Program obj) as [|exe args]; [done|].
  destruct (tap.Reader_Report max_len reader) as [report|] eqn:Hreport; [|done].
  rewrite HErr. cbn -[mapM mjoin].
  destruct (mapM _ (tap.Tests report)) as [tds|] eqn:Htds; [|done].
  destruct (mapM_elem_of _ _ _ _ Htds (Hnil report eq_refl)) as (ds & Hds & _).
  done.
Qed.

(** ** The readers and the testing provider at the examples *)

Lemma reader_BlockList_agrees_witness :
  let r := mkObjectReaderVal resource stepped_config in
  ∃ l, reader_BlockList r "step" = Some l ∧
       reader_BlockCount r "step" = Some (length l) ∧
       Forall (λ r', reader_schema r' = inner ∧ conforms inner (reader_v r')) l ∧
       (∀ i : nat, reader_BlockFromList r "step" (Z.of_nat i) = l !! i) ∧
       (∀ idx, (idx < 0)%Z → reader_BlockFromList r "step" idx = None).
Proof.
  refine (reader_BlockList_agrees (mkObjectReaderVal resource stepped_config) "step"
            (mkNestedBlockType NestingList inner 0 0) _ _ eq_refl); [|by_vm].
  apply (conforms_with_steps _ _ _ [StringVal "a"; StringVal "b"; StringVal "c"]);
    [reflexivity..|].
  repeat first [apply Forall_nil_2 | apply Forall_cons_2]; reflexivity.
Defined.

Lemma reader_BlockMap_agrees_witness :
  let r := mkObjectReaderVal resource config_obj in
  ∃ m, reader_BlockMap r "rule" = Some m ∧
       reader_BlockCount r "rule" = Some (size m) ∧
       map_Forall (λ _ r', reader_schema r' = inner ∧ conforms inner (reader_v r')) m ∧
       ∀ key, reader_BlockFromMap r "rule" key
              = Some (default (mkObjectReaderVal inner (Null inner)) (m !! key)).
Proof.
  refine (reader_BlockMap_agrees (mkObjectReaderVal resource config_obj) "rule"
            (mkNestedBlockType NestingMap inner 0 0) conforms_config_obj _ eq_refl _);
    [by_vm|unfold static; by_vm].
Defined.

Lemma assertions_ReadFn_passes_witness :
  let diags := default [] (snd <$> assertions_read) in
  assertions_obj = assertions_obj ∧
  Forall (λ d, Severity d = Error) diags ∧
  ∃ checks equals,
    ElementIterator (testing.Checks assertions_obj) = Some checks ∧
    ElementIterator (testing.Equals assertions_obj) = Some equals ∧
    (diags = [] ↔
       Forall (λ kv, ∃ chk, decode_check kv.2 = inl chk ∧
                            testing.Pass chk = true) checks ∧
       Forall (λ kv, ∃ eq, decode_equal kv.2 = inl eq ∧
                           raw_equals (testing.Got eq) (testing.Want eq) = true)
              equals).
Proof.
  refine (assertions_ReadFn_passes decode_check decode_equal raw_equals
            (λ v _, show_value v) show_value quoted assertions_obj assertions_obj
            (default [] (snd <$> assertions_read)) _).
  by_vm.
Defined.

Lemma assertions_ReadFn_failure_paths_witness :
  let diags := default [] (snd <$> assertions_read) in
  (∀ checks k v chk,
     ElementIterator (testing.Checks assertions_obj) = Some checks → (k, v) ∈ checks →
     decode_check v = inl chk → testing.Pass chk = false →
     ∃ d, d ∈ diags ∧ Severity d = Error ∧ Summary d = "Test failure"%string ∧
          Path d = [GetAttrStep "check"; IndexStep k; GetAttrStep "expect"]) ∧
  (∀ equals k v eq,
     ElementIterator (testing.Equals assertions_obj) = Some equals → (k, v) ∈ equals →
     decode_equal v = inl eq →
     raw_equals (testing.Got eq) (testing.Want eq) = false →
     ∃ d, d ∈ diags ∧ Severity d = Error ∧ Summary d = "Test failure"%string ∧
          Path d = [GetAttrStep "equal"; IndexStep k; GetAttrStep "got"]).
Proof.
  refine (assertions_ReadFn_failure_paths decode_check decode_equal raw_equals
            (λ v _, show_value v) show_value quoted assertions_obj assertions_obj
            (default [] (snd <$> assertions_read)) _).
  by_vm.
Defined.

(** The failed check and the failed comparison of the example are
    reported, the check that holds is not. *)
Example assertions_read_example :
  assertions_read
  = Some (assertions_obj,
          [mkDiagnostic Error "Test failure" "Assertion failed: widget is ready."
             [GetAttrStep "check"; IndexStep (StringVal "down"); GetAttrStep "expect"];
           mkDiagnostic Error "Test failure"
             ("Assertion failed." +:+ nl +:+ "  Want: 2" +:+ nl +:+ "  Got:  1")
             [GetAttrStep "equal"; IndexStep (StringVal "size"); GetAttrStep "got"]]).
Proof. by_vm. Qed.

Lemma tap_ReadFn_errors_witness :
  let diags :=
    default [] (snd <$> testing.tap_ReadFn 1000 tap_obj None EmptyString tap_reader) in
  ∃ report, tap.Reader_Report 1000 tap_reader = Some report ∧
    (∀ test, Some test ∈ tap.Tests report → tap.Todo test = false →
       ∃ d, d ∈ diags ∧ Severity d = Error ∧ Summary d = "Test failure"%string) ∧
    (HasErrors diags = false ↔
       EmptyString = EmptyString ∧
       Forall (λ t, ∃ test, t = Some test ∧ tap.Todo test = true ∧
                            tap.Result_ test ≠ tap.Fail) (tap.Tests report)).
Proof.
  refine (tap_ReadFn_errors 1000 tap_obj tap_obj EmptyString tap_reader
            (default [] (snd <$> testing.tap_ReadFn 1000 tap_obj None EmptyString
                                   tap_reader)) _ _); by_vm.
Defined.

(** Both tests of the example passed; the one that is not a TODO test is
    reported as failed, the other as a bonus pass. *)
Example tap_ReadFn_example :
  (snd <$> testing.tap_ReadFn 1000 tap_obj None EmptyString tap_reader)
  = Some [mkDiagnostic Error "Test failure" "Test failed: starts." [];
          mkDiagnostic Warning "Test passed unexpectedly"
            ("Bonus test pass: starts." +:+ nl +:+ nl +:+
             "This test is marked as a TODO test, but yet it passed. Consider removing the TODO directive from this test.")
            []].
Proof. by_vm. Qed.

Lemma tap_ReadFn_gap_panics_witness :
  tap.Reader_Err tap_reader_gap = Some None ∧
  (∀ report, tap.Reader_Report 1000 tap_reader_gap = Some report →
             None ∈ tap.Tests report) ∧
  testing.tap_ReadFn 1000 tap_obj None EmptyString tap_reader_gap = None.
Proof.
  refine (tap_ReadFn_gap_panics 1000 tap_obj EmptyString tap_reader_gap 2 1
            eq_refl eq_refl eq_refl _ _ _).
  - exists (tap_report 2 tap.Pass true). by_vm.
  - split; reflexivity.
  - by_vm.
Defined.
